(** * sparsebuffer: a shallow embedding of [sparsebuffer.c] and its contracts

    The C library keeps a sparse byte buffer: a logical size, a cursor and a
    doubly linked list of loaded ranges.  This development embeds the
    functions of [sparsebuffer.c] as Rocq functions and proves the contracts
    of the operations.

    Conventions of the embedding.
    - [size_t] values are integers in [0, 2^w); every C addition and
      subtraction is written with its reduction modulo [2^w] ([+!], [-!]).
    - The linked list of [Range] nodes is a [list Range]; a pointer to a node
      is the index of the node in the list.
    - The three allocator callbacks are an oracle: a list of booleans that
      says for each coming call of [malloc] or [realloc] whether it
      succeeds.  [free] has no observable effect on the values.
    - A function returns [None] where the C program has no defined
      behaviour: a copy outside of a buffer, the dereference of a null or
      freed node, a failed [assert].  The loop of [sb_remove_range] runs on
      fuel and also returns [None] when the fuel is used up; the fuel is
      enough whenever the ranges are in order ([remove_loop_spec]).
    - [snprintf(err->error, err->size, m)] is recorded as the message [m],
      if any; how much of it [err] holds afterwards depends on [err->size],
      which the embedding leaves out.

    The contracts are proved for every width [w > 0] of [size_t]; the
    examples and counterexamples at the end are run at [w = 64].

    The allocator of [test.c] is embedded too: a block of the test
    allocator is the list of its bytes, marker included. *)

From Stdlib Require Import ZArith List Lia Bool.
From Stdlib Require String.
Import String.StringSyntax.
Import ListNotations.
Local Open Scope Z_scope.
Local Open Scope string_scope.
Local Open Scope list_scope.

(** ** Bytes and buffers *)

Definition byte := Byte.byte.
Definition zero : byte := Byte.x00.

Definition zlen (l : list byte) : Z := Z.of_nat (length l).

(** [zth l i] is [l[i]]. *)
Definition zth (l : list byte) (i : Z) : byte := nth (Z.to_nat i) l zero.

(** The error monad of undefined behaviour. *)
Definition bind {A B : Type} (m : option A) (k : A -> option B) : option B :=
  match m with
  | Some a => k a
  | None => None
  end.

Notation "x <- m ;; k" := (bind m (fun x => k))
  (at level 61, m at next level, right associativity).
Notation "' p <- m ;; k" := (bind m (fun x => match x with p => k end))
  (at level 61, p pattern, m at next level, right associativity).

(** [memcpy(dst + d, src + s, n)]: defined when both areas lie inside their
    buffers. *)
Definition memcpy (dst : list byte) (d : Z) (src : list byte) (s n : Z)
  : option (list byte) :=
  if (0 <=? d) && (0 <=? s) && (0 <=? n)
     && (d + n <=? zlen dst) && (s + n <=? zlen src)
  then Some (firstn (Z.to_nat d) dst
             ++ firstn (Z.to_nat n) (skipn (Z.to_nat s) src)
             ++ skipn (Z.to_nat (d + n)) dst)
  else None.

(** [memset(dst + d, 0, n)]. *)
Definition memset0 (dst : list byte) (d n : Z) : option (list byte) :=
  if (0 <=? d) && (0 <=? n) && (d + n <=? zlen dst)
  then Some (firstn (Z.to_nat d) dst
             ++ repeat zero (Z.to_nat n)
             ++ skipn (Z.to_nat (d + n)) dst)
  else None.

(** ** The allocator *)

(** The coming answers of the allocator; after the end of the list every
    call succeeds. *)
Definition allocator := list bool.

Definition alloc_next (al : allocator) : bool * allocator :=
  match al with
  | [] => (true, [])
  | b :: al' => (b, al')
  end.

Definition never_fails (al : allocator) : Prop := Forall (fun b => b = true) al.

(** ** Data model *)

(** [struct Range] without its links. *)
Record Range := mkRange { pos : Z; size : Z; data : list byte }.

(** [struct SBReader] without the allocator callbacks. *)
Record SBReader := mkReader { rpos : Z; rsize : Z; ranges : list Range }.

(** [enum SBWhence]; the parameter of [sb_seek] can hold any [int]. *)
Definition SB_SET : Z := 0.
Definition SB_CUR : Z := 1.
Definition SB_END : Z := 2.

(** What a call leaves behind: the returned value, the reader and the
    message written to [err] (if any). *)
Record result (A : Type) := mkResult {
  ret : A;
  reader : SBReader;
  error : option String.string
}.
Arguments mkResult {A}.
Arguments ret {A}.
Arguments reader {A}.
Arguments error {A}.

Definition set_ranges (rd : SBReader) (rs : list Range) : SBReader :=
  mkReader (rpos rd) (rsize rd) rs.

Definition set_rpos (rd : SBReader) (p : Z) : SBReader :=
  mkReader p (rsize rd) (ranges rd).

Definition set_rsize (rd : SBReader) (n : Z) : SBReader :=
  mkReader (rpos rd) n (ranges rd).

Definition msg (s : String.string) : option String.string := Some s.

(** ** List nodes addressed by index *)

(** The search loops [for (rm = *r; rm != NULL; rm = rm->next) if (rm->pos
    == pos) break;]: the index of the first node whose start is [p]. *)
Fixpoint find_pos (rs : list Range) (p : Z) : option nat :=
  match rs with
  | [] => None
  | r :: rs' => if pos r =? p then Some O
                else option_map S (find_pos rs' p)
  end.

Definition list_set (i : nat) (x : Range) (l : list Range) : list Range :=
  firstn i l ++ x :: skipn (S i) l.

Definition list_del (i : nat) (l : list Range) : list Range :=
  firstn i l ++ skipn (S i) l.

Definition list_ins (i : nat) (x : Range) (l : list Range) : list Range :=
  firstn i l ++ x :: skipn i l.

(** [range_remove]: unlinks the first node whose start is [p]; the
    [assert] fails when there is none.  Also returns the index found. *)
Definition range_remove (rs : list Range) (p : Z) : option (nat * list Range) :=
  j <- find_pos rs p ;; Some (j, list_del j rs).

(** [range_insert_before]: links [e] before the first node whose start is
    [p]; the search runs off the list when there is none. *)
Definition range_insert_before (rs : list Range) (e : Range) (p : Z)
  : option (list Range) :=
  j <- find_pos rs p ;; Some (list_ins j e rs).

(** [range_insert_after]: links [e] after the first node whose start is
    [p].  Also returns the index found. *)
Definition range_insert_after (rs : list Range) (e : Range) (p : Z)
  : option (nat * list Range) :=
  j <- find_pos rs p ;; Some (j, list_ins (S j) e rs).

(** [range_insert_end]: [r] is not NULL at the only call. *)
Definition range_insert_end (rs : list Range) (e : Range) : option (list Range) :=
  match rs with
  | [] => None
  | _ => Some (rs ++ [e])
  end.

(** Splits the conjunctions of the goal, not what is behind a name. *)
Ltac splits := repeat match goal with |- _ /\ _ => split end.

Section SparseBuffer.

(** The width of [size_t] and the byte found in fresh memory. *)
Variable w : Z.
Variable junk : byte.

Definition wrap (x : Z) : Z := x mod 2 ^ w.
Definition add (a b : Z) : Z := wrap (a + b).
Definition sub (a b : Z) : Z := wrap (a - b).

Infix "+!" := add (at level 50, left associativity).
Infix "-!" := sub (at level 50, left associativity).

(** [malloc(n)]: NULL, or [n] bytes of unspecified content. *)
Definition malloc (n : Z) (al : allocator) : option (list byte) * allocator :=
  let (ok, al') := alloc_next al in
  (if ok then Some (repeat junk (Z.to_nat n)) else None, al').

(** [malloc(sizeof(Range))]: only success or failure matters. *)
Definition malloc_node (al : allocator) : bool * allocator := alloc_next al.

(** [realloc(p, n)]: NULL, or the first [n] bytes of [p]. *)
Definition realloc (p : list byte) (n : Z) (al : allocator)
  : option (list byte) * allocator :=
  let (ok, al') := alloc_next al in
  (if ok
   then Some (firstn (Z.to_nat n) p ++ repeat junk (Z.to_nat n - length p))
   else None, al').

(** ** Merging *)

Definition intersects (a b : Range) : bool :=
  negb ((pos a +! size a <? pos b) || (pos b +! size b <? pos a)).

Definition contains (a b : Range) : bool :=
  (pos a <=? pos b) && (pos a +! size a >=? pos b +! size b).

(** The three ways [merge] returns: [-1]; [0] with [*merged = false]; [0]
    with [*merged = true] and [*ret] filled. *)
Inductive merge_result :=
| MergeFail
| NotMerged
| Merged (m : Range).

Definition merge (a b : Range) (al : allocator)
  : option (merge_result * allocator) :=
  if negb (intersects a b) then Some (NotMerged, al)
  else if contains a b then
    let (p, al') := malloc (size a) al in
    match p with
    | None => Some (MergeFail, al')
    | Some buf =>
        d <- memcpy buf 0 (data a) 0 (size a) ;;
        Some (Merged (mkRange (pos a) (size a) d), al')
    end
  else if contains b a then
    let (p, al') := malloc (size b) al in
    match p with
    | None => Some (MergeFail, al')
    | Some buf =>
        d <- memcpy buf 0 (data b) 0 (size b) ;;
        Some (Merged (mkRange (pos b) (size b) d), al')
    end
  else
    let first_is_a := pos a <=? pos b in
    let first := if first_is_a then a else b in
    let second := if first_is_a then b else a in
    let newsize := pos second +! size second -! pos first in
    let (p, al') := malloc newsize al in
    match p with
    | None => Some (MergeFail, al')
    | Some buf =>
        d <- (if first_is_a then
                buf1 <- memcpy buf 0 (data first) 0 (size first) ;;
                memcpy buf1 (size first) (data second)
                       (pos first +! size first -! pos second)
                       (size second -! (pos first +! size first -! pos second))
              else
                buf1 <- memcpy buf 0 (data first) 0 (pos second -! pos first) ;;
                memcpy buf1 (pos second -! pos first) (data second) 0
                       (size second)) ;;
        Some (Merged (mkRange (pos first) newsize d), al')
    end.

(** ** Construction and accessors *)

Definition sb_new_reader_custom_alloc (size : Z) (al : allocator)
  : option SBReader * option String.string * allocator :=
  if size =? 0 then (None, msg "Invalid reader size.", al)
  else
    let (ok, al') := malloc_node al in
    if ok then (Some (mkReader 0 size []), None, al')
    else (None, msg "Could not allocate SBReader.", al').

Definition sb_new_reader := sb_new_reader_custom_alloc.

Definition sb_clear (rd : SBReader) : SBReader := set_ranges rd [].

Definition sb_bytes_left (rd : SBReader) : Z := rsize rd -! rpos rd.

Definition sb_size (rd : SBReader) : Z := rsize rd.

(** ** sb_load_range *)

(** The first loop of [sb_load_range]: the first node that merges with [r]
    takes the merged range in place. *)
Inductive scan_result :=
| ScanFail
| ScanNone
| ScanMerged (i : nat) (rs : list Range).

Fixpoint merge_scan (r : Range) (es : list Range) (al : allocator)
  : option (scan_result * allocator) :=
  match es with
  | [] => Some (ScanNone, al)
  | e :: es' =>
      '(m, al') <- merge r e al ;;
      match m with
      | MergeFail => Some (ScanFail, al')
      | Merged mr => Some (ScanMerged O (mr :: es'), al')
      | NotMerged =>
          '(s, al'') <- merge_scan r es' al' ;;
          match s with
          | ScanMerged i rs => Some (ScanMerged (S i) (e :: rs), al'')
          | _ => Some (s, al'')
          end
      end
  end.

(** The [while (mergeagain)] loop: node [i] is [mrange].  Every turn that
    goes on unlinks a node, so [length rs] turns are enough.  The boolean
    is [false] when [merge] returned [-1]. *)
Fixpoint merge_chain (fuel : nat) (rs : list Range) (i : nat) (al : allocator)
  : option (bool * list Range * allocator) :=
  mrange <- nth_error rs i ;;
  match nth_error rs (S i) with
  | None => Some (true, rs, al)
  | Some e =>
      '(m, al') <- merge mrange e al ;;
      match m with
      | MergeFail => Some (false, rs, al')
      | NotMerged => Some (true, rs, al')
      | Merged mr =>
          '(j, rs') <- range_remove (list_set i mr rs) (pos e) ;;
          if (j =? i)%nat then None
          else
            match fuel with
            | O => None
            | S fuel' =>
                merge_chain fuel' rs' (if (j <? i)%nat then pred i else i) al'
            end
      end
  end.

Definition sb_load_range (rd : SBReader) (p : Z) (buf : list byte)
  (bufsize : Z) (al : allocator) : option (result Z * allocator) :=
  if bufsize =? 0 then
    Some (mkResult (-1) rd (msg "Invalid buffer size."), al)
  else if rpos rd +! bufsize >? rsize rd then
    Some (mkResult (-1) rd
            (msg "Cannot load a range passed the end of the sparse buffer size."),
          al)
  else
    let (ok, al1) := malloc_node al in
    if negb ok then
      Some (mkResult (-1) rd (msg "Could not allocate new range."), al1)
    else
      let (d, al2) := malloc bufsize al1 in
      match d with
      | None =>
          Some (mkResult (-1) rd
                  (msg "Could not allocate buffer for spares list entry."), al2)
      | Some d0 =>
          d1 <- memcpy d0 0 buf 0 bufsize ;;
          let r := mkRange p bufsize d1 in
          match ranges rd with
          | [] => Some (mkResult 0 (set_ranges rd [r]) None, al2)
          | _ :: _ =>
              '(s, al3) <- merge_scan r (ranges rd) al2 ;;
              match s with
              | ScanFail =>
                  Some (mkResult (-1) rd
                          (msg "Could not allocate merged buffer."), al3)
              | ScanMerged i rs =>
                  '(ok, rs', al4) <- merge_chain (length rs) rs i al3 ;;
                  if ok then Some (mkResult 0 (set_ranges rd rs') None, al4)
                  else
                    Some (mkResult (-1) (set_ranges rd rs')
                            (msg "Could not allocate merged buffer."), al4)
              | ScanNone =>
                  rs' <- match find (fun e => pos r <? pos e) (ranges rd) with
                         | None => range_insert_end (ranges rd) r
                         | Some e => range_insert_before (ranges rd) r (pos e)
                         end ;;
                  Some (mkResult 0 (set_ranges rd rs') None, al3)
              end
          end
      end.

(** ** sb_read *)

(** The loop of [sb_read] over the ranges; the state is [off], [pos], [rem]
    and the destination. *)
Fixpoint read_loop (es : list Range) (off opos rem : Z) (buf : list byte)
  : option (Z * Z * Z * list byte) :=
  match es with
  | [] => Some (off, opos, rem, buf)
  | e :: es' =>
      if pos e +! size e <? off then read_loop es' off opos rem buf
      else
        '(off1, opos1, rem1, buf1) <-
          (if pos e >? off then
             let zerosize := pos e -! off in
             let zerosize := if zerosize >? rem then rem else zerosize in
             b <- memset0 buf opos zerosize ;;
             Some (off +! zerosize, opos +! zerosize, rem -! zerosize, b)
           else Some (off, opos, rem, buf)) ;;
        if rem1 =? 0 then Some (off1, opos1, rem1, buf1)
        else
          let copysize := size e -! (off1 -! pos e) in
          let copysize := if copysize >? rem1 then rem1 else copysize in
          b <- memcpy buf1 opos1 (data e) (off1 -! pos e) copysize ;;
          if rem1 -! copysize =? 0
          then Some (off1 +! copysize, opos1 +! copysize, rem1 -! copysize, b)
          else read_loop es' (off1 +! copysize) (opos1 +! copysize)
                         (rem1 -! copysize) b
  end.

(** The returned value and the destination buffer. *)
Definition sb_read (rd : SBReader) (buf : list byte) (size : Z)
  : option (result (Z * list byte)) :=
  if size =? 0 then Some (mkResult (0, buf) rd (msg "Cannot read zero bytes."))
  else
    '(off, opos, rem, b) <- read_loop (ranges rd) (rpos rd) 0 size buf ;;
    '(off1, opos1, rem1, b1) <-
      (if (rem >? 0) && (off <? rsize rd) then
         let zerosize := rsize rd -! off in
         let zerosize := if zerosize >? rem then rem else zerosize in
         b' <- memset0 b opos zerosize ;;
         Some (off +! zerosize, opos +! zerosize, rem -! zerosize, b')
       else Some (off, opos, rem, b)) ;;
    if negb (rem1 =? 0)
    then Some (mkResult (0, b1) rd (msg "Cannot read past EOF."))
    else Some (mkResult (size, b1) rd None).

(** ** sb_seek *)

(** The returned value and what is stored in [*pos]. *)
Definition sb_seek (rd : SBReader) (offset whence : Z)
  : result (Z * option Z) :=
  let target :=
    if whence =? SB_SET then inr offset
    else if whence =? SB_CUR then inr (offset +! rpos rd)
    else if whence =? SB_END then
      if offset >? rsize rd
      then inl (msg "Cannot seek past beginning of file.")
      else inr (rsize rd -! offset)
    else inl (msg "Invalid whence.") in
  match target with
  | inl m => mkResult (-1, None) rd m
  | inr realoffset =>
      if realoffset >? rsize rd
      then mkResult (-1, None) rd (msg "Cannot seek past end of file.")
      else mkResult (0, Some realoffset) (set_rpos rd realoffset) None
  end.

(** ** sb_remove_range *)

(** The loop of [sb_remove_range]: node [i] is [e].  [fuel] bounds the
    number of turns. *)
Fixpoint remove_loop (fuel : nat) (rs : list Range) (i : nat)
  (start end_ : Z) (al : allocator)
  : option (Z * option String.string * list Range * allocator) :=
  match fuel with
  | O => None
  | S fuel' =>
    match nth_error rs i with
    | None => Some (0, None, rs, al)
    | Some e =>
      let rngstart := pos e in
      let rngend := pos e +! size e -! 1 in
      if rngstart >? end_ then Some (0, None, rs, al)
      else if rngend <? start then remove_loop fuel' rs (S i) start end_ al
      else if (rngstart >=? start) && (rngend <=? end_) then
        '(_, rs') <- range_remove rs (pos e) ;;
        remove_loop fuel' rs' i start end_ al
      else if (rngend >? end_) && (rngstart <? start) then
        let (ok, al1) := malloc_node al in
        if negb ok then
          Some (-1, msg "Could not allocate new range buffer.", rs, al1)
        else
          let pos0 := end_ +! 1 in
          let size0 := rngend +! 1 -! pos0 in
          let (d, al2) := malloc size0 al1 in
          match d with
          | None => Some (-1, msg "Could not allocate new range data.", rs, al2)
          | Some d0 =>
              d1 <- memcpy d0 0 (data e) (end_ +! 1 -! rngstart) size0 ;;
              '(j, rs1) <- range_insert_after rs (mkRange pos0 size0 d1) (pos e) ;;
              let ie := if (j <? i)%nat then S i else i in
              let newsize := start -! pos e in
              let (t, al3) := realloc (data e) newsize al2 in
              match t with
              | None =>
                  Some (-1, msg "Could not realloc split range data.",
                        list_set ie (mkRange (pos e) newsize (data e)) rs1, al3)
              | Some tmp =>
                  remove_loop fuel'
                    (list_set ie (mkRange (pos e) newsize tmp) rs1)
                    (S (S j)) start end_ al3
              end
          end
      else
        let left :=
          if rngstart <? start then
            let newsize := start -! pos e in
            let (t, al1) := realloc (data e) newsize al in
            match t with
            | None => inl (mkRange (pos e) newsize (data e), al1)
            | Some tmp => inr (mkRange (pos e) newsize tmp, al1)
            end
          else inr (e, al) in
        match left with
        | inl (e1, al1) =>
            Some (-1, msg "Could not realloc reduced range data.",
                  list_set i e1 rs, al1)
        | inr (e1, al1) =>
            if rngend >? end_ then
              let oldSize := size e1 in
              let newsize := size e1 -! (end_ +! 1 -! pos e1) in
              let newpos := end_ +! 1 in
              let (nd, al2) := malloc newsize al1 in
              match nd with
              | None =>
                  Some (1, msg "Could not allocate new range data.",
                        list_set i (mkRange newpos newsize (data e1)) rs, al2)
              | Some nd0 =>
                  d <- memcpy nd0 0 (data e1) (oldSize -! newsize) newsize ;;
                  remove_loop fuel'
                    (list_set i (mkRange newpos newsize d) rs)
                    (S i) start end_ al2
              end
            else remove_loop fuel' (list_set i e1 rs) (S i) start end_ al1
        end
    end
  end.

(** Turns granted to the loop.  A turn moves on by one node, or unlinks a
    node, or (split) adds a node and moves on by two: [S (length rs)]
    turns are enough when the start offsets are distinct. *)
Definition remove_fuel (rs : list Range) : nat :=
  (S (length rs) * S (length rs))%nat.

Definition sb_remove_range (rd : SBReader) (start end_ : Z) (al : allocator)
  : option (result Z * allocator) :=
  if (end_ >=? rsize rd) || (end_ <? start) then
    Some (mkResult (-1) rd (msg "Invalid range."), al)
  else
    '(r, m, rs, al') <-
      remove_loop (remove_fuel (ranges rd)) (ranges rd) 0 start end_ al ;;
    Some (mkResult r (set_ranges rd rs) m, al').

(** ** sb_resize *)

Definition sb_resize (rd : SBReader) (newsize : Z) (al : allocator)
  : option (result Z * allocator) :=
  if newsize =? 0 then
    Some (mkResult (-1) rd (msg "Cannot resize to zero size."), al)
  else if newsize <? rsize rd then
    '(r, al') <- sb_remove_range rd newsize (rsize rd -! 1) al ;;
    if ret r <? 0 then Some (r, al')
    else
      let rd1 := reader r in
      let rd2 := if rpos rd1 >? newsize then set_rpos rd1 newsize else rd1 in
      Some (mkResult 0 (set_rsize rd2 newsize) (error r), al')
  else Some (mkResult 0 (set_rsize rd newsize) None, al).

(** ** The logical content and the invariants of the data model *)

(** The loaded byte at the absolute offset [o], if any. *)
Fixpoint loaded (rs : list Range) (o : Z) : option byte :=
  match rs with
  | [] => None
  | r :: rs' =>
      if (pos r <=? o) && (o <? pos r + size r)
      then Some (zth (data r) (o - pos r))
      else loaded rs' o
  end.

(** What the buffer reads as at [o]: the loaded byte, zero elsewhere. *)
Definition byte_at (rs : list Range) (o : Z) : byte :=
  match loaded rs o with
  | Some b => b
  | None => zero
  end.

(** A well-formed range: a non-empty payload of exactly [size] bytes whose
    end is a [size_t]. *)
Definition range_ok (r : Range) : Prop :=
  0 <= pos r /\ 0 < size r /\ zlen (data r) = size r /\ pos r + size r < 2 ^ w.

(** Ranges in ascending order from [lo] on, with at least one unloaded byte
    between two of them. *)
Fixpoint gapped (lo : Z) (rs : list Range) : Prop :=
  match rs with
  | [] => True
  | r :: rs' => lo <= pos r /\ range_ok r /\ gapped (pos r + size r + 1) rs'
  end.

(** Every range ends at [hi] at the latest. *)
Definition within (hi : Z) (rs : list Range) : Prop :=
  Forall (fun r => pos r + size r <= hi) rs.

(** The invariants of the data model. *)
Definition sb_inv (rd : SBReader) : Prop :=
  0 <= rpos rd <= rsize rd /\ rsize rd < 2 ^ w /\
  gapped 0 (ranges rd) /\ within (rsize rd) (ranges rd).

(** What a removal of the inclusive interval [[start, end_]] does to one
    range, in the words of the contract. *)
Definition cut_range (start end_ : Z) (r : Range) : list Range :=
  let last := pos r + size r - 1 in
  let left := mkRange (pos r) (start - pos r)
                (firstn (Z.to_nat (start - pos r)) (data r)) in
  let right := mkRange (end_ + 1) (last - end_)
                 (skipn (Z.to_nat (end_ + 1 - pos r)) (data r)) in
  if (last <? start) || (end_ <? pos r) then [r]
  else if (start <=? pos r) && (last <=? end_) then []
  else if (pos r <? start) && (end_ <? last) then [left; right]
  else if pos r <? start then [left]
  else [right].

(** The overlap rule of the specification for a partial overlap: the
    merged range runs from the lower start to the higher end, the bytes
    below the higher start are those of the range with the lower start and
    all the bytes from the higher start on are those of the range with the
    higher start. *)
Definition higher_start_wins (a b m : Range) : Prop :=
  let lo := if pos a <=? pos b then a else b in
  let hi := if pos a <=? pos b then b else a in
  pos m = pos lo /\
  pos m + size m = Z.max (pos a + size a) (pos b + size b) /\
  forall o, pos m <= o < pos m + size m ->
    zth (data m) (o - pos m) =
      if o <? pos hi then zth (data lo) (o - pos lo)
      else zth (data hi) (o - pos hi).

(** What [merge] does for a partial overlap: the bytes of the first
    argument stay wherever it is loaded, the second argument gives the
    rest. *)
Definition first_argument_wins (a b m : Range) : Prop :=
  pos m = Z.min (pos a) (pos b) /\
  pos m + size m = Z.max (pos a + size a) (pos b + size b) /\
  zlen (data m) = size m /\
  forall o, pos m <= o < pos m + size m ->
    zth (data m) (o - pos m) =
      if (pos a <=? o) && (o <? pos a + size a)
      then zth (data a) (o - pos a)
      else zth (data b) (o - pos b).

(** The new range [r] is dropped by a load: a stored range contains it and
    is not contained in it. *)
Definition dropped (r : Range) (es : list Range) : bool :=
  existsb (fun e => contains e r && negb (contains r e)) es.



(** The offset that a read from [off] on reaches through the ranges: the
    end of the last range, if it lies after [off]. *)
Fixpoint reach (es : list Range) (off : Z) : Z :=
  match es with
  | [] => off
  | e :: es' => reach es' (Z.max off (pos e + size e))
  end.

(** [buf'] is [buf] with the [k] bytes from index [opos] on replaced by the
    content of the buffer from [off] on. *)
Definition filled (es : list Range) (off opos k : Z) (buf buf' : list byte)
  : Prop :=
  zlen buf' = zlen buf /\
  forall j, 0 <= j < zlen buf ->
    zth buf' j = if (opos <=? j) && (j <? opos + k)
                 then byte_at es (off + (j - opos))
                 else zth buf j.

(** A range that [sb_remove_range] passes over: it ends before [start]. *)
Definition ends_before (start : Z) (p : Range) : Prop :=
  0 <= pos p /\ 0 < size p /\ pos p + size p < 2 ^ w /\
  pos p + size p - 1 < start.

(** The scenario of a run of [sb_remove_range] that gets to the range [e]:
    a valid interval, and before [e] only ranges that end before the
    interval. *)
Definition reaches (rd : SBReader) (start end_ : Z) (mid : list Range)
  (e : Range) (rest : list Range) : Prop :=
  ranges rd = mid ++ e :: rest /\ Forall (ends_before start) mid /\
  0 <= start <= end_ /\ end_ < rsize rd /\ rsize rd < 2 ^ w /\
  0 <= pos e /\ 0 < size e /\ zlen (data e) = size e /\
  pos e + size e < 2 ^ w /\
  Forall (fun p => pos p <> pos e) mid.

(** ** Values of the examples *)

Definition fill (b : byte) (n : nat) : list byte := repeat b n.

(** The reader of [test.c]: [sb_new_reader(50)]. *)
Definition reader50 : SBReader := mkReader 0 50 [].

(** A stored range of ten bytes [1] at [5] and a new range of ten bytes
    [2] at [0]: they overlap on [[5, 10)] and the stored one starts
    higher. *)
Definition stored_5_15 : Range := mkRange 5 10 (fill Byte.x01 10).
Definition new_0_10 : Range := mkRange 0 10 (fill Byte.x02 10).
Definition merged_0_15 : Range :=
  mkRange 0 15 (fill Byte.x02 10 ++ fill Byte.x01 5).

(** The two ranges of the first part of [test.c]. *)
Definition reader_two_ranges : SBReader :=
  mkReader 0 50 [mkRange 0 10 (fill Byte.x01 10);
                 mkRange 30 10 (fill Byte.x02 10)].

(** A range loaded at [49] into a buffer of [50] bytes: it runs to [59]. *)
Definition range_49_59 : Range := mkRange 49 10 (fill Byte.x03 10).

(** A stored range [e] covers the new range [[p, p + n)] and is larger
    than it. *)
Definition covers_strictly (p n : Z) (e : Range) : Prop :=
  pos e <= p /\ p + n <= pos e + size e /\ size e <> n.

(** ** The allocator of the test program *)

(** [!memcmp(p, q, n)] on two areas of [n] bytes. *)
Fixpoint bytes_eqb (a b : list byte) : bool :=
  match a, b with
  | [], [] => true
  | x :: a', y :: b' => Byte.eqb x y && bytes_eqb a' b'
  | _, _ => false
  end.

(** The four bytes ["TEST"] that [test_alloc] writes in front of the area
    it hands out. *)
Definition marker : list byte := [Byte.x54; Byte.x45; Byte.x53; Byte.x54].

(** A block of the test allocator is the list of its bytes from [ptr] on;
    the pointer that the caller gets is [ptr + 4]. *)
Definition user_area (blk : list byte) : list byte := skipn 4 blk.

(** [!memcmp(ptr - 4, "TEST", 4)] *)
Definition marked (blk : list byte) : bool := bytes_eqb (firstn 4 blk) marker.

(** [test_alloc]: NULL, or the block with its marker written. *)
Definition test_alloc (size : Z) (al : allocator)
  : option (option (list byte) * allocator) :=
  let (p, al') := malloc (size +! 4) al in
  match p with
  | None => Some (None, al')
  | Some blk =>
      blk' <- memcpy blk 0 marker 0 4 ;;
      Some (Some blk', al')
  end.

(** [test_realloc]: the [assert] fails on a block without the marker. *)
Definition test_realloc (blk : list byte) (size : Z) (al : allocator)
  : option (option (list byte) * allocator) :=
  if marked blk then Some (realloc blk (size +! 4) al) else None.

Definition test_free (blk : list byte) : option unit :=
  if marked blk then Some tt else None.

(** * Proofs *)

Hypothesis w_pos : 0 < w.

(** ** Machine arithmetic *)

Lemma modulus_pos : 0 < 2 ^ w.
Proof. apply Z.pow_pos_nonneg; lia. Qed.

Lemma wrap_small (x : Z) : 0 <= x < 2 ^ w -> wrap x = x.
Proof. intros H. unfold wrap. apply Z.mod_small. exact H. Qed.

Lemma wrap_range (x : Z) : 0 <= wrap x < 2 ^ w.
Proof. unfold wrap. apply Z.mod_pos_bound. exact modulus_pos. Qed.

Lemma add_small (a b : Z) : 0 <= a + b < 2 ^ w -> a +! b = a + b.
Proof. apply wrap_small. Qed.

Lemma sub_small (a b : Z) : 0 <= a - b < 2 ^ w -> a -! b = a - b.
Proof. apply wrap_small. Qed.

(** Removes the reductions modulo [2^w] that the context shows to be the
    identity. *)
Ltac unwrap :=
  repeat match goal with
    | |- context [add ?a ?b] => rewrite (add_small a b) by lia
    | |- context [sub ?a ?b] => rewrite (sub_small a b) by lia
    end.

(** ** Buffers *)

Lemma zlen_nonneg (l : list byte) : 0 <= zlen l.
Proof. unfold zlen. lia. Qed.

Lemma zlen_app (l1 l2 : list byte) : zlen (l1 ++ l2) = zlen l1 + zlen l2.
Proof. unfold zlen. rewrite length_app. lia. Qed.

Lemma zlen_repeat (b : byte) (n : nat) : zlen (repeat b n) = Z.of_nat n.
Proof. unfold zlen. now rewrite repeat_length. Qed.

Lemma zlen_firstn (n : Z) (l : list byte) :
  0 <= n <= zlen l -> zlen (firstn (Z.to_nat n) l) = n.
Proof. unfold zlen. intros H. rewrite length_firstn. lia. Qed.

Lemma zlen_skipn (n : Z) (l : list byte) :
  0 <= n <= zlen l -> zlen (skipn (Z.to_nat n) l) = zlen l - n.
Proof. unfold zlen. intros H. rewrite length_skipn. lia. Qed.

Lemma zth_app1 (l1 l2 : list byte) (i : Z) :
  0 <= i < zlen l1 -> zth (l1 ++ l2) i = zth l1 i.
Proof. unfold zth, zlen. intros H. apply app_nth1. lia. Qed.

Lemma zth_app2 (l1 l2 : list byte) (i : Z) :
  zlen l1 <= i -> zth (l1 ++ l2) i = zth l2 (i - zlen l1).
Proof.
  unfold zth, zlen. intros H. rewrite app_nth2 by lia.
  f_equal. lia.
Qed.

Lemma zth_firstn (n i : Z) (l : list byte) :
  0 <= i < n -> zth (firstn (Z.to_nat n) l) i = zth l i.
Proof.
  unfold zth. intros H. rewrite nth_firstn.
  destruct (Nat.ltb_spec (Z.to_nat i) (Z.to_nat n)); [reflexivity | lia].
Qed.

Lemma zth_skipn (n i : Z) (l : list byte) :
  0 <= n -> 0 <= i -> zth (skipn (Z.to_nat n) l) i = zth l (n + i).
Proof.
  unfold zth. intros Hn Hi. rewrite nth_skipn. f_equal. lia.
Qed.

Lemma zth_repeat (b : byte) (n : nat) (i : Z) :
  0 <= i < Z.of_nat n -> zth (repeat b n) i = b.
Proof.
  unfold zth. intros H. apply nth_repeat_lt. lia.
Qed.

Lemma memcpy_some (dst src : list byte) (d s n : Z) :
  0 <= d -> 0 <= s -> 0 <= n -> d + n <= zlen dst -> s + n <= zlen src ->
  memcpy dst d src s n =
    Some (firstn (Z.to_nat d) dst
          ++ firstn (Z.to_nat n) (skipn (Z.to_nat s) src)
          ++ skipn (Z.to_nat (d + n)) dst).
Proof.
  intros. unfold memcpy.
  repeat match goal with
    | |- context [?a <=? ?b] =>
        destruct (Z.leb_spec a b); [| lia]
    end.
  reflexivity.
Qed.

(** The bytes of a buffer after a copy. *)
Lemma memcpy_spec (dst src : list byte) (d s n : Z) :
  0 <= d -> 0 <= s -> 0 <= n -> d + n <= zlen dst -> s + n <= zlen src ->
  exists r, memcpy dst d src s n = Some r /\ zlen r = zlen dst /\
    forall i, 0 <= i < zlen dst ->
      zth r i = if (d <=? i) && (i <? d + n) then zth src (s + (i - d))
                else zth dst i.
Proof.
  intros Hd Hs Hn Hdn Hsn. eexists. split; [apply memcpy_some; assumption |].
  assert (Hl1 : zlen (firstn (Z.to_nat d) dst) = d) by (apply zlen_firstn; lia).
  assert (Hl2 : zlen (firstn (Z.to_nat n) (skipn (Z.to_nat s) src)) = n).
  { apply zlen_firstn. rewrite zlen_skipn by (pose proof (zlen_nonneg src); lia). lia. }
  assert (Hl3 : zlen (skipn (Z.to_nat (d + n)) dst) = zlen dst - (d + n))
    by (apply zlen_skipn; lia).
  split.
  - rewrite !zlen_app. lia.
  - intros i Hi.
    destruct (Z.leb_spec d i); destruct (Z.ltb_spec i (d + n)); cbn [andb].
    + rewrite zth_app2 by lia. rewrite zth_app1 by lia.
      rewrite zth_firstn by lia. rewrite zth_skipn by lia. f_equal. lia.
    + rewrite zth_app2 by lia. rewrite zth_app2 by lia.
      rewrite zth_skipn by lia. f_equal. lia.
    + rewrite zth_app1 by lia. apply zth_firstn. lia.
    + lia.
Qed.

(** A copy that fills a fresh buffer gives the slice copied. *)
Lemma memcpy_fresh (b : byte) (src : list byte) (s n : Z) :
  0 <= s -> 0 <= n -> s + n <= zlen src ->
  memcpy (repeat b (Z.to_nat n)) 0 src s n =
    Some (firstn (Z.to_nat n) (skipn (Z.to_nat s) src)).
Proof.
  intros Hs Hn Hsn.
  rewrite memcpy_some; try lia.
  - change (Z.to_nat 0) with O. cbn [firstn app].
    rewrite (@skipn_all2 _ _ (repeat b (Z.to_nat n)))
      by (rewrite repeat_length; lia).
    now rewrite app_nil_r.
  - rewrite zlen_repeat. lia.
Qed.

Lemma memset0_spec (dst : list byte) (d n : Z) :
  0 <= d -> 0 <= n -> d + n <= zlen dst ->
  exists r, memset0 dst d n = Some r /\ zlen r = zlen dst /\
    forall i, 0 <= i < zlen dst ->
      zth r i = if (d <=? i) && (i <? d + n) then zero else zth dst i.
Proof.
  intros Hd Hn Hdn. unfold memset0.
  destruct (Z.leb_spec 0 d); [| lia]. destruct (Z.leb_spec 0 n); [| lia].
  destruct (Z.leb_spec (d + n) (zlen dst)); [| lia]. cbn [andb].
  eexists. split; [reflexivity |].
  assert (Hl1 : zlen (firstn (Z.to_nat d) dst) = d) by (apply zlen_firstn; lia).
  assert (Hl3 : zlen (skipn (Z.to_nat (d + n)) dst) = zlen dst - (d + n))
    by (apply zlen_skipn; lia).
  split.
  - rewrite !zlen_app, zlen_repeat. lia.
  - intros i Hi.
    destruct (Z.leb_spec d i); destruct (Z.ltb_spec i (d + n)); cbn [andb].
    + rewrite zth_app2 by lia. rewrite zth_app1 by (rewrite zlen_repeat; lia).
      apply zth_repeat. lia.
    + rewrite zth_app2 by lia. rewrite zth_app2 by (rewrite zlen_repeat; lia).
      rewrite zth_skipn by (rewrite ?zlen_repeat; lia). f_equal.
      rewrite zlen_repeat. lia.
    + rewrite zth_app1 by lia. apply zth_firstn. lia.
    + lia.
Qed.

(** ** The allocator *)

Lemma never_fails_next (al : allocator) :
  never_fails al ->
  exists al', alloc_next al = (true, al') /\ never_fails al'.
Proof.
  intros H. destruct al as [| b al'].
  - exists []. split; [reflexivity | constructor].
  - inversion H; subst. exists al'. split; [reflexivity | assumption].
Qed.

(** ** Comparisons *)

(** Splits the goal along the comparisons that occur in it. *)
Ltac zcases :=
  repeat match goal with
    | |- context [?a <=? ?b] => destruct (Z.leb_spec a b)
    | |- context [?a <? ?b] => destruct (Z.ltb_spec a b)
    | |- context [?a >=? ?b] => rewrite (Z.geb_leb a b)
    | |- context [?a >? ?b] => rewrite (Z.gtb_ltb a b)
    | |- context [?a =? ?b] => destruct (Z.eqb_spec a b)
    end; cbn [andb orb negb].

(** ** merge *)

Lemma intersects_iff (a b : Range) :
  range_ok a -> range_ok b ->
  intersects a b = true <->
  pos b <= pos a + size a /\ pos a <= pos b + size b.
Proof.
  intros (Ha0 & Ha1 & Ha2 & Ha3) (Hb0 & Hb1 & Hb2 & Hb3).
  unfold intersects. unwrap. zcases; split; intros ?; try discriminate; lia.
Qed.

Lemma contains_iff (a b : Range) :
  range_ok a -> range_ok b ->
  contains a b = true <->
  pos a <= pos b /\ pos b + size b <= pos a + size a.
Proof.
  intros (Ha0 & Ha1 & Ha2 & Ha3) (Hb0 & Hb1 & Hb2 & Hb3).
  unfold contains. unwrap. zcases; split; intros ?; try discriminate; lia.
Qed.

Lemma contains_false_iff (a b : Range) :
  range_ok a -> range_ok b ->
  contains a b = false <->
  pos b < pos a \/ pos a + size a < pos b + size b.
Proof.
  intros Ha Hb. pose proof (contains_iff a b Ha Hb) as H.
  destruct (contains a b); split; intros H0;
    try discriminate; try reflexivity; lia.
Qed.

(** A full copy of a payload into a fresh buffer. *)
Lemma memcpy_whole (b : byte) (l : list byte) (n : Z) :
  zlen l = n ->
  memcpy (repeat b (Z.to_nat n)) 0 l 0 n = Some l.
Proof.
  intros H. pose proof (zlen_nonneg l).
  rewrite memcpy_fresh by lia.
  change (Z.to_nat 0) with O. cbn [skipn].
  rewrite firstn_all2; [reflexivity |]. unfold zlen in H. lia.
Qed.

Lemma merge_copy_first (a b : Range) (al al' : allocator) :
  range_ok a -> range_ok b ->
  intersects a b = true -> contains a b = true ->
  alloc_next al = (true, al') ->
  merge a b al = Some (Merged a, al').
Proof.
  intros Ha Hb Hi Hc Hal. unfold merge, malloc.
  rewrite Hi, Hc, Hal. cbn [negb].
  destruct Ha as (_ & _ & Hlen & _).
  rewrite memcpy_whole by assumption. cbn [bind].
  destruct a; reflexivity.
Qed.

Lemma merge_copy_second (a b : Range) (al al' : allocator) :
  range_ok a -> range_ok b ->
  intersects a b = true -> contains a b = false -> contains b a = true ->
  alloc_next al = (true, al') ->
  merge a b al = Some (Merged b, al').
Proof.
  intros Ha Hb Hi Hc Hc' Hal. unfold merge, malloc.
  rewrite Hi, Hc, Hc', Hal. cbn [negb].
  destruct Hb as (_ & _ & Hlen & _).
  rewrite memcpy_whole by assumption. cbn [bind].
  destruct b; reflexivity.
Qed.

Lemma merge_partial (a b : Range) (al al' : allocator) :
  range_ok a -> range_ok b ->
  intersects a b = true -> contains a b = false -> contains b a = false ->
  alloc_next al = (true, al') ->
  exists m, merge a b al = Some (Merged m, al') /\ first_argument_wins a b m.
Proof.
  intros Ha Hb Hi Hc Hc' Hal.
  apply (intersects_iff a b Ha Hb) in Hi.
  pose proof Hc as Hcb. pose proof Hc' as Hcb'.
  apply (contains_false_iff a b Ha Hb) in Hc.
  apply (contains_false_iff b a Hb Ha) in Hc'.
  assert (Hi' : intersects a b = true) by (apply intersects_iff; assumption).
  destruct Ha as (Ha0 & Ha1 & Ha2 & Ha3), Hb as (Hb0 & Hb1 & Hb2 & Hb3).
  unfold merge, malloc. rewrite Hi', Hcb, Hcb', Hal. cbn [negb].
  destruct (Z.leb_spec (pos a) (pos b)) as [Hab | Hab].
  - (* a starts first: all of a, then the end of b *)
    unwrap.
    set (n := pos b + size b - pos a).
    destruct (memcpy_spec (repeat junk (Z.to_nat n)) (data a) 0 0 (size a))
      as (b1 & E1 & L1 & S1); rewrite ?zlen_repeat; try (subst n; lia).
    rewrite E1. cbn [bind]. rewrite zlen_repeat in L1, S1.
    destruct (memcpy_spec b1 (data b) (size a) (pos a + size a - pos b)
                (size b - (pos a + size a - pos b)))
      as (b2 & E2 & L2 & S2); try (subst n; lia).
    rewrite E2. cbn [bind]. eexists. split; [reflexivity |].
    unfold first_argument_wins. cbn [pos size data].
    repeat split; try (subst n; lia).
    intros o Ho. rewrite S2 by (subst n; lia).
    zcases; try (subst n; lia).
    + f_equal. lia.
    + rewrite S1 by (subst n; lia). zcases; try (subst n; lia).
      f_equal. lia.
  - (* b starts first: the start of b, then all of a *)
    unwrap.
    set (n := pos a + size a - pos b).
    destruct (memcpy_spec (repeat junk (Z.to_nat n)) (data b) 0 0 (pos a - pos b))
      as (b1 & E1 & L1 & S1); rewrite ?zlen_repeat; try (subst n; lia).
    rewrite E1. cbn [bind]. rewrite zlen_repeat in L1, S1.
    destruct (memcpy_spec b1 (data a) (pos a - pos b) 0 (size a))
      as (b2 & E2 & L2 & S2); try (subst n; lia).
    rewrite E2. cbn [bind]. eexists. split; [reflexivity |].
    unfold first_argument_wins. cbn [pos size data].
    repeat split; try (subst n; lia).
    intros o Ho. rewrite S2 by (subst n; lia).
    zcases; try (subst n; lia).
    + f_equal. lia.
    + rewrite S1 by (subst n; lia). zcases; try (subst n; lia).
      f_equal. lia.
Qed.

(** ** The logical content *)

Lemma loaded_below (es : list Range) (lo o : Z) :
  gapped lo es -> o < lo -> loaded es o = None.
Proof.
  revert lo. induction es as [| e es IH]; intros lo H Ho; [reflexivity |].
  destruct H as (Hlo & (He0 & He1 & He2 & He3) & Hg). cbn [loaded].
  zcases; try lia. apply (IH _ Hg). lia.
Qed.

Lemma loaded_head (e : Range) (es : list Range) (o : Z) :
  pos e <= o < pos e + size e ->
  loaded (e :: es) o = Some (zth (data e) (o - pos e)).
Proof. intros H. cbn [loaded]. zcases; try lia. reflexivity. Qed.

Lemma loaded_tail (e : Range) (es : list Range) (o : Z) :
  o < pos e \/ pos e + size e <= o ->
  loaded (e :: es) o = loaded es o.
Proof. intros H. cbn [loaded]. zcases; try lia; reflexivity. Qed.

Lemma loaded_app (l1 l2 : list Range) (o : Z) :
  loaded (l1 ++ l2) o =
    match loaded l1 o with
    | Some b => Some b
    | None => loaded l2 o
    end.
Proof.
  induction l1 as [| r l1 IH]; [reflexivity |].
  cbn [app loaded]. destruct ((pos r <=? o) && (o <? pos r + size r));
    [reflexivity | exact IH].
Qed.

Lemma reach_ge (es : list Range) (off : Z) : off <= reach es off.
Proof.
  revert off. induction es as [| e es IH]; intros off; cbn [reach]; [lia |].
  specialize (IH (Z.max off (pos e + size e))). lia.
Qed.

Lemma reach_within (es : list Range) (off hi : Z) :
  within hi es -> off <= hi -> reach es off <= hi.
Proof.
  revert off. induction es as [| e es IH]; intros off H Ho; cbn [reach]; [lia |].
  inversion H; subst. apply IH; [assumption | lia].
Qed.

(** Beyond the reach of a read nothing is loaded. *)
Lemma loaded_beyond (es : list Range) (lo off o : Z) :
  gapped lo es -> reach es off <= o -> loaded es o = None.
Proof.
  revert lo off. induction es as [| e es IH]; intros lo off H Ho; [reflexivity |].
  destruct H as (Hlo & (He0 & He1 & He2 & He3) & Hg). cbn [reach] in Ho.
  pose proof (reach_ge es (Z.max off (pos e + size e))).
  rewrite loaded_tail by lia. apply (IH _ _ Hg Ho).
Qed.

(** ** sb_read *)

Lemma filled_zero (es : list Range) (off opos : Z) (buf : list byte) :
  filled es off opos 0 buf buf.
Proof.
  split; [reflexivity |]. intros j Hj. zcases; try lia; reflexivity.
Qed.

Lemma filled_trans (es : list Range) (off opos k1 k2 : Z)
  (buf buf1 buf2 : list byte) :
  0 <= k1 -> 0 <= k2 ->
  filled es off opos k1 buf buf1 ->
  filled es (off + k1) (opos + k1) k2 buf1 buf2 ->
  filled es off opos (k1 + k2) buf buf2.
Proof.
  intros Hk1 Hk2 (L1 & S1) (L2 & S2). split; [lia |].
  intros j Hj. rewrite S2 by lia. rewrite S1 by lia.
  zcases; try lia; try reflexivity. f_equal. lia.
Qed.

(** Only the content of the window matters. *)
Lemma filled_ext (es es' : list Range) (off opos k : Z) (buf buf' : list byte) :
  (forall o, off <= o < off + k -> byte_at es o = byte_at es' o) ->
  filled es off opos k buf buf' -> filled es' off opos k buf buf'.
Proof.
  intros Hext (L & S). split; [exact L |].
  intros j Hj. rewrite S by lia. zcases; try reflexivity. apply Hext. lia.
Qed.

Lemma quad_eq (a a' b b' c c' : Z) (d : list byte) :
  a = a' -> b = b' -> c = c' -> Some (a, b, c, d) = Some (a', b', c', d).
Proof. intros -> -> ->. reflexivity. Qed.

(** The loop of [sb_read] copies the content of the buffer from [off] on,
    until it has given [rem] bytes or has gone through the ranges. *)
Lemma read_loop_spec (es : list Range) :
  forall lo off opos rem buf,
    gapped lo es -> 0 <= off < 2 ^ w -> 0 <= opos -> 0 < rem ->
    opos + rem <= zlen buf -> opos + rem < 2 ^ w ->
    exists buf',
      read_loop es off opos rem buf =
        Some (off + Z.min rem (reach es off - off),
              opos + Z.min rem (reach es off - off),
              rem - Z.min rem (reach es off - off), buf') /\
      filled es off opos (Z.min rem (reach es off - off)) buf buf'.
Proof.
  induction es as [| e es IH];
    intros lo off opos rem buf Hg Hoff Hopos Hrem Hlen Hmax.
  - cbn [read_loop reach]. exists buf.
    replace (Z.min rem (off - off)) with 0 by lia. split.
    + apply quad_eq; lia.
    + apply filled_zero.
  - destruct Hg as (Hlo & (He0 & He1 & He2 & He3) & Hg).
    cbn [read_loop reach].
    rewrite (add_small (pos e) (size e)) by lia.
    destruct (Z.ltb_spec (pos e + size e) off) as [Hskip | Hskip].
    + replace (Z.max off (pos e + size e)) with off by lia.
      destruct (IH (pos e + size e + 1) off opos rem buf)
        as (buf' & E & F); try assumption; try lia.
      exists buf'. split; [exact E |].
      apply filled_ext with (es := es); [| exact F].
      intros o Ho. unfold byte_at. rewrite loaded_tail by lia. reflexivity.
    + replace (Z.max off (pos e + size e)) with (pos e + size e) by lia.
      pose proof (reach_ge es (pos e + size e)) as Hreach.
      set (R := reach es (pos e + size e)) in *.
      match goal with
      | |- exists b, bind ?M ?F = _ /\ _ => set (fill := M); set (cont := F)
      end.
      assert (HF : forall z buf1,
                 0 <= z <= rem -> z <= pos e + size e - off ->
                 filled (e :: es) off opos z buf buf1 ->
                 z = rem \/ pos e <= off + z ->
                 exists buf',
                   cont (off + z, opos + z, rem - z, buf1) =
                     Some (off + Z.min rem (R - off), opos + Z.min rem (R - off),
                           rem - Z.min rem (R - off), buf') /\
                   filled (e :: es) off opos (Z.min rem (R - off)) buf buf').
      { intros z buf1 Hz Hz' F1 Hcase. subst cont. cbv beta iota.
        destruct (Z.eqb_spec (rem - z) 0) as [Hr | Hr].
        - exists buf1. replace (Z.min rem (R - off)) with z by lia.
          split; [reflexivity | exact F1].
        - assert (Hin : pos e <= off + z) by lia.
          rewrite (sub_small (off + z) (pos e)) by lia.
          rewrite (sub_small (size e) (off + z - pos e)) by lia.
          set (c := if size e - (off + z - pos e) >? rem - z then rem - z
                    else size e - (off + z - pos e)).
          assert (Hc : c = Z.min (rem - z) (pos e + size e - (off + z))).
          { subst c. rewrite Z.gtb_ltb.
            destruct (Z.ltb_spec (rem - z) (size e - (off + z - pos e))); lia. }
          clearbody c.
          destruct F1 as (L1 & S1).
          destruct (memcpy_spec buf1 (data e) (opos + z) (off + z - pos e) c)
            as (buf2 & E2 & L2 & S2); try lia.
          rewrite E2. cbn [bind].
          assert (F2 : filled (e :: es) off opos (z + c) buf buf2).
          { apply filled_trans with (buf1 := buf1); try lia; [split; assumption |].
            split; [exact L2 |]. intros j Hj. rewrite S2 by lia.
            zcases; try lia; try reflexivity.
            unfold byte_at. rewrite loaded_head by lia. f_equal. lia. }
          rewrite (sub_small (rem - z) c) by lia.
          rewrite (add_small (off + z) c) by lia.
          rewrite (add_small (opos + z) c) by lia.
          destruct (Z.eqb_spec (rem - z - c) 0) as [Hr2 | Hr2].
          + exists buf2. replace (Z.min rem (R - off)) with (z + c) by lia.
            split; [apply quad_eq; lia | exact F2].
          + assert (Hend : off + z + c = pos e + size e) by lia.
            destruct (IH (pos e + size e + 1) (off + z + c) (opos + z + c)
                        (rem - z - c) buf2)
              as (buf3 & E3 & F3); try assumption; try lia.
            rewrite E3. exists buf3.
            rewrite Hend in *. fold R in E3, F3 |- *.
            split; [apply quad_eq; lia |].
            replace (Z.min rem (R - off))
              with ((z + c) + Z.min (rem - z - c) (R - (pos e + size e))) by lia.
            apply filled_trans with (buf1 := buf2); try lia; [exact F2 |].
            replace (off + (z + c)) with (pos e + size e) by lia.
            replace (opos + (z + c)) with (opos + z + c) by lia.
            apply filled_ext with (es := es); [| exact F3].
            intros o Ho. unfold byte_at. rewrite loaded_tail by lia.
            reflexivity. }
      subst fill.
      rewrite (Z.gtb_ltb (pos e) off).
      destruct (Z.ltb_spec off (pos e)) as [Hgap | Hgap].
      * rewrite (sub_small (pos e) off) by lia.
        set (z := if pos e - off >? rem then rem else pos e - off).
        assert (Hz : z = Z.min rem (pos e - off)).
        { subst z. rewrite Z.gtb_ltb.
          destruct (Z.ltb_spec rem (pos e - off)); lia. }
        clearbody z.
        destruct (memset0_spec buf opos z) as (buf1 & E1 & L1 & S1); try lia.
        rewrite E1. cbn [bind].
        rewrite (add_small off z) by lia.
        rewrite (add_small opos z) by lia.
        rewrite (sub_small rem z) by lia.
        apply HF; try lia.
        split; [exact L1 |]. intros j Hj. rewrite S1 by lia.
        zcases; try reflexivity.
        unfold byte_at. rewrite loaded_tail by lia.
        rewrite (loaded_below es (pos e + size e + 1)) by (assumption || lia).
        reflexivity.
      * cbn [bind]. specialize (HF 0 buf).
        rewrite !Z.add_0_r, Z.sub_0_r in HF.
        apply HF; try lia. apply filled_zero.
Qed.

(** [sb_read] on a reader whose ranges are in order: the read gives the
    content from the cursor on, as far as the size or the last range go. *)
Lemma sb_read_general (rd : SBReader) (buf : list byte) (n : Z) :
  0 <= rpos rd <= rsize rd -> rsize rd < 2 ^ w -> gapped 0 (ranges rd) ->
  0 < n < 2 ^ w -> n <= zlen buf ->
  exists b,
    (rpos rd + n <= Z.max (rsize rd) (reach (ranges rd) (rpos rd)) ->
     sb_read rd buf n = Some (mkResult (n, b) rd None) /\
     forall i, 0 <= i < n -> zth b i = byte_at (ranges rd) (rpos rd + i)) /\
    (Z.max (rsize rd) (reach (ranges rd) (rpos rd)) < rpos rd + n ->
     sb_read rd buf n = Some (mkResult (0, b) rd (msg "Cannot read past EOF."))).
Proof.
  intros Hpos Hsize Hg Hn Hbuf. unfold sb_read.
  destruct (Z.eqb_spec n 0) as [| _]; [lia |].
  destruct (read_loop_spec (ranges rd) 0 (rpos rd) 0 n buf)
    as (b1 & E1 & F1); try assumption; try lia.
  rewrite E1. cbn [bind].
  pose proof (reach_ge (ranges rd) (rpos rd)) as Hreach.
  set (R := reach (ranges rd) (rpos rd)) in *.
  set (k := Z.min n (R - rpos rd)) in *.
  rewrite (Z.gtb_ltb (n - k) 0).
  destruct (Z.ltb_spec 0 (n - k)) as [Hrem | Hrem];
    [destruct (Z.ltb_spec (rpos rd + k) (rsize rd)) as [Hoff | Hoff] |];
    cbn [andb].
  - (* the ranges are exhausted before the size: zeros up to the size *)
    rewrite (sub_small (rsize rd) (rpos rd + k)) by lia.
    set (z := if rsize rd - (rpos rd + k) >? n - k then n - k
              else rsize rd - (rpos rd + k)).
    assert (Hz : z = Z.min (n - k) (rsize rd - (rpos rd + k))).
    { subst z. rewrite Z.gtb_ltb.
      destruct (Z.ltb_spec (n - k) (rsize rd - (rpos rd + k))); lia. }
    clearbody z.
    destruct F1 as (L1 & S1).
    destruct (memset0_spec b1 (0 + k) z) as (b2 & E2 & L2 & S2); try lia.
    rewrite E2. cbn [bind].
    rewrite (sub_small (n - k) z) by lia.
    exists b2. split; intros Hle.
    + destruct (Z.eqb_spec (n - k - z) 0) as [_ |]; [| lia]. cbn [negb].
      split; [reflexivity |].
      intros i Hi. rewrite S2 by lia. zcases; try lia.
      * unfold byte_at.
        rewrite (loaded_beyond (ranges rd) 0 (rpos rd)) by (assumption || lia).
        reflexivity.
      * rewrite S1 by lia. zcases; try lia. f_equal. lia.
    + destruct (Z.eqb_spec (n - k - z) 0) as [| _]; [lia |]. reflexivity.
  - (* the ranges are exhausted at or after the size *)
    cbn [bind]. exists b1. split; intros Hle; [lia |].
    destruct (Z.eqb_spec (n - k) 0) as [| _]; [lia |]. reflexivity.
  - (* the ranges gave all the bytes *)
    cbn [bind]. exists b1. split; intros Hle; [| lia].
    destruct (Z.eqb_spec (n - k) 0) as [_ |]; [| lia]. cbn [negb].
    split; [reflexivity |].
    destruct F1 as (L1 & S1).
    intros i Hi. rewrite S1 by lia. zcases; try lia. f_equal. lia.
Qed.

Lemma byte_at_single (r : Range) (o : Z) :
  byte_at [r] o =
    if (pos r <=? o) && (o <? pos r + size r) then zth (data r) (o - pos r)
    else zero.
Proof.
  unfold byte_at. cbn [loaded].
  destruct ((pos r <=? o) && (o <? pos r + size r)); reflexivity.
Qed.

(** ** Nodes addressed by index *)

Lemma nth_error_mid (pre suf : list Range) (e : Range) :
  nth_error (pre ++ e :: suf) (length pre) = Some e.
Proof.
  rewrite nth_error_app2 by lia. now rewrite Nat.sub_diag.
Qed.

Lemma nth_error_end (pre : list Range) :
  nth_error (pre ++ []) (length pre) = None.
Proof.
  apply nth_error_None. rewrite app_nil_r. lia.
Qed.

Lemma find_pos_mid (pre suf : list Range) (e : Range) :
  Forall (fun p => pos p <> pos e) pre ->
  find_pos (pre ++ e :: suf) (pos e) = Some (length pre).
Proof.
  induction pre as [| p pre IH]; intros H; cbn [app find_pos length].
  - now rewrite Z.eqb_refl.
  - inversion H; subst.
    destruct (Z.eqb_spec (pos p) (pos e)); [contradiction |].
    now rewrite IH.
Qed.

Lemma list_del_mid (pre suf : list Range) (e : Range) :
  list_del (length pre) (pre ++ e :: suf) = pre ++ suf.
Proof.
  unfold list_del.
  rewrite firstn_app, firstn_all, Nat.sub_diag. cbn [firstn].
  rewrite skipn_app, skipn_all2 by lia.
  replace (S (length pre) - length pre)%nat with 1%nat by lia.
  cbn [skipn app]. now rewrite app_nil_r.
Qed.

Lemma list_set_mid (pre suf : list Range) (e x : Range) :
  list_set (length pre) x (pre ++ e :: suf) = pre ++ x :: suf.
Proof.
  unfold list_set.
  rewrite firstn_app, firstn_all, Nat.sub_diag. cbn [firstn].
  rewrite skipn_app, skipn_all2 by lia.
  replace (S (length pre) - length pre)%nat with 1%nat by lia.
  cbn [skipn app]. now rewrite app_nil_r.
Qed.

Lemma list_ins_mid (pre suf : list Range) (x : Range) :
  list_ins (length pre) x (pre ++ suf) = pre ++ x :: suf.
Proof.
  unfold list_ins.
  rewrite firstn_app, firstn_all, Nat.sub_diag. cbn [firstn].
  rewrite skipn_app, skipn_all, Nat.sub_diag. cbn [skipn app].
  now rewrite app_nil_r.
Qed.

Lemma list_ins_after (pre suf : list Range) (e x : Range) :
  list_ins (S (length pre)) x (pre ++ e :: suf) = pre ++ e :: x :: suf.
Proof.
  replace (pre ++ e :: suf) with ((pre ++ [e]) ++ suf)
    by (now rewrite <- app_assoc).
  replace (S (length pre)) with (length (pre ++ [e]))
    by (rewrite length_app; cbn; lia).
  rewrite list_ins_mid. now rewrite <- app_assoc.
Qed.

Lemma app_cons_assoc (pre suf : list Range) (e : Range) :
  pre ++ e :: suf = (pre ++ [e]) ++ suf.
Proof. now rewrite <- app_assoc. Qed.

Lemma length_snoc (pre : list Range) (e : Range) :
  length (pre ++ [e]) = S (length pre).
Proof. rewrite length_app. cbn. lia. Qed.

Lemma Forall_below_neq (pre : list Range) (lo x : Z) :
  Forall (fun p => pos p < lo) pre -> lo <= x ->
  Forall (fun p => pos p <> x) pre.
Proof.
  intros H Hx. eapply Forall_impl; [| exact H]. cbn. intros. lia.
Qed.

Lemma Forall_below_mono (pre : list Range) (lo lo' : Z) :
  Forall (fun p => pos p < lo) pre -> lo <= lo' ->
  Forall (fun p => pos p < lo') pre.
Proof.
  intros H Hx. eapply Forall_impl; [| exact H]. cbn. intros. lia.
Qed.

Lemma Forall_snoc (P : Range -> Prop) (pre : list Range) (e : Range) :
  Forall P pre -> P e -> Forall P (pre ++ [e]).
Proof.
  intros H He. apply Forall_app. split; [exact H | now constructor].
Qed.

(** ** sb_remove_range *)

Lemma gapped_mono (es : list Range) (lo lo' : Z) :
  gapped lo es -> lo' <= lo -> gapped lo' es.
Proof.
  destruct es as [| e es]; [trivial |]. cbn [gapped].
  intros (H1 & H2 & H3) Hlo. split; [lia | split; assumption].
Qed.

(** Ranges that start after the interval are left alone. *)
Lemma cut_after (start end_ : Z) (es : list Range) (lo : Z) :
  gapped lo es -> end_ < lo -> flat_map (cut_range start end_) es = es.
Proof.
  revert lo. induction es as [| e es IH]; intros lo H Hlo; [reflexivity |].
  destruct H as (H1 & (He0 & He1 & He2 & He3) & H3). cbn [flat_map].
  rewrite (IH _ H3) by lia.
  unfold cut_range. zcases; try lia; reflexivity.
Qed.

Lemma realloc_shrink (l : list byte) (n : Z) (al al' : allocator) :
  n <= zlen l -> alloc_next al = (true, al') ->
  realloc l n al = (Some (firstn (Z.to_nat n) l), al').
Proof.
  intros Hn Hal. unfold realloc. rewrite Hal.
  replace (Z.to_nat n - length l)%nat with O by (unfold zlen in Hn; lia).
  cbn [repeat]. now rewrite app_nil_r.
Qed.

(** The tail of a payload copied into a fresh buffer. *)
Lemma memcpy_tail (b : byte) (l : list byte) (s n : Z) :
  0 <= s -> 0 <= n -> s + n = zlen l ->
  memcpy (repeat b (Z.to_nat n)) 0 l s n = Some (skipn (Z.to_nat s) l).
Proof.
  intros Hs Hn Hl. rewrite memcpy_fresh by lia.
  rewrite firstn_all2; [reflexivity |].
  rewrite length_skipn. unfold zlen in Hl. lia.
Qed.

Lemma range_eq (p p' s s' : Z) (d d' : list byte) :
  p = p' -> s = s' -> d = d' -> mkRange p s d = mkRange p' s' d'.
Proof. intros -> -> ->. reflexivity. Qed.

(** What [cut_range] gives in each of the cases of the loop. *)
Lemma cut_range_cases (start end_ : Z) (e : Range) :
  start <= end_ -> 0 < size e ->
  let last := pos e + size e - 1 in
  (last < start \/ end_ < pos e -> cut_range start end_ e = [e]) /\
  (start <= pos e -> last <= end_ -> start <= last -> pos e <= end_ ->
   cut_range start end_ e = []) /\
  (pos e < start -> end_ < last ->
   cut_range start end_ e =
     [mkRange (pos e) (start - pos e)
        (firstn (Z.to_nat (start - pos e)) (data e));
      mkRange (end_ + 1) (pos e + size e - 1 + 1 - (end_ + 1))
        (skipn (Z.to_nat (end_ + 1 - pos e)) (data e))]) /\
  (pos e < start -> start <= last -> last <= end_ ->
   cut_range start end_ e =
     [mkRange (pos e) (start - pos e)
        (firstn (Z.to_nat (start - pos e)) (data e))]) /\
  (start <= pos e -> pos e <= end_ -> end_ < last ->
   cut_range start end_ e =
     [mkRange (end_ + 1) (size e - (end_ + 1 - pos e))
        (skipn (Z.to_nat (end_ + 1 - pos e)) (data e))]).
Proof.
  intros Hse Hsize. cbv zeta. unfold cut_range.
  repeat split; intros; zcases; try lia; try reflexivity.
  - f_equal. f_equal. apply range_eq; [reflexivity | lia | reflexivity].
  - f_equal. apply range_eq; [reflexivity | lia | reflexivity].
Qed.

(** With an allocator that does not fail, the loop of [sb_remove_range]
    cuts the interval out of every range from node [length pre] on. *)
Lemma remove_loop_spec (start end_ : Z) (suf : list Range) :
  0 <= start <= end_ -> end_ + 1 < 2 ^ w ->
  forall pre lo fuel al,
    never_fails al -> gapped lo suf -> 0 <= lo ->
    Forall (fun p => pos p < lo) pre ->
    (length suf < fuel)%nat ->
    exists al',
      remove_loop fuel (pre ++ suf) (length pre) start end_ al =
        Some (0, None, pre ++ flat_map (cut_range start end_) suf, al') /\
      never_fails al'.
Proof.
  intros Hse Hend.
  induction suf as [| e rest IH]; intros pre lo fuel al Hal Hg Hlo0 Hpre Hfuel.
  - destruct fuel as [| fuel]; [cbn in Hfuel; lia |].
    cbn [remove_loop flat_map]. rewrite nth_error_end.
    exists al. split; [reflexivity | assumption].
  - destruct fuel as [| fuel]; [cbn in Hfuel; lia |].
    cbn [length] in Hfuel.
    pose proof Hg as Hg0.
    destruct Hg as (Hlo & (He0 & He1 & He2 & He3) & Hg).
    assert (Hpre' : forall x, pos x < pos e + size e + 1 ->
              Forall (fun p => pos p < pos e + size e + 1) (pre ++ [x])).
    { intros x Hx. apply Forall_snoc; [| exact Hx].
      apply Forall_below_mono with (lo := lo); [assumption | lia]. }
    destruct (cut_range_cases start end_ e (proj2 Hse) He1)
      as (Cout & Cin & Csplit & Cleft & Cright).
    cbn [remove_loop]. rewrite nth_error_mid. cbv zeta.
    rewrite (add_small (pos e) (size e)) by lia.
    rewrite (sub_small (pos e + size e) 1) by lia.
    rewrite (Z.gtb_ltb (pos e) end_).
    destruct (Z.ltb_spec end_ (pos e)) as [Hafter | Hafter].
    { (* the range starts after the interval *)
      exists al. split; [| assumption].
      assert (Hg1 : gapped (pos e) (e :: rest)).
      { split; [lia | exact (proj2 Hg0)]. }
      rewrite (cut_after start end_ (e :: rest) (pos e)) by (assumption || lia).
      reflexivity. }
    cbn [flat_map].
    destruct (Z.ltb_spec (pos e + size e - 1) start) as [Hbefore | Hbefore].
    { (* the range ends before the interval *)
      rewrite Cout by lia. cbn [app].
      rewrite (app_cons_assoc pre rest e),
        (app_cons_assoc pre (flat_map (cut_range start end_) rest) e),
        <- (length_snoc pre e).
      apply (IH (pre ++ [e]) (pos e + size e + 1) fuel al);
        try assumption; try lia.
      apply Hpre'. lia. }
    rewrite (Z.geb_leb (pos e) start).
    destruct (Z.leb_spec start (pos e)) as [Hs | Hs];
      destruct (Z.leb_spec (pos e + size e - 1) end_) as [He | He];
      cbn [andb].
    + (* the range lies inside the interval *)
      rewrite Cin by lia. cbn [app].
      unfold range_remove. rewrite find_pos_mid
        by (apply Forall_below_neq with (lo := lo); assumption).
      cbn [bind]. rewrite list_del_mid.
      apply (IH pre (pos e + size e + 1) fuel al); try assumption; try lia.
      apply Forall_below_mono with (lo := lo); [assumption | lia].
    + (* the range sticks out at the right of the interval *)
      rewrite Cright by lia. cbn [app].
      rewrite (Z.gtb_ltb (pos e + size e - 1) end_).
      destruct (Z.ltb_spec end_ (pos e + size e - 1)) as [_ |]; [| lia].
      destruct (Z.ltb_spec (pos e) start) as [| _]; [lia |]. cbn [andb].
      rewrite (add_small end_ 1) by lia.
      rewrite (sub_small (end_ + 1) (pos e)) by lia.
      rewrite (sub_small (size e) (end_ + 1 - pos e)) by lia.
      rewrite (sub_small (size e) (size e - (end_ + 1 - pos e))) by lia.
      destruct (never_fails_next al Hal) as (al1 & Ea1 & Hal1).
      unfold malloc. rewrite Ea1.
      replace (size e - (size e - (end_ + 1 - pos e)))
        with (end_ + 1 - pos e) by lia.
      rewrite memcpy_tail by lia. cbn [bind].
      rewrite list_set_mid.
      set (right := mkRange (end_ + 1) (size e - (end_ + 1 - pos e))
                      (skipn (Z.to_nat (end_ + 1 - pos e)) (data e))).
      rewrite (app_cons_assoc pre rest right),
        (app_cons_assoc pre (flat_map (cut_range start end_) rest) right),
        <- (length_snoc pre right).
      apply (IH (pre ++ [right]) (pos e + size e + 1) fuel al1);
        try assumption; try lia.
      apply Hpre'. cbn [pos right]. lia.
    + (* the range sticks out at the left of the interval *)
      rewrite Cleft by lia. cbn [app].
      rewrite (Z.gtb_ltb (pos e + size e - 1) end_).
      destruct (Z.ltb_spec end_ (pos e + size e - 1)) as [| _]; [lia |].
      cbn [andb].
      destruct (Z.ltb_spec (pos e) start) as [_ |]; [| lia].
      rewrite (sub_small start (pos e)) by lia.
      destruct (never_fails_next al Hal) as (al1 & Ea1 & Hal1).
      rewrite (realloc_shrink (data e) (start - pos e) al al1)
        by (assumption || lia).
      rewrite list_set_mid.
      set (left := mkRange (pos e) (start - pos e)
                     (firstn (Z.to_nat (start - pos e)) (data e))).
      rewrite (app_cons_assoc pre rest left),
        (app_cons_assoc pre (flat_map (cut_range start end_) rest) left),
        <- (length_snoc pre left).
      apply (IH (pre ++ [left]) (pos e + size e + 1) fuel al1);
        try assumption; try lia.
      apply Hpre'. cbn [pos left]. lia.
    + (* the interval lies inside the range: split *)
      rewrite Csplit by lia. cbn [app].
      rewrite (Z.gtb_ltb (pos e + size e - 1) end_).
      destruct (Z.ltb_spec end_ (pos e + size e - 1)) as [_ |]; [| lia].
      destruct (Z.ltb_spec (pos e) start) as [_ |]; [| lia]. cbn [andb].
      destruct (never_fails_next al Hal) as (al1 & Ea1 & Hal1).
      destruct (never_fails_next al1 Hal1) as (al2 & Ea2 & Hal2).
      destruct (never_fails_next al2 Hal2) as (al3 & Ea3 & Hal3).
      unfold malloc_node, malloc. rewrite Ea1. cbn [negb]. rewrite Ea2.
      rewrite (add_small end_ 1) by lia.
      rewrite (add_small (pos e + size e - 1) 1) by lia.
      rewrite (sub_small (pos e + size e - 1 + 1) (end_ + 1)) by lia.
      rewrite (sub_small (end_ + 1) (pos e)) by lia.
      rewrite (sub_small start (pos e)) by lia.
      rewrite memcpy_tail by lia. cbn [bind].
      unfold range_insert_after. rewrite find_pos_mid
        by (apply Forall_below_neq with (lo := lo); assumption).
      cbn [bind]. rewrite Nat.ltb_irrefl. rewrite list_ins_after.
      rewrite (realloc_shrink (data e) (start - pos e) al2 al3)
        by (assumption || lia).
      rewrite list_set_mid.
      set (left := mkRange (pos e) (start - pos e)
                     (firstn (Z.to_nat (start - pos e)) (data e))).
      set (right := mkRange (end_ + 1) (pos e + size e - 1 + 1 - (end_ + 1))
                      (skipn (Z.to_nat (end_ + 1 - pos e)) (data e))).
      replace (pre ++ left :: right :: rest)
        with ((pre ++ [left; right]) ++ rest) by (now rewrite <- app_assoc).
      replace (pre ++ left :: right :: flat_map (cut_range start end_) rest)
        with ((pre ++ [left; right]) ++ flat_map (cut_range start end_) rest)
        by (now rewrite <- app_assoc).
      replace (S (S (length pre))) with (length (pre ++ [left; right]))
        by (rewrite length_app; cbn; lia).
      apply (IH (pre ++ [left; right]) (pos e + size e + 1) fuel al3);
        try assumption; try lia.
      apply Forall_app. split.
      * apply Forall_below_mono with (lo := lo); [assumption | lia].
      * repeat constructor; cbn [pos left right]; lia.
Qed.

(** The content of what is left of one range. *)
Lemma cut_range_loaded (start end_ : Z) (e : Range) (o : Z) :
  start <= end_ -> range_ok e ->
  loaded (cut_range start end_ e) o =
    if (start <=? o) && (o <=? end_) then None else loaded [e] o.
Proof.
  intros Hse (He0 & He1 & He2 & He3).
  unfold cut_range. cbn [loaded].
  zcases; cbn [loaded pos size data]; zcases; try lia; try reflexivity.
  all: try (f_equal; rewrite zth_firstn by lia; reflexivity).
  all: try (f_equal; rewrite zth_skipn by lia; f_equal; lia).
Qed.

(** The content after a removal: the interval is unloaded, the rest is as
    before. *)
Lemma cut_loaded (start end_ : Z) (es : list Range) (lo o : Z) :
  start <= end_ -> gapped lo es ->
  loaded (flat_map (cut_range start end_) es) o =
    if (start <=? o) && (o <=? end_) then None else loaded es o.
Proof.
  intros Hse. revert lo.
  induction es as [| e es IH]; intros lo Hg.
  - cbn. now destruct ((start <=? o) && (o <=? end_)).
  - destruct Hg as (Hlo & Hok & Hg). cbn [flat_map].
    rewrite loaded_app, (IH _ Hg), (cut_range_loaded start end_ e o Hse Hok).
    change (e :: es) with ([e] ++ es). rewrite loaded_app.
    destruct ((start <=? o) && (o <=? end_)); reflexivity.
Qed.

(** What is left of a range lies inside the range. *)
Lemma cut_range_gapped (start end_ : Z) (e : Range) (lo : Z) (rest : list Range) :
  0 <= start <= end_ -> lo <= pos e -> range_ok e ->
  gapped (pos e + size e + 1) rest ->
  gapped lo (cut_range start end_ e ++ rest).
Proof.
  intros Hse Hlo (He0 & He1 & He2 & He3) Hg.
  assert (Hg' : forall x, x <= pos e + size e + 1 -> gapped x rest)
    by (intros x Hx; apply gapped_mono with (lo := pos e + size e + 1); assumption).
  unfold cut_range, range_ok. zcases; cbn [app gapped pos size data];
    repeat match goal with
      | |- _ /\ _ => split
      | |- range_ok _ => unfold range_ok; cbn [pos size data]
      | |- zlen (firstn _ _) = _ => apply zlen_firstn
      | |- zlen (skipn _ _) = _ => rewrite zlen_skipn
      | |- gapped _ rest => apply Hg'
      end; try lia.
Qed.

Lemma cut_gapped (start end_ : Z) (es : list Range) (lo : Z) :
  0 <= start <= end_ -> gapped lo es ->
  gapped lo (flat_map (cut_range start end_) es).
Proof.
  intros Hse. revert lo.
  induction es as [| e es IH]; intros lo Hg; [exact I |].
  destruct Hg as (Hlo & Hok & Hg). cbn [flat_map].
  apply cut_range_gapped; try assumption. apply IH. exact Hg.
Qed.

Lemma cut_within (start end_ : Z) (es : list Range) (hi : Z) :
  0 <= start <= end_ -> within hi es ->
  within hi (flat_map (cut_range start end_) es).
Proof.
  intros Hse H. unfold within in *.
  induction H as [| e es He H IH]; [constructor |].
  cbn [flat_map]. apply Forall_app. split; [| exact IH].
  unfold cut_range.
  zcases; try lia;
    repeat (apply Forall_cons || apply Forall_nil); cbn [pos size]; lia.
Qed.

(** After the removal of [[start, hi - 1]] every range ends at [start] at
    the latest. *)
Lemma cut_within_start (start hi lo : Z) (es : list Range) :
  0 <= start <= hi - 1 -> gapped lo es -> within hi es ->
  within start (flat_map (cut_range start (hi - 1)) es).
Proof.
  intros Hse Hg H. unfold within in *. revert lo Hg.
  induction H as [| e es He H IH]; intros lo Hg; [constructor |].
  destruct Hg as (Hlo & (He0 & He1 & He2 & He3) & Hg).
  cbn [flat_map]. apply Forall_app. split; [| exact (IH _ Hg)].
  unfold cut_range.
  zcases; try lia;
    repeat (apply Forall_cons || apply Forall_nil); cbn [pos size]; lia.
Qed.

(** The run of [sb_remove_range] on a valid interval, with an allocator
    that does not fail. *)
Lemma sb_remove_range_run (rd : SBReader) (start end_ : Z) (al : allocator) :
  gapped 0 (ranges rd) -> rsize rd < 2 ^ w ->
  0 <= start <= end_ -> end_ < rsize rd -> never_fails al ->
  exists al',
    sb_remove_range rd start end_ al =
      Some (mkResult 0
              (set_ranges rd (flat_map (cut_range start end_) (ranges rd)))
              None, al') /\
    never_fails al'.
Proof.
  intros Hg Hsize Hse Hend Hal. unfold sb_remove_range.
  rewrite Z.geb_leb.
  destruct (Z.leb_spec (rsize rd) end_) as [| _]; [lia |].
  destruct (Z.ltb_spec end_ start) as [| _]; [lia |]. cbn [orb].
  destruct (remove_loop_spec start end_ (ranges rd) Hse ltac:(lia)
              [] 0 (remove_fuel (ranges rd)) al)
    as (al' & E & Hal'); try assumption; try lia.
  - constructor.
  - unfold remove_fuel. nia.
  - cbn [app length] in E. rewrite E. cbn [bind].
    exists al'. split; [reflexivity | assumption].
Qed.

Lemma sb_remove_range_invalid (rd : SBReader) (start end_ : Z) (al : allocator) :
  rsize rd <= end_ \/ end_ < start ->
  sb_remove_range rd start end_ al =
    Some (mkResult (-1) rd (msg "Invalid range."), al).
Proof.
  intros H. unfold sb_remove_range. rewrite Z.geb_leb.
  destruct (Z.leb_spec (rsize rd) end_); destruct (Z.ltb_spec end_ start);
    cbn [orb]; try reflexivity; lia.
Qed.

(** ** sb_load_range *)

Lemma gapped_ok (es : list Range) (lo : Z) :
  gapped lo es -> Forall range_ok es.
Proof.
  revert lo. induction es as [| e es IH]; intros lo H; [constructor |].
  destruct H as (_ & Hok & Hg). constructor; [exact Hok | exact (IH _ Hg)].
Qed.

(** A list in order around one of its nodes. *)
Lemma gapped_mid (l1 l2 : list Range) (x : Range) (lo : Z) :
  gapped lo (l1 ++ x :: l2) <->
  gapped lo l1 /\ Forall (fun p => pos p + size p < pos x) l1 /\
  lo <= pos x /\ range_ok x /\ gapped (pos x + size x + 1) l2.
Proof.
  revert lo. induction l1 as [| p l1 IH]; intros lo; cbn [app gapped].
  - split.
    + intros (H1 & H2 & H3). splits; try assumption; [exact I | constructor].
    + intros (_ & _ & H1 & H2 & H3). splits; assumption.
  - rewrite IH. split.
    + intros (H1 & H2 & H3 & H4 & H5 & H6 & H7).
      splits; try assumption; [| destruct H2; lia].
      constructor; [destruct H2; lia | assumption].
    + intros ((H1 & H2 & H3) & H4 & H5 & H6 & H7). inversion H4; subst.
      splits; try assumption; lia.
Qed.

Lemma gapped_snoc (l : list Range) (x : Range) (lo : Z) :
  gapped lo l -> Forall (fun p => pos p + size p < pos x) l ->
  lo <= pos x -> range_ok x -> gapped lo (l ++ [x]).
Proof.
  intros. apply gapped_mid. splits; try assumption. exact I.
Qed.

Lemma intersects_false_iff (a b : Range) :
  range_ok a -> range_ok b ->
  intersects a b = false <->
  pos a + size a < pos b \/ pos b + size b < pos a.
Proof.
  intros Ha Hb. pose proof (intersects_iff a b Ha Hb) as H.
  destruct (intersects a b); split; intros H0;
    try discriminate; try reflexivity; lia.
Qed.

(** What [merge] gives for two well-formed ranges when the allocation
    succeeds. *)
Lemma merge_ok (a b : Range) (al al' : allocator) :
  range_ok a -> range_ok b -> alloc_next al = (true, al') ->
  (intersects a b = false /\ merge a b al = Some (NotMerged, al)) \/
  (intersects a b = true /\
   exists m, merge a b al = Some (Merged m, al') /\ range_ok m /\
     pos m = Z.min (pos a) (pos b) /\
     pos m + size m = Z.max (pos a + size a) (pos b + size b)).
Proof.
  intros Ha Hb Hal.
  destruct (intersects a b) eqn:Hi; [right | left]; split; try reflexivity.
  - destruct (contains a b) eqn:Hc; [| destruct (contains b a) eqn:Hc'].
    + exists a. split; [now apply merge_copy_first |].
      apply (contains_iff a b Ha Hb) in Hc. split; [exact Ha | lia].
    + exists b. split; [now apply merge_copy_second |].
      apply (contains_iff b a Hb Ha) in Hc'. split; [exact Hb | lia].
    + destruct (merge_partial a b al al' Ha Hb Hi Hc Hc' Hal)
        as (m & E & Hp & He & Hl & _).
      exists m. split; [exact E |].
      destruct Ha as (Ha0 & Ha1 & Ha2 & Ha3), Hb as (Hb0 & Hb1 & Hb2 & Hb3).
      unfold range_ok. splits; lia.
  - unfold merge. now rewrite Hi.
Qed.

(** The first loop of [sb_load_range]: either no range intersects the new
    one, or the first one that does takes the merged range. *)
Lemma merge_scan_spec (r : Range) (es : list Range) :
  range_ok r ->
  forall lo al, gapped lo es -> never_fails al ->
    (merge_scan r es al = Some (ScanNone, al) /\
     Forall (fun e => intersects r e = false) es) \/
    (exists pre e rest m al',
       es = pre ++ e :: rest /\
       merge_scan r es al = Some (ScanMerged (length pre) (pre ++ m :: rest), al') /\
       Forall (fun p => intersects r p = false) pre /\
       intersects r e = true /\ range_ok m /\
       pos m = Z.min (pos r) (pos e) /\
       pos m + size m = Z.max (pos r + size r) (pos e + size e) /\
       never_fails al' /\
       alloc_next al = (true, al') /\ merge r e al = Some (Merged m, al')).
Proof.
  intros Hr. induction es as [| e es IH]; intros lo al Hg Hal.
  - left. split; [reflexivity | constructor].
  - destruct Hg as (Hlo & Hok & Hg).
    destruct (never_fails_next al Hal) as (al1 & Ea1 & Hal1).
    cbn [merge_scan].
    destruct (merge_ok r e al al1 Hr Hok Ea1)
      as [(Hi & E) | (Hi & m & E & Hm & Hp & He)]; rewrite E; cbn [bind].
    + destruct (IH _ al Hg Hal)
        as [(E' & Hall) | (pre & e' & rest & m & al' & -> & E' & Hall & H')].
      * left. rewrite E'. cbn [bind]. split; [reflexivity |].
        constructor; assumption.
      * right. exists (e :: pre), e', rest, m, al'. rewrite E'. cbn [bind].
        split; [reflexivity |]. split; [reflexivity |].
        split; [constructor; assumption | exact H'].
    + right. exists [], e, es, m, al1. cbn [app length].
      splits; try assumption; try reflexivity; constructor.
Qed.

(** The chain of merges with the successors of the merged node. *)
Lemma merge_chain_spec (hi : Z) (rest : list Range) :
  forall pre m lo fuel al,
    never_fails al -> range_ok m -> pos m + size m <= hi ->
    Forall (fun p => pos p < pos m) pre ->
    gapped lo rest -> within hi rest -> pos m < lo ->
    (length rest <= fuel)%nat ->
    exists m' rest' al',
      merge_chain fuel (pre ++ m :: rest) (length pre) al =
        Some (true, pre ++ m' :: rest', al') /\
      pos m' = pos m /\ range_ok m' /\ pos m' + size m' <= hi /\
      gapped (pos m' + size m' + 1) rest' /\ within hi rest' /\
      never_fails al'.
Proof.
  induction rest as [| e rest IH];
    intros pre m lo fuel al Hal Hm Hmhi Hpre Hg Hw Hlo Hfuel.
  - exists m, [], al. destruct fuel; cbn [merge_chain];
      rewrite nth_error_mid; cbn [bind];
      (replace (nth_error (pre ++ [m]) (S (length pre))) with (@None Range)
        by (symmetry; apply nth_error_None; rewrite length_app; cbn; lia));
      splits; try assumption; try reflexivity; try exact I; constructor.
  - destruct Hg as (Hlo' & Hok & Hg). inversion Hw as [| ? ? Hehi Hw']; subst.
    destruct (never_fails_next al Hal) as (al1 & Ea1 & Hal1).
    assert (Enext : nth_error (pre ++ m :: e :: rest) (S (length pre)) = Some e).
    { rewrite (app_cons_assoc pre (e :: rest) m), <- (length_snoc pre m).
      apply nth_error_mid. }
    assert (Hstep : forall f,
      (mrange <- nth_error (pre ++ m :: e :: rest) (length pre) ;;
       match nth_error (pre ++ m :: e :: rest) (S (length pre)) with
       | None => Some (true, pre ++ m :: e :: rest, al)
       | Some e0 =>
           '(x, al0) <- merge mrange e0 al ;;
           match x with
           | MergeFail => Some (false, pre ++ m :: e :: rest, al0)
           | NotMerged => Some (true, pre ++ m :: e :: rest, al0)
           | Merged mr =>
               '(j, rs') <- range_remove
                              (list_set (length pre) mr (pre ++ m :: e :: rest))
                              (pos e0) ;;
               if (j =? length pre)%nat then None
               else f rs' (if (j <? length pre)%nat then pred (length pre)
                           else length pre) al0
           end
       end) =
      match merge m e al with
      | Some (Merged mr, al0) => f (pre ++ mr :: rest) (length pre) al0
      | Some (NotMerged, al0) => Some (true, pre ++ m :: e :: rest, al0)
      | _ => None
      end \/ intersects m e = false).
    { intros f.
      destruct (merge_ok m e al al1 Hm Hok Ea1)
        as [(Hi & E) | (Hi & mr & E & Hmr & Hp & He)]; [right; exact Hi | left].
      rewrite nth_error_mid, Enext. cbn [bind]. rewrite E. cbn [bind].
      rewrite list_set_mid.
      unfold range_remove.
      rewrite (app_cons_assoc pre (e :: rest) mr).
      rewrite find_pos_mid.
      - rewrite length_snoc. cbn [bind].
        replace (S (length pre)) with (length (pre ++ [mr]))
          by apply length_snoc.
        rewrite list_del_mid. rewrite length_snoc.
        destruct (Nat.eqb_spec (S (length pre)) (length pre)) as [| _]; [lia |].
        destruct (Nat.ltb_spec (S (length pre)) (length pre)) as [| _]; [lia |].
        now rewrite <- app_assoc.
      - apply Forall_snoc.
        + eapply Forall_impl; [| exact Hpre]. cbn. intros. lia.
        + lia. }
    destruct (merge_ok m e al al1 Hm Hok Ea1)
      as [(Hi & E) | (Hi & mr & E & Hmr & Hp & He)].
    + (* the successor is out of reach: the chain stops *)
      exists m, (e :: rest), al.
      assert (Hgap : pos m + size m < pos e).
      { apply (intersects_false_iff m e Hm Hok) in Hi.
        destruct Hok as (? & ? & ? & ?). lia. }
      destruct fuel; cbn [merge_chain];
        rewrite nth_error_mid, Enext; cbn [bind]; rewrite E; cbn [bind];
        (splits; try assumption; try reflexivity);
        (split; [lia | split; assumption]).
    + (* the successor is absorbed *)
      destruct fuel as [| fuel]; [cbn in Hfuel; lia |].
      assert (Hposmr : pos mr = pos m) by lia.
      destruct (IH pre mr (pos e + size e + 1) fuel al1)
        as (m' & rest' & al' & E' & Hp' & H');
        try assumption; try lia.
      { rewrite Hposmr. exact Hpre. }
      { destruct Hok as (? & ? & ? & ?). lia. }
      { cbn [length] in Hfuel. lia. }
      exists m', rest', al'. split; [| split; [lia | exact H']].
      cbn [merge_chain].
      destruct (Hstep (merge_chain fuel)) as [Hs | Hs]; [| congruence].
      rewrite Hs, E. exact E'.
Qed.

Lemma find_split (f : Range -> bool) (l : list Range) :
  match find f l with
  | Some e => exists pre rest,
      l = pre ++ e :: rest /\ Forall (fun p => f p = false) pre /\ f e = true
  | None => Forall (fun p => f p = false) l
  end.
Proof.
  induction l as [| x l IH]; cbn [find]; [constructor |].
  destruct (f x) eqn:Hx.
  - exists [], l. splits; [reflexivity | constructor | exact Hx].
  - destruct (find f l) as [e |].
    + destruct IH as (pre & rest & -> & Hpre & He).
      exists (x :: pre), rest. splits; [reflexivity | | exact He].
      constructor; assumption.
    + constructor; assumption.
Qed.

Lemma within_ok (es : list Range) (lo : Z) :
  gapped lo es -> within (2 ^ w - 1) es.
Proof.
  intros H. apply gapped_ok in H. unfold within.
  eapply Forall_impl; [| exact H]. intros r (_ & _ & _ & Hr). lia.
Qed.

(** A load that passes the checks succeeds when the allocator does, and
    keeps the ranges in order; it keeps them below [hi] when the new range
    lies below [hi]. *)
Lemma sb_load_range_ok (rd : SBReader) (p : Z) (buf : list byte)
  (al : allocator) (hi : Z) :
  gapped 0 (ranges rd) -> within hi (ranges rd) ->
  0 <= p -> 0 < zlen buf -> p + zlen buf < 2 ^ w -> p + zlen buf <= hi ->
  rpos rd +! zlen buf <= rsize rd -> never_fails al ->
  exists rs' al',
    sb_load_range rd p buf (zlen buf) al =
      Some (mkResult 0 (set_ranges rd rs') None, al') /\
    gapped 0 rs' /\ within hi rs' /\ never_fails al'.
Proof.
  intros Hg Hw Hp Hlen Hend Hhi Hfit Hal.
  set (r := mkRange p (zlen buf) buf).
  assert (Hr : range_ok r) by (unfold range_ok; cbn; splits; lia).
  destruct (never_fails_next al Hal) as (al1 & Ea1 & Hal1).
  destruct (never_fails_next al1 Hal1) as (al2 & Ea2 & Hal2).
  unfold sb_load_range, malloc_node, malloc.
  destruct (Z.eqb_spec (zlen buf) 0) as [| _]; [lia |].
  rewrite Z.gtb_ltb.
  destruct (Z.ltb_spec (rsize rd) (rpos rd +! zlen buf)) as [| _]; [lia |].
  rewrite Ea1. cbn [negb]. rewrite Ea2.
  rewrite memcpy_whole by reflexivity. cbn [bind]. fold r.
  destruct (ranges rd) as [| e0 es0] eqn:Ers.
  { exists [r], al2. splits; try assumption; try reflexivity.
    - cbn [r gapped pos]. splits; try assumption; try exact I; lia.
    - repeat constructor. cbn [r pos size]. lia. }
  destruct (merge_scan_spec r (e0 :: es0) Hr 0 al2 Hg Hal2)
    as [(E & Hnone) | (pre & e & rest & m & al3 & Ees & E & Hpre & Hi & Hm
                        & Hpm & Hem & Hal3 & _)]; rewrite E; cbn [bind].
  - (* no range intersects the new one: it is linked at its place *)
    pose proof (find_split (fun e => pos r <? pos e) (e0 :: es0)) as Hfind.
    destruct (find (fun e => pos r <? pos e) (e0 :: es0)) as [e |].
    + destruct Hfind as (pre & rest & Ees & Hpre & He).
      rewrite Ees in *.
      apply gapped_mid in Hg. destruct Hg as (Hg1 & Hlt & _ & Hok & Hg2).
      assert (Hok1 : Forall range_ok pre) by (apply gapped_ok in Hg1; exact Hg1).
      unfold range_insert_before. rewrite find_pos_mid.
      2:{ rewrite Forall_forall in *. intros x Hx.
          specialize (Hlt x Hx). specialize (Hok1 x Hx).
          destruct Hok1 as (? & ? & ? & ?). lia. }
      cbn [bind]. rewrite list_ins_mid.
      exists (pre ++ r :: e :: rest), al2.
      splits; try assumption; try reflexivity.
      * apply Forall_app in Hnone. destruct Hnone as (Hn1 & Hn2).
        inversion Hn2 as [| ? ? Hne _]; subst.
        apply (intersects_false_iff r e Hr Hok) in Hne.
        apply Z.ltb_lt in He.
        apply gapped_mid. splits; try assumption; try lia.
        -- rewrite Forall_forall in *. intros x Hx.
           specialize (Hn1 x Hx). specialize (Hok1 x Hx).
           specialize (Hpre x Hx). cbn beta in Hpre.
           apply Z.ltb_ge in Hpre.
           apply (intersects_false_iff r x Hr Hok1) in Hn1.
           destruct Hok1 as (? & ? & ? & ?), Hr as (? & ? & ? & ?). lia.
        -- cbn [gapped]. splits; try assumption.
           destruct Hr as (? & ? & ? & ?), Hok as (? & ? & ? & ?). lia.
      * unfold within in *. apply Forall_app in Hw. destruct Hw as (Hw1 & Hw2).
        apply Forall_app. split; [exact Hw1 |].
        constructor; [cbn [r pos size]; lia | exact Hw2].
    + cbn [range_insert_end bind].
      exists ((e0 :: es0) ++ [r]), al2.
      splits; try assumption; try reflexivity.
      * assert (Hok1 : Forall range_ok (e0 :: es0)) by (apply gapped_ok in Hg; exact Hg).
        apply gapped_snoc; try assumption; try lia.
        rewrite Forall_forall in *. intros x Hx.
        specialize (Hnone x Hx). specialize (Hok1 x Hx).
        specialize (Hfind x Hx). cbn beta in Hfind.
        apply Z.ltb_ge in Hfind.
        apply (intersects_false_iff r x Hr Hok1) in Hnone.
        destruct Hok1 as (? & ? & ? & ?), Hr as (? & ? & ? & ?). lia.
      * unfold within in *. apply Forall_app. split; [exact Hw |].
        repeat constructor. cbn [r pos size]. lia.
  - (* the first range that intersects the new one absorbs it, then its
       successors as far as it reaches *)
    rewrite Ees in *.
    apply gapped_mid in Hg. destruct Hg as (Hg1 & Hlt & _ & Hok & Hg2).
    assert (Hok1 : Forall range_ok pre) by (apply gapped_ok in Hg1; exact Hg1).
    apply (intersects_iff r e Hr Hok) in Hi.
    unfold within in Hw. apply Forall_app in Hw. destruct Hw as (Hw1 & Hw2).
    inversion Hw2 as [| ? ? Hwe Hw3]; subst.
    assert (Hbelow : Forall (fun x => pos x + size x < pos m) pre).
    { rewrite Forall_forall in *. intros x Hx.
      specialize (Hlt x Hx). specialize (Hok1 x Hx). specialize (Hpre x Hx).
      apply (intersects_false_iff r x Hr Hok1) in Hpre.
      destruct Hok1 as (? & ? & ? & ?), Hr as (? & ? & ? & ?),
        Hok as (? & ? & ? & ?). lia. }
    destruct (merge_chain_spec hi rest pre m (pos e + size e + 1)
                (length (pre ++ m :: rest)) al3)
      as (m' & rest' & al4 & E' & Hpm' & Hm' & Hhi' & Hg' & Hw' & Hal4);
      try assumption.
    { cbn [r pos size] in Hem. lia. }
    { rewrite Forall_forall in *. intros x Hx.
      specialize (Hbelow x Hx). specialize (Hok1 x Hx).
      destruct Hok1 as (? & ? & ? & ?). lia. }
    { destruct Hok as (? & ? & ? & ?). lia. }
    { rewrite length_app. cbn [length]. lia. }
    rewrite E'. cbn [bind].
    exists (pre ++ m' :: rest'), al4.
    splits; try assumption; try reflexivity.
    + apply gapped_mid. splits; try assumption.
      * rewrite Hpm'. exact Hbelow.
      * destruct Hm' as (? & ? & ? & ?). lia.
    + unfold within in *. apply Forall_app. split; [exact Hw1 |].
      constructor; assumption.
Qed.

(** ** Allocation failures in sb_remove_range *)

(** The loop passes over the ranges that end before the interval. *)
Lemma remove_loop_skip (start end_ : Z) (suf : list Range) (fuel : nat)
  (al : allocator) :
  start <= end_ ->
  forall mid pre,
    Forall (ends_before start) mid ->
    remove_loop (length mid + fuel) (pre ++ mid ++ suf) (length pre)
                start end_ al =
    remove_loop fuel ((pre ++ mid) ++ suf) (length (pre ++ mid))
                start end_ al.
Proof.
  intros Hse. induction mid as [| p mid IH]; intros pre Hmid.
  - cbn [length app Nat.add]. now rewrite app_nil_r.
  - inversion Hmid as [| ? ? (Hp0 & Hp1 & Hp2 & Hp3) Hmid']; subst.
    cbn [length Nat.add app remove_loop].
    rewrite nth_error_mid. cbv zeta.
    rewrite (add_small (pos p) (size p)) by lia.
    rewrite (sub_small (pos p + size p) 1) by lia.
    rewrite (Z.gtb_ltb (pos p) end_).
    destruct (Z.ltb_spec end_ (pos p)) as [| _]; [lia |].
    destruct (Z.ltb_spec (pos p + size p - 1) start) as [_ |]; [| lia].
    rewrite (app_cons_assoc pre (mid ++ suf) p), <- (length_snoc pre p).
    rewrite (IH (pre ++ [p]) Hmid').
    now rewrite <- (app_assoc pre [p] mid).
Qed.

Lemma remove_fuel_split (mid rest : list Range) (e : Range) :
  exists k, remove_fuel (mid ++ e :: rest) = (length mid + S k)%nat.
Proof.
  exists (remove_fuel (mid ++ e :: rest) - length mid - 1)%nat.
  unfold remove_fuel. rewrite length_app. cbn [length]. nia.
Qed.


(** A run that gets to [e] is the loop started at [e]. *)
Lemma sb_remove_range_reaches (rd : SBReader) (start end_ : Z)
  (mid : list Range) (e : Range) (rest : list Range) (al : allocator) :
  reaches rd start end_ mid e rest ->
  exists k,
    sb_remove_range rd start end_ al =
      ('(r, m, rs, al') <-
         remove_loop (S k) (mid ++ e :: rest) (length mid) start end_ al ;;
       Some (mkResult r (set_ranges rd rs) m, al')).
Proof.
  intros (Ers & Hmid & Hse & Hend & Hsize & _).
  destruct (remove_fuel_split mid rest e) as (k & Hk). exists k.
  unfold sb_remove_range. rewrite Z.geb_leb.
  destruct (Z.leb_spec (rsize rd) end_) as [| _]; [lia |].
  destruct (Z.ltb_spec end_ start) as [| _]; [lia |]. cbn [orb].
  rewrite Ers, Hk.
  pose proof (remove_loop_skip start end_ (e :: rest) (S k) al
                (proj2 Hse) mid [] Hmid) as Hskip.
  cbn [app length] in Hskip. rewrite Hskip. reflexivity.
Qed.

(** One turn of the loop at a range [e] that the interval cuts, wherever
    the loop stands: the comparisons that lead to the branches. *)
Lemma remove_loop_at (fuel : nat) (rs : list Range) (i : nat) (e : Range)
  (start end_ : Z) (al : allocator) :
  nth_error rs i = Some e ->
  0 <= pos e -> 0 < size e -> pos e + size e < 2 ^ w ->
  pos e <= end_ -> start <= pos e + size e - 1 ->
  remove_loop (S fuel) rs i start end_ al =
    if (pos e >=? start) && (pos e + size e - 1 <=? end_) then
      '(_, rs') <- range_remove rs (pos e) ;;
      remove_loop fuel rs' i start end_ al
    else if (pos e + size e - 1 >? end_) && (pos e <? start) then
      let (ok, al1) := malloc_node al in
      if negb ok then
        Some (-1, msg "Could not allocate new range buffer.", rs, al1)
      else
        let pos0 := end_ +! 1 in
        let size0 := pos e + size e - 1 +! 1 -! pos0 in
        let (d, al2) := malloc size0 al1 in
        match d with
        | None => Some (-1, msg "Could not allocate new range data.", rs, al2)
        | Some d0 =>
            d1 <- memcpy d0 0 (data e) (end_ +! 1 -! pos e) size0 ;;
            '(j, rs1) <- range_insert_after rs (mkRange pos0 size0 d1) (pos e) ;;
            let ie := if (j <? i)%nat then S i else i in
            let newsize := start -! pos e in
            let (t, al3) := realloc (data e) newsize al2 in
            match t with
            | None =>
                Some (-1, msg "Could not realloc split range data.",
                      list_set ie (mkRange (pos e) newsize (data e)) rs1, al3)
            | Some tmp =>
                remove_loop fuel
                  (list_set ie (mkRange (pos e) newsize tmp) rs1)
                  (S (S j)) start end_ al3
            end
        end
    else
      let left :=
        if pos e <? start then
          let newsize := start -! pos e in
          let (t, al1) := realloc (data e) newsize al in
          match t with
          | None => inl (mkRange (pos e) newsize (data e), al1)
          | Some tmp => inr (mkRange (pos e) newsize tmp, al1)
          end
        else inr (e, al) in
      match left with
      | inl (e1, al1) =>
          Some (-1, msg "Could not realloc reduced range data.",
                list_set i e1 rs, al1)
      | inr (e1, al1) =>
          if pos e + size e - 1 >? end_ then
            let oldSize := size e1 in
            let newsize := size e1 -! (end_ +! 1 -! pos e1) in
            let newpos := end_ +! 1 in
            let (nd, al2) := malloc newsize al1 in
            match nd with
            | None =>
                Some (1, msg "Could not allocate new range data.",
                      list_set i (mkRange newpos newsize (data e1)) rs, al2)
            | Some nd0 =>
                d <- memcpy nd0 0 (data e1) (oldSize -! newsize) newsize ;;
                remove_loop fuel
                  (list_set i (mkRange newpos newsize d) rs)
                  (S i) start end_ al2
            end
          else remove_loop fuel (list_set i e1 rs) (S i) start end_ al1
      end.
Proof.
  intros Hnth He0 He1 He3 Hnotafter Hnotbefore.
  cbn [remove_loop]. rewrite Hnth. cbv zeta.
  rewrite (add_small (pos e) (size e)) by lia.
  rewrite (sub_small (pos e + size e) 1) by lia.
  rewrite (Z.gtb_ltb (pos e) end_).
  destruct (Z.ltb_spec end_ (pos e)) as [| _]; [lia |].
  destruct (Z.ltb_spec (pos e + size e - 1) start) as [| _]; [lia |].
  reflexivity.
Qed.

(** The allocation for a range that sticks out at the right of the
    interval fails: the loop returns [1], wherever it stands. *)
Lemma remove_loop_right_failure (fuel : nat) (rs : list Range) (i : nat)
  (e : Range) (start end_ : Z) (al : allocator) :
  nth_error rs i = Some e ->
  0 <= pos e -> 0 < size e -> pos e + size e < 2 ^ w ->
  0 <= start -> end_ + 1 < 2 ^ w ->
  start <= pos e <= end_ -> end_ < pos e + size e - 1 ->
  remove_loop (S fuel) rs i start end_ (false :: al) =
    Some (1, msg "Could not allocate new range data.",
          list_set i (mkRange (end_ + 1) (size e - (end_ + 1 - pos e)) (data e))
            rs, al).
Proof.
  intros Hnth He0 He1 He3 Hs Hend Hin Hout.
  rewrite (remove_loop_at fuel rs i e) by (assumption || lia).
  rewrite (Z.geb_leb (pos e) start), (Z.gtb_ltb (pos e + size e - 1) end_).
  destruct (Z.leb_spec start (pos e)) as [_ |]; [| lia].
  destruct (Z.leb_spec (pos e + size e - 1) end_) as [| _]; [lia |].
  destruct (Z.ltb_spec end_ (pos e + size e - 1)) as [_ |]; [| lia].
  destruct (Z.ltb_spec (pos e) start) as [| _]; [lia |]. cbn [andb].
  cbv zeta.
  rewrite (add_small end_ 1) by lia.
  rewrite (sub_small (end_ + 1) (pos e)) by lia.
  rewrite (sub_small (size e) (end_ + 1 - pos e)) by lia.
  unfold malloc. cbn [alloc_next]. reflexivity.
Qed.

(** The reallocation for a range that sticks out at the left of the
    interval fails: the loop returns [-1]. *)
Lemma remove_loop_left_failure (fuel : nat) (rs : list Range) (i : nat)
  (e : Range) (start end_ : Z) (al : allocator) :
  nth_error rs i = Some e ->
  0 <= pos e -> 0 < size e -> pos e + size e < 2 ^ w ->
  0 <= start <= end_ ->
  pos e < start <= pos e + size e - 1 -> pos e + size e - 1 <= end_ ->
  remove_loop (S fuel) rs i start end_ (false :: al) =
    Some (-1, msg "Could not realloc reduced range data.",
          list_set i (mkRange (pos e) (start - pos e) (data e)) rs, al).
Proof.
  intros Hnth He0 He1 He3 Hse Hin Hout.
  rewrite (remove_loop_at fuel rs i e) by (assumption || lia).
  rewrite (Z.geb_leb (pos e) start), (Z.gtb_ltb (pos e + size e - 1) end_).
  destruct (Z.leb_spec start (pos e)) as [| _]; [lia |].
  destruct (Z.ltb_spec end_ (pos e + size e - 1)) as [| _]; [lia |].
  destruct (Z.ltb_spec (pos e) start) as [_ |]; [| lia]. cbn [andb].
  cbv zeta.
  rewrite (sub_small start (pos e)) by lia.
  unfold realloc. cbn [alloc_next]. reflexivity.
Qed.

(** The three allocations of a split: each failure makes the loop return
    [-1]. *)
Lemma remove_loop_split_failure (fuel : nat) (rs : list Range) (i j : nat)
  (e : Range) (start end_ : Z) (al : allocator) :
  nth_error rs i = Some e ->
  0 <= pos e -> 0 < size e -> pos e + size e < 2 ^ w ->
  zlen (data e) = size e -> find_pos rs (pos e) = Some j ->
  0 <= start <= end_ -> end_ + 1 < 2 ^ w ->
  pos e < start -> end_ < pos e + size e - 1 ->
  remove_loop (S fuel) rs i start end_ (false :: al) =
    Some (-1, msg "Could not allocate new range buffer.", rs, al) /\
  remove_loop (S fuel) rs i start end_ (true :: false :: al) =
    Some (-1, msg "Could not allocate new range data.", rs, al) /\
  remove_loop (S fuel) rs i start end_ (true :: true :: false :: al) =
    Some (-1, msg "Could not realloc split range data.",
          list_set (if (j <? i)%nat then S i else i)
            (mkRange (pos e) (start - pos e) (data e))
            (list_ins (S j)
               (mkRange (end_ + 1) (pos e + size e - 1 - end_)
                  (skipn (Z.to_nat (end_ + 1 - pos e)) (data e)))
               rs), al).
Proof.
  intros Hnth He0 He1 He3 He2 Hfind Hse Hend Hin Hout.
  splits.
  all: rewrite (remove_loop_at fuel rs i e) by (assumption || lia).
  all: rewrite (Z.geb_leb (pos e) start), (Z.gtb_ltb (pos e + size e - 1) end_).
  all: destruct (Z.leb_spec start (pos e)) as [| _]; [lia |].
  all: destruct (Z.ltb_spec end_ (pos e + size e - 1)) as [_ |]; [| lia].
  all: destruct (Z.ltb_spec (pos e) start) as [_ |]; [| lia]; cbn [andb].
  all: unfold malloc_node, malloc; cbn [alloc_next negb]; cbv zeta.
  - reflexivity.
  - reflexivity.
  - rewrite (add_small end_ 1) by lia.
    rewrite (add_small (pos e + size e - 1) 1) by lia.
    rewrite (sub_small (pos e + size e - 1 + 1) (end_ + 1)) by lia.
    rewrite (sub_small (end_ + 1) (pos e)) by lia.
    rewrite (sub_small start (pos e)) by lia.
    rewrite memcpy_tail by lia. cbn [bind].
    unfold range_insert_after. rewrite Hfind. cbn [bind].
    unfold realloc. cbn [alloc_next].
    replace (pos e + size e - 1 + 1 - (end_ + 1))
      with (pos e + size e - 1 - end_) by lia.
    reflexivity.
Qed.

(** The same for a call of [sb_remove_range] that gets to [e]. *)
Lemma remove_right_failure (rd : SBReader) (start end_ : Z)
  (mid : list Range) (e : Range) (rest : list Range) (al : allocator) :
  reaches rd start end_ mid e rest ->
  start <= pos e <= end_ -> end_ < pos e + size e - 1 ->
  sb_remove_range rd start end_ (false :: al) =
    Some (mkResult 1
            (set_ranges rd
               (mid ++ mkRange (end_ + 1) (size e - (end_ + 1 - pos e)) (data e)
                    :: rest))
            (msg "Could not allocate new range data."), al).
Proof.
  intros Hreach Hin Hout.
  destruct (sb_remove_range_reaches rd start end_ mid e rest (false :: al) Hreach)
    as (k & ->).
  destruct Hreach as (Ers & Hmid & Hse & Hend & Hsize & He0 & He1 & He2 & He3 & _).
  rewrite (remove_loop_right_failure k (mid ++ e :: rest) (length mid) e)
    by (try apply nth_error_mid; assumption || lia).
  cbn [bind]. now rewrite list_set_mid.
Qed.

Lemma remove_left_failure (rd : SBReader) (start end_ : Z)
  (mid : list Range) (e : Range) (rest : list Range) (al : allocator) :
  reaches rd start end_ mid e rest ->
  pos e < start <= pos e + size e - 1 -> pos e + size e - 1 <= end_ ->
  sb_remove_range rd start end_ (false :: al) =
    Some (mkResult (-1)
            (set_ranges rd
               (mid ++ mkRange (pos e) (start - pos e) (data e) :: rest))
            (msg "Could not realloc reduced range data."), al).
Proof.
  intros Hreach Hin Hout.
  destruct (sb_remove_range_reaches rd start end_ mid e rest (false :: al) Hreach)
    as (k & ->).
  destruct Hreach as (Ers & Hmid & Hse & Hend & Hsize & He0 & He1 & He2 & He3 & _).
  rewrite (remove_loop_left_failure k (mid ++ e :: rest) (length mid) e)
    by (try apply nth_error_mid; assumption || lia).
  cbn [bind]. now rewrite list_set_mid.
Qed.

Lemma remove_split_failure (rd : SBReader) (start end_ : Z)
  (mid : list Range) (e : Range) (rest : list Range) (al : allocator) :
  reaches rd start end_ mid e rest ->
  pos e < start -> end_ < pos e + size e - 1 ->
  sb_remove_range rd start end_ (false :: al) =
    Some (mkResult (-1) rd (msg "Could not allocate new range buffer."), al) /\
  sb_remove_range rd start end_ (true :: false :: al) =
    Some (mkResult (-1) rd (msg "Could not allocate new range data."), al) /\
  sb_remove_range rd start end_ (true :: true :: false :: al) =
    Some (mkResult (-1)
            (set_ranges rd
               (mid ++ mkRange (pos e) (start - pos e) (data e)
                    :: mkRange (end_ + 1) (pos e + size e - 1 - end_)
                         (skipn (Z.to_nat (end_ + 1 - pos e)) (data e))
                    :: rest))
            (msg "Could not realloc split range data."), al).
Proof.
  intros Hreach Hin Hout.
  assert (Hrd : set_ranges rd (mid ++ e :: rest) = rd).
  { destruct Hreach as (Ers & _). rewrite <- Ers. now destruct rd. }
  pose proof Hreach as
    (Ers & Hmid & Hse & Hend & Hsize & He0 & He1 & He2 & He3 & Hneq).
  destruct (remove_loop_split_failure 0 (mid ++ e :: rest) (length mid)
              (length mid) e start end_ al) as (_ & _ & E3');
    try apply nth_error_mid; try apply find_pos_mid; try assumption; try lia.
  splits.
  all: match goal with
       | |- sb_remove_range _ _ _ ?a = _ =>
           destruct (sb_remove_range_reaches rd start end_ mid e rest a Hreach)
             as (k & ->)
       end.
  all: destruct (remove_loop_split_failure k (mid ++ e :: rest) (length mid)
                   (length mid) e start end_ al) as (E1 & E2 & E3);
    try apply nth_error_mid; try apply find_pos_mid; try assumption; try lia.
  - rewrite E1. cbn [bind]. now rewrite Hrd.
  - rewrite E2. cbn [bind]. now rewrite Hrd.
  - rewrite E3. cbn [bind]. rewrite Nat.ltb_irrefl.
    now rewrite list_ins_after, list_set_mid.
Qed.

(** ** The content after a load *)

(** Unless the second range contains the first one strictly, the merged
    range reads as the first range laid over the second one. *)
Lemma merge_loaded (a b : Range) (al al' : allocator) :
  range_ok a -> range_ok b -> alloc_next al = (true, al') ->
  intersects a b = true ->
  contains a b = true \/ contains b a = false ->
  exists m,
    merge a b al = Some (Merged m, al') /\
    forall o, loaded [m] o = loaded [a; b] o.
Proof.
  intros Ha Hb Hal Hi Hcase.
  destruct (contains a b) eqn:Hc.
  - exists a. split; [now apply merge_copy_first |].
    apply (contains_iff a b Ha Hb) in Hc.
    intros o. cbn [loaded]. zcases; try reflexivity; lia.
  - destruct Hcase as [| Hc']; [discriminate |].
    destruct (merge_partial a b al al' Ha Hb Hi Hc Hc' Hal)
      as (m & E & Hp & He & Hl & Hbytes).
    exists m. split; [exact E |].
    apply (intersects_iff a b Ha Hb) in Hi.
    destruct Ha as (Ha0 & Ha1 & Ha2 & Ha3), Hb as (Hb0 & Hb1 & Hb2 & Hb3).
    intros o. cbn [loaded].
    destruct (Z.leb_spec (pos m) o); destruct (Z.ltb_spec o (pos m + size m));
      cbn [andb].
    + rewrite Hbytes by lia. zcases; try reflexivity; lia.
    + zcases; try reflexivity; lia.
    + zcases; try reflexivity; lia.
    + zcases; try reflexivity; lia.
Qed.

Lemma loaded_cons (e : Range) (es : list Range) (o : Z) :
  loaded (e :: es) o =
    match loaded [e] o with
    | Some b => Some b
    | None => loaded es o
    end.
Proof. change (e :: es) with ([e] ++ es). apply loaded_app. Qed.

(** The chain of merges does not change what the list reads as, the merged
    node laid over its successors. *)
Lemma merge_chain_loaded (rest : list Range) :
  forall pre m lo fuel al,
    never_fails al -> range_ok m ->
    Forall (fun p => pos p < pos m) pre ->
    gapped lo rest -> pos m < lo ->
    (length rest <= fuel)%nat ->
    exists rs' al',
      merge_chain fuel (pre ++ m :: rest) (length pre) al
        = Some (true, rs', al') /\
      forall o, loaded rs' o = loaded (pre ++ m :: rest) o.
Proof.
  induction rest as [| e rest IH];
    intros pre m lo fuel al Hal Hm Hpre Hg Hlo Hfuel.
  - exists (pre ++ [m]), al. split; [| reflexivity].
    destruct fuel; cbn [merge_chain];
      rewrite nth_error_mid; cbn [bind];
      (replace (nth_error (pre ++ [m]) (S (length pre))) with (@None Range)
        by (symmetry; apply nth_error_None; rewrite length_app; cbn; lia));
      reflexivity.
  - destruct Hg as (Hlo' & Hok & Hg).
    destruct (never_fails_next al Hal) as (al1 & Ea1 & Hal1).
    assert (Enext : nth_error (pre ++ m :: e :: rest) (S (length pre)) = Some e).
    { rewrite (app_cons_assoc pre (e :: rest) m), <- (length_snoc pre m).
      apply nth_error_mid. }
    destruct (intersects m e) eqn:Hi.
    + (* the successor is absorbed *)
      assert (Hc' : contains e m = false).
      { apply (contains_false_iff e m Hok Hm). lia. }
      destruct (merge_loaded m e al al1 Hm Hok Ea1 Hi (or_intror Hc'))
        as (mr & E & Hload).
      destruct (merge_ok m e al al1 Hm Hok Ea1)
        as [(Hi' & _) | (_ & mr' & E' & Hmr & Hp & He)]; [congruence |].
      assert (mr' = mr) by congruence. subst mr'.
      destruct fuel as [| fuel]; [cbn in Hfuel; lia |].
      destruct (IH pre mr (pos e + size e + 1) fuel al1)
        as (rs' & al' & E2 & Hload2); try assumption.
      { replace (pos mr) with (pos m) by lia. exact Hpre. }
      { destruct Hok as (? & ? & ? & ?). lia. }
      { cbn [length] in Hfuel. lia. }
      exists rs', al'. split.
      * cbn [merge_chain]. rewrite nth_error_mid, Enext. cbn [bind].
        rewrite E. cbn [bind]. rewrite list_set_mid.
        unfold range_remove.
        rewrite (app_cons_assoc pre (e :: rest) mr).
        rewrite find_pos_mid.
        2:{ apply Forall_snoc.
            - eapply Forall_impl; [| exact Hpre]. cbn. intros. lia.
            - lia. }
        rewrite length_snoc. cbn [bind].
        replace (S (length pre)) with (length (pre ++ [mr]))
          by apply length_snoc.
        rewrite list_del_mid. rewrite length_snoc.
        destruct (Nat.eqb_spec (S (length pre)) (length pre)) as [| _]; [lia |].
        destruct (Nat.ltb_spec (S (length pre)) (length pre)) as [| _]; [lia |].
        rewrite <- app_assoc. exact E2.
      * intros o. rewrite Hload2. rewrite !loaded_app.
        destruct (loaded pre o); [reflexivity |].
        rewrite (loaded_cons mr rest), (loaded_cons m (e :: rest)),
          (loaded_cons e rest).
        specialize (Hload o). rewrite (loaded_cons m [e]) in Hload.
        rewrite Hload. destruct (loaded [m] o); [reflexivity |].
        cbn [loaded]. destruct ((pos e <=? o) && (o <? pos e + size e));
          reflexivity.
    + (* the successor is out of reach: the chain stops *)
      exists (pre ++ m :: e :: rest), al. split; [| reflexivity].
      destruct fuel; cbn [merge_chain];
        rewrite nth_error_mid, Enext; cbn [bind];
        unfold merge; rewrite Hi; reflexivity.
Qed.

Lemma gapped_in (es : list Range) (lo : Z) (x : Range) :
  gapped lo es -> In x es -> lo <= pos x.
Proof.
  revert lo. induction es as [| y es IH]; intros lo Hg Hx; [contradiction |].
  destruct Hg as (Hy & (? & ? & ? & ?) & Hg).
  destruct Hx as [-> | Hx]; [lia |].
  specialize (IH _ Hg Hx). lia.
Qed.

Lemma contains_intersects (e r : Range) :
  range_ok e -> range_ok r -> contains e r = true -> intersects r e = true.
Proof.
  intros He Hr H. apply (contains_iff e r He Hr) in H.
  apply (intersects_iff r e Hr He).
  destruct He as (? & ? & ? & ?), Hr as (? & ? & ? & ?). lia.
Qed.

Lemma dropped_false (r : Range) (es : list Range) :
  Forall (fun e => contains e r = false \/ contains r e = true) es ->
  dropped r es = false.
Proof.
  intros H. unfold dropped. induction H as [| e es He H IH]; [reflexivity |].
  cbn [existsb]. rewrite IH.
  destruct He as [-> | ->]; [reflexivity |].
  now rewrite andb_false_r.
Qed.

(** The content after a load that succeeds: the new range is laid over
    the old content (the last write wins), unless a stored range contains
    the new range strictly; then the load changes nothing. *)
Lemma sb_load_range_content (rd : SBReader) (p : Z) (buf : list byte)
  (al : allocator) :
  gapped 0 (ranges rd) ->
  0 <= p -> 0 < zlen buf -> p + zlen buf < 2 ^ w ->
  rpos rd +! zlen buf <= rsize rd -> never_fails al ->
  exists rs' al',
    sb_load_range rd p buf (zlen buf) al =
      Some (mkResult 0 (set_ranges rd rs') None, al') /\
    forall o,
      loaded rs' o =
        if dropped (mkRange p (zlen buf) buf) (ranges rd)
        then loaded (ranges rd) o
        else if (p <=? o) && (o <? p + zlen buf) then Some (zth buf (o - p))
        else loaded (ranges rd) o.
Proof.
  intros Hg Hp Hlen Hend Hfit Hal.
  set (r := mkRange p (zlen buf) buf).
  assert (Hr : range_ok r) by (unfold range_ok; cbn; splits; lia).
  assert (Hlay : forall pre rest, 
             Forall (fun x => pos x + size x < pos r) pre ->
             forall o, loaded (pre ++ r :: rest) o =
               if (p <=? o) && (o <? p + zlen buf) then Some (zth buf (o - p))
               else loaded (pre ++ rest) o).
  { intros pre rest Hb o. rewrite !loaded_app, (loaded_cons r rest).
    cbn [loaded r pos size data].
    destruct ((p <=? o) && (o <? p + zlen buf)) eqn:Ho;
      [| destruct (loaded pre o); reflexivity].
    assert (Hpre : loaded pre o = None); [| now rewrite Hpre].
    clear -Hb Ho. apply andb_prop in Ho. destruct Ho as (Ho1 & Ho2).
    apply Z.leb_le in Ho1.
    induction Hb as [| x pre Hx Hb IH]; [reflexivity |].
    cbn [r pos] in Hx. rewrite loaded_tail by lia. exact IH. }
  destruct (never_fails_next al Hal) as (al1 & Ea1 & Hal1).
  destruct (never_fails_next al1 Hal1) as (al2 & Ea2 & Hal2).
  unfold sb_load_range, malloc_node, malloc.
  destruct (Z.eqb_spec (zlen buf) 0) as [| _]; [lia |].
  rewrite Z.gtb_ltb.
  destruct (Z.ltb_spec (rsize rd) (rpos rd +! zlen buf)) as [| _]; [lia |].
  rewrite Ea1. cbn [negb]. rewrite Ea2.
  rewrite memcpy_whole by reflexivity. cbn [bind]. fold r.
  destruct (ranges rd) as [| e0 es0] eqn:Ers.
  { exists [r], al2. split; [reflexivity |]. intros o.
    cbn [dropped existsb]. apply (Hlay [] []). constructor. }
  destruct (merge_scan_spec r (e0 :: es0) Hr 0 al2 Hg Hal2)
    as [(E & Hnone) | (pre & e & rest & m & al3 & Ees & E & Hpre & Hi & Hm
                        & Hpm & Hem & Hal3 & Ea0 & Emerge)];
    rewrite E; cbn [bind].
  - (* no range intersects the new one *)
    assert (Hok0 : Forall range_ok (e0 :: es0)) by (apply gapped_ok in Hg; exact Hg).
    assert (Hdrop : dropped r (e0 :: es0) = false).
    { apply dropped_false. rewrite Forall_forall in *. intros x Hx. left.
      destruct (contains x r) eqn:Hc; [| reflexivity].
      apply (contains_intersects x r (Hok0 x Hx) Hr) in Hc.
      rewrite (Hnone x Hx) in Hc. discriminate. }
    rewrite Hdrop.
    pose proof (find_split (fun e => pos r <? pos e) (e0 :: es0)) as Hfind.
    destruct (find (fun e => pos r <? pos e) (e0 :: es0)) as [e |].
    + destruct Hfind as (pre & rest & Ees & Hpre & He).
      rewrite Ees in *.
      apply gapped_mid in Hg. destruct Hg as (Hg1 & Hlt & _ & Hok & Hg2).
      assert (Hok1 : Forall range_ok pre) by (apply gapped_ok in Hg1; exact Hg1).
      unfold range_insert_before. rewrite find_pos_mid.
      2:{ rewrite Forall_forall in *. intros x Hx.
          specialize (Hlt x Hx). specialize (Hok1 x Hx).
          destruct Hok1 as (? & ? & ? & ?). lia. }
      cbn [bind]. rewrite list_ins_mid.
      exists (pre ++ r :: e :: rest), al2. split; [reflexivity |].
      apply Hlay. apply Forall_app in Hnone. destruct Hnone as (Hn1 & _).
      rewrite Forall_forall in *. intros x Hx.
      specialize (Hn1 x Hx). specialize (Hok1 x Hx). specialize (Hpre x Hx).
      cbn beta in Hpre. apply Z.ltb_ge in Hpre.
      apply (intersects_false_iff r x Hr Hok1) in Hn1.
      destruct Hok1 as (? & ? & ? & ?), Hr as (? & ? & ? & ?). lia.
    + cbn [range_insert_end bind].
      exists ((e0 :: es0) ++ [r]), al2. split; [reflexivity |].
      intros o. rewrite (Hlay (e0 :: es0) [] ) ; [now rewrite app_nil_r |].
      rewrite Forall_forall in *. intros x Hx.
      specialize (Hnone x Hx). specialize (Hok0 x Hx). specialize (Hfind x Hx).
      cbn beta in Hfind. apply Z.ltb_ge in Hfind.
      apply (intersects_false_iff r x Hr Hok0) in Hnone.
      destruct Hok0 as (? & ? & ? & ?), Hr as (? & ? & ? & ?). lia.
  - (* the first range that intersects the new one absorbs it *)
    rewrite Ees in *.
    pose proof Hg as Hg0.
    apply gapped_mid in Hg. destruct Hg as (Hg1 & Hlt & _ & Hok & Hg2).
    assert (Hok1 : Forall range_ok pre) by (apply gapped_ok in Hg1; exact Hg1).
    assert (Hok2 : Forall range_ok rest) by (apply gapped_ok in Hg2; exact Hg2).
    pose proof Hi as Hi0.
    apply (intersects_iff r e Hr Hok) in Hi.
    assert (Hbelow : Forall (fun x => pos x + size x < pos m) pre).
    { rewrite Forall_forall in *. intros x Hx.
      specialize (Hlt x Hx). specialize (Hok1 x Hx). specialize (Hpre x Hx).
      apply (intersects_false_iff r x Hr Hok1) in Hpre.
      destruct Hok1 as (? & ? & ? & ?), Hr as (? & ? & ? & ?),
        Hok as (? & ? & ? & ?). lia. }
    destruct (merge_chain_loaded rest pre m (pos e + size e + 1)
                (length (pre ++ m :: rest)) al3)
      as (rs' & al4 & E' & Hload'); try assumption.
    { rewrite Forall_forall in *. intros x Hx.
      specialize (Hbelow x Hx). specialize (Hok1 x Hx).
      destruct Hok1 as (? & ? & ? & ?). lia. }
    { destruct Hok as (? & ? & ? & ?). lia. }
    { rewrite length_app. cbn [length]. lia. }
    rewrite E'. cbn [bind].
    exists rs', al4. split; [reflexivity |].
    intros o. rewrite Hload'.
    destruct (contains r e) eqn:Hcre; [| destruct (contains e r) eqn:Hcer].
    + (* the new range covers the stored one *)
      destruct (merge_loaded r e al2 al3 Hr Hok Ea0 Hi0 (or_introl Hcre))
        as (m1 & Em1 & Hm1).
      assert (m1 = m) by congruence. subst m1.
      assert (Hdrop : dropped r (pre ++ e :: rest) = false).
      { apply dropped_false. apply Forall_app. split; [| constructor].
        - rewrite Forall_forall in *. intros x Hx. left.
          destruct (contains x r) eqn:Hc; [| reflexivity].
          apply (contains_intersects x r (Hok1 x Hx) Hr) in Hc.
          rewrite (Hpre x Hx) in Hc. discriminate.
        - now right.
        - rewrite Forall_forall in *. intros x Hx. left.
          apply (contains_false_iff x r (Hok2 x Hx) Hr).
          pose proof (gapped_in rest (pos e + size e + 1) x Hg2 Hx) as Hxpos.
          destruct Hok as (? & ? & ? & ?). lia. }
      rewrite Hdrop.
      rewrite <- (Hlay pre (e :: rest)).
      2:{ rewrite Forall_forall in *. intros x Hx. specialize (Hbelow x Hx).
          cbn [r pos] in *. lia. }
      rewrite !loaded_app. destruct (loaded pre o); [reflexivity |].
      rewrite (loaded_cons m rest), (loaded_cons r (e :: rest)),
        (loaded_cons e rest).
      specialize (Hm1 o). rewrite (loaded_cons r [e]) in Hm1. rewrite Hm1.
      destruct (loaded [r] o); [reflexivity |].
      cbn [loaded]. destruct ((pos e <=? o) && (o <? pos e + size e));
        reflexivity.
    + (* a stored range contains the new one strictly: nothing changes *)
      assert (Hdrop : dropped r (pre ++ e :: rest) = true).
      { unfold dropped. rewrite existsb_app. cbn [existsb].
        rewrite Hcer, Hcre. cbn [andb negb orb]. apply orb_true_r. }
      rewrite Hdrop.
      assert (m = e).
      { pose proof (merge_copy_second r e al2 al3 Hr Hok Hi0 Hcre Hcer Ea0).
        congruence. }
      subst m. reflexivity.
    + (* partial overlap *)
      destruct (merge_loaded r e al2 al3 Hr Hok Ea0 Hi0 (or_intror Hcer))
        as (m1 & Em1 & Hm1).
      assert (m1 = m) by congruence. subst m1.
      assert (Hdrop : dropped r (pre ++ e :: rest) = false).
      { apply dropped_false. apply Forall_app. split; [| constructor].
        - rewrite Forall_forall in *. intros x Hx. left.
          destruct (contains x r) eqn:Hc; [| reflexivity].
          apply (contains_intersects x r (Hok1 x Hx) Hr) in Hc.
          rewrite (Hpre x Hx) in Hc. discriminate.
        - now left.
        - rewrite Forall_forall in *. intros x Hx. left.
          apply (contains_false_iff x r (Hok2 x Hx) Hr).
          pose proof (gapped_in rest (pos e + size e + 1) x Hg2 Hx) as Hxpos.
          destruct Hok as (? & ? & ? & ?). lia. }
      rewrite Hdrop.
      rewrite <- (Hlay pre (e :: rest)).
      2:{ rewrite Forall_forall in *. intros x Hx. specialize (Hbelow x Hx).
          cbn [r pos] in *. lia. }
      rewrite !loaded_app. destruct (loaded pre o); [reflexivity |].
      rewrite (loaded_cons m rest), (loaded_cons r (e :: rest)),
        (loaded_cons e rest).
      specialize (Hm1 o). rewrite (loaded_cons r [e]) in Hm1. rewrite Hm1.
      destruct (loaded [r] o); [reflexivity |].
      cbn [loaded]. destruct ((pos e <=? o) && (o <? pos e + size e));
        reflexivity.
Qed.

(** ** The contracts of the operations *)

(** C1 (as the code has it).  When [merge(a, b)] finds that [a] and [b]
    intersect (overlap or touch) and the allocation succeeds, the merged
    range is: [a] when [a] contains [b]; [b] when [b] contains [a] and [a]
    does not contain [b] (the covered range gives nothing, also when it is
    the newly inserted one); otherwise it runs from the lower start to the
    higher end, every offset that [a] covers has the byte of [a], and [b]
    gives only the offsets that [a] does not cover.  [sb_load_range] calls
    [merge] with the newly inserted range as [a] (and with the range merged
    so far as [a] for the successors), so the range with the higher start
    wins the overlap only when it is the first argument. *)
Theorem merge_first_argument_wins (a b : Range) (al : allocator) :
  range_ok a -> range_ok b -> intersects a b = true ->
  fst (alloc_next al) = true ->
  exists m,
    merge a b al = Some (Merged m, snd (alloc_next al)) /\
    (contains a b = true -> m = a) /\
    (contains a b = false -> contains b a = true -> m = b) /\
    (contains a b = false -> contains b a = false ->
     first_argument_wins a b m).
Proof.
  intros Ha Hb Hi Hal.
  destruct (alloc_next al) as [ok al'] eqn:Eal. cbn [fst snd] in *. subst ok.
  destruct (contains a b) eqn:Hc; [| destruct (contains b a) eqn:Hc'].
  - exists a. split; [now apply merge_copy_first |].
    splits; intros; congruence.
  - exists b. split; [now apply merge_copy_second |].
    splits; intros; congruence.
  - destruct (merge_partial a b al al' Ha Hb Hi Hc Hc' Eal) as (m & E & Hm).
    exists m. split; [exact E |]. splits; intros; try congruence; exact Hm.
Qed.

(** [sb_read] under the invariants of the data model. *)
Lemma sb_read_inv (rd : SBReader) (buf : list byte) (n : Z) :
  sb_inv rd -> 0 < n < 2 ^ w -> n <= zlen buf ->
  exists b,
    (rpos rd + n <= rsize rd ->
     sb_read rd buf n = Some (mkResult (n, b) rd None) /\
     forall i, 0 <= i < n -> zth b i = byte_at (ranges rd) (rpos rd + i)) /\
    (rsize rd < rpos rd + n ->
     sb_read rd buf n = Some (mkResult (0, b) rd (msg "Cannot read past EOF."))).
Proof.
  intros (Hpos & Hsize & Hg & Hw) Hn Hbuf.
  destruct (sb_read_general rd buf n Hpos Hsize Hg Hn Hbuf) as (b & H1 & H2).
  pose proof (reach_within (ranges rd) (rpos rd) (rsize rd) Hw (proj2 Hpos)).
  pose proof (reach_ge (ranges rd) (rpos rd)).
  exists b. split; intros H3; [apply H1 | apply H2]; lia.
Qed.

(** C3.  For a reader that satisfies the invariants of the data model and a
    destination of at least [n] bytes: [sb_read] returns [n] without an
    error exactly when [0 < n] and [cursor + n <= size]; byte [i] of the
    output is then the loaded byte at [cursor + i], or zero where nothing
    is loaded; when [n = 0] or [cursor + n > size] the call returns [0] and
    reports an error.  So a new reader of size [s] reads as [s] zeros, and
    after one load of [payload] at [off] the whole buffer reads as
    [payload] at [[off, off + length)] and zeros elsewhere. *)
Theorem sb_read_contract :
  (forall rd buf n,
     sb_inv rd -> 0 <= n < 2 ^ w -> n <= zlen buf ->
     exists r,
       sb_read rd buf n = Some r /\
       ((fst (ret r) = n /\ error r = None) <->
        (0 < n /\ rpos rd + n <= rsize rd)) /\
       (0 < n /\ rpos rd + n <= rsize rd ->
        forall i, 0 <= i < n ->
          zth (snd (ret r)) i = byte_at (ranges rd) (rpos rd + i)) /\
       (n = 0 \/ rsize rd < rpos rd + n ->
        fst (ret r) = 0 /\ error r <> None)) /\
  (forall s al rd al' buf,
     0 < s < 2 ^ w -> s <= zlen buf ->
     sb_new_reader s al = (Some rd, None, al') ->
     exists b,
       sb_read rd buf s = Some (mkResult (s, b) rd None) /\
       forall i, 0 <= i < s -> zth b i = zero) /\
  (forall s al rd al' off payload al1 r1 al2 buf,
     0 < s < 2 ^ w -> s <= zlen buf ->
     sb_new_reader s al = (Some rd, None, al') ->
     0 <= off -> off + zlen payload < 2 ^ w ->
     sb_load_range rd off payload (zlen payload) al1 = Some (r1, al2) ->
     ret r1 = 0 ->
     exists b,
       sb_read (reader r1) buf s = Some (mkResult (s, b) (reader r1) None) /\
       forall i, 0 <= i < s ->
         zth b i = if (off <=? i) && (i <? off + zlen payload)
                   then zth payload (i - off) else zero).
Proof.
  splits.
  - intros rd buf n Hinv Hn Hbuf.
    destruct (Z.eq_dec n 0) as [-> | Hn0].
    + exists (mkResult (0, buf) rd (msg "Cannot read zero bytes.")).
      cbn [ret error fst snd]. splits; try reflexivity.
      * split; [intros (_ & H); discriminate | lia].
      * lia.
      * intros _. split; [reflexivity | discriminate].
    + destruct (sb_read_inv rd buf n Hinv ltac:(lia) Hbuf) as (b & H1 & H2).
      destruct (Z_le_gt_dec (rpos rd + n) (rsize rd)) as [Hle | Hgt].
      * destruct (H1 Hle) as (E & Hb). eexists. split; [exact E |].
        cbn [ret error fst snd]. splits.
        -- split; [lia | intros _; split; reflexivity].
        -- intros _. exact Hb.
        -- lia.
      * rewrite (H2 ltac:(lia)). eexists. split; [reflexivity |].
        cbn [ret error fst snd]. splits.
        -- split; [intros (_ & H); discriminate | lia].
        -- lia.
        -- intros _. split; [reflexivity | discriminate].
  - intros s al rd al' buf Hs Hbuf Hnew.
    unfold sb_new_reader, sb_new_reader_custom_alloc, malloc_node in Hnew.
    destruct (Z.eqb_spec s 0); [lia |].
    destruct (alloc_next al) as [[|] al0]; inversion Hnew; subst.
    assert (Hinv : sb_inv (mkReader 0 s [])).
    { unfold sb_inv. cbn. splits; try lia; constructor. }
    destruct (sb_read_inv _ buf s Hinv Hs Hbuf) as (b & H1 & _).
    destruct (H1 ltac:(cbn; lia)) as (E & Hb). exists b. split; [exact E |].
    intros i Hi. rewrite (Hb i Hi). reflexivity.
  - intros s al rd al' off payload al1 r1 al2 buf Hs Hbuf Hnew Hoff Hfit Hload Hret.
    unfold sb_new_reader, sb_new_reader_custom_alloc, malloc_node in Hnew.
    destruct (Z.eqb_spec s 0); [lia |].
    destruct (alloc_next al) as [[|] al0]; inversion Hnew; subst.
    assert (Hr1 : reader r1 = mkReader 0 s [mkRange off (zlen payload) payload]).
    { revert Hload. unfold sb_load_range, malloc_node, malloc.
      cbn [rpos rsize ranges].
      destruct (zlen payload =? 0);
        [intros H; inversion H; subst; discriminate |].
      destruct (0 +! zlen payload >? s);
        [intros H; inversion H; subst; discriminate |].
      destruct (alloc_next al1) as [[|] al3]; cbn [negb];
        [| intros H; inversion H; subst; discriminate].
      destruct (alloc_next al3) as [[|] al4];
        [| intros H; inversion H; subst; discriminate].
      rewrite memcpy_whole by reflexivity. cbn [bind].
      intros H; inversion H; subst. reflexivity. }
    assert (Hlen : 0 < zlen payload).
    { revert Hload. unfold sb_load_range.
      destruct (Z.eqb_spec (zlen payload) 0);
        [intros H; inversion H; subst; discriminate |].
      pose proof (zlen_nonneg payload). lia. }
    rewrite Hr1.
    destruct (sb_read_general
                (mkReader 0 s [mkRange off (zlen payload) payload]) buf s)
      as (b & H1 & _); cbn [rpos rsize ranges gapped]; try lia.
    { unfold range_ok. cbn [pos size data]. splits; try lia; exact I. }
    destruct (H1 ltac:(cbn [rpos rsize]; lia)) as (E & Hb).
    exists b. split; [exact E |].
    intros i Hi. rewrite (Hb i Hi). cbn [ranges rpos].
    rewrite byte_at_single. cbn [pos size data]. reflexivity.
Qed.

(** C5.  [sb_read] leaves the reader as it was, whether it succeeds or
    fails: the cursor, the size and the ranges are unchanged. *)
Theorem sb_read_frame (rd : SBReader) (buf : list byte) (n : Z)
  (r : result (Z * list byte)) :
  sb_read rd buf n = Some r ->
  reader r = rd /\
  rpos (reader r) = rpos rd /\ rsize (reader r) = rsize rd /\
  ranges (reader r) = ranges rd.
Proof.
  intros H. assert (E : reader r = rd); [| now rewrite E].
  revert H. unfold sb_read.
  destruct (n =? 0); [intros H; inversion H; reflexivity |].
  destruct (read_loop (ranges rd) (rpos rd) 0 n buf)
    as [[[[off opos] rem] b] |]; cbn [bind]; [| discriminate].
  destruct ((rem >? 0) && (off <? rsize rd)).
  - destruct (memset0 b opos _) as [b' |]; cbn [bind]; [| discriminate].
    destruct (negb _); intros H; inversion H; reflexivity.
  - cbn [bind]. destruct (negb _); intros H; inversion H; reflexivity.
Qed.

(** C4.  [sb_remove_range(start, end)] with [end >= size] or [end < start]
    is rejected and changes nothing.  Otherwise, for ranges in order and an
    allocator that does not fail, the call returns [0] without an error,
    leaves the cursor and the size as they were, and the ranges of the
    reader it leaves are the old ranges, each replaced at its place by what
    [cut_range] leaves of it: a range outside the interval stays, a range
    inside the interval is unlinked, a range that contains the interval
    strictly is split into the part before [start] and the part after
    [end], the second right after the first, each with its slice of the
    payload, and a range over one boundary keeps its prefix or its suffix.
    In the reader that the call leaves every byte of the inclusive interval
    is unloaded and reads as zero, every other loaded byte is loaded with
    the value it had, and nothing else is loaded. *)
Theorem sb_remove_range_contract :
  (forall rd start end_ al,
     rsize rd <= end_ \/ end_ < start ->
     sb_remove_range rd start end_ al =
       Some (mkResult (-1) rd (msg "Invalid range."), al)) /\
  (forall rd start end_ al,
     gapped 0 (ranges rd) -> rsize rd < 2 ^ w ->
     0 <= start <= end_ -> end_ < rsize rd -> never_fails al ->
     exists r al',
       sb_remove_range rd start end_ al = Some (r, al') /\
       ret r = 0 /\ error r = None /\
       rpos (reader r) = rpos rd /\ rsize (reader r) = rsize rd /\
       ranges (reader r) = flat_map (cut_range start end_) (ranges rd) /\
       (forall o,
          loaded (ranges (reader r)) o =
            if (start <=? o) && (o <=? end_) then None
            else loaded (ranges rd) o) /\
       (forall o, start <= o <= end_ -> byte_at (ranges (reader r)) o = zero)) /\
  (forall start end_ e,
     start <= end_ -> 0 < size e ->
     (pos e + size e - 1 < start \/ end_ < pos e ->
      cut_range start end_ e = [e]) /\
     (start <= pos e -> pos e + size e - 1 <= end_ ->
      start <= pos e + size e - 1 -> pos e <= end_ ->
      cut_range start end_ e = []) /\
     (pos e < start -> end_ < pos e + size e - 1 ->
      cut_range start end_ e =
        [mkRange (pos e) (start - pos e)
           (firstn (Z.to_nat (start - pos e)) (data e));
         mkRange (end_ + 1) (pos e + size e - 1 + 1 - (end_ + 1))
           (skipn (Z.to_nat (end_ + 1 - pos e)) (data e))]) /\
     (pos e < start -> start <= pos e + size e - 1 ->
      pos e + size e - 1 <= end_ ->
      cut_range start end_ e =
        [mkRange (pos e) (start - pos e)
           (firstn (Z.to_nat (start - pos e)) (data e))]) /\
     (start <= pos e -> pos e <= end_ -> end_ < pos e + size e - 1 ->
      cut_range start end_ e =
        [mkRange (end_ + 1) (size e - (end_ + 1 - pos e))
           (skipn (Z.to_nat (end_ + 1 - pos e)) (data e))])).
Proof.
  splits.
  - intros. now apply sb_remove_range_invalid.
  - intros rd start end_ al Hg Hsize Hse Hend Hal.
    destruct (sb_remove_range_run rd start end_ al Hg Hsize Hse Hend Hal)
      as (al' & E & _).
    assert (Hcut : forall o,
              loaded (flat_map (cut_range start end_) (ranges rd)) o =
                if (start <=? o) && (o <=? end_) then None
                else loaded (ranges rd) o).
    { intros o. apply cut_loaded with (lo := 0); [lia | exact Hg]. }
    do 2 eexists. split; [exact E |].
    cbn [ret error reader set_ranges rpos rsize ranges].
    splits; try reflexivity; [exact Hcut |].
    intros o Ho. unfold byte_at. rewrite Hcut.
    destruct (Z.leb_spec start o); destruct (Z.leb_spec o end_);
      cbn [andb]; try lia; reflexivity.
  - intros start end_ e Hse He.
    exact (cut_range_cases start end_ e Hse He).
Qed.

(** A removal keeps the invariants of the data model. *)
Lemma sb_remove_range_keeps_inv (rd : SBReader) (start end_ : Z)
  (al : allocator) :
  sb_inv rd -> 0 <= start <= end_ -> end_ < rsize rd -> never_fails al ->
  exists r al',
    sb_remove_range rd start end_ al = Some (r, al') /\ ret r = 0 /\
    sb_inv (reader r).
Proof.
  intros (Hpos & Hsize & Hg & Hw) Hse Hend Hal.
  destruct (sb_remove_range_run rd start end_ al Hg Hsize Hse Hend Hal)
    as (al' & E & _).
  eexists. exists al'. split; [exact E |]. split; [reflexivity |].
  unfold sb_inv. cbn [reader set_ranges rpos rsize ranges].
  splits; try assumption; try lia.
  - now apply cut_gapped.
  - now apply cut_within.
Qed.

(** A load whose range lies inside the size keeps the invariants of the
    data model. *)
Lemma sb_load_range_keeps_inv (rd : SBReader) (p : Z) (buf : list byte)
  (al : allocator) :
  sb_inv rd -> 0 <= p -> 0 < zlen buf -> p + zlen buf <= rsize rd ->
  rpos rd +! zlen buf <= rsize rd -> never_fails al ->
  exists r al',
    sb_load_range rd p buf (zlen buf) al = Some (r, al') /\ ret r = 0 /\
    sb_inv (reader r).
Proof.
  intros (Hpos & Hsize & Hg & Hw) Hp Hlen Hend Hfit Hal.
  destruct (sb_load_range_ok rd p buf al (rsize rd))
    as (rs' & al' & E & Hg' & Hw' & _); try assumption; try lia.
  eexists. exists al'. split; [exact E |]. split; [reflexivity |].
  unfold sb_inv. cbn [reader set_ranges rpos rsize ranges].
  splits; try assumption; lia.
Qed.

Lemma within_mono (es : list Range) (hi hi' : Z) :
  within hi es -> hi <= hi' -> within hi' es.
Proof.
  intros H Hle. unfold within in *.
  eapply Forall_impl; [| exact H]. cbn. intros. lia.
Qed.

Lemma loaded_outside (es : list Range) (hi o : Z) :
  within hi es -> hi <= o -> loaded es o = None.
Proof.
  intros H Ho. induction H as [| e es He H IH]; [reflexivity |].
  rewrite loaded_tail by lia. exact IH.
Qed.

(** What [sb_resize] does, case by case.  The size [0] is rejected and
    changes nothing.  With ranges
    in order and an allocator that does not fail, a smaller size removes
    the loaded data of [[newsize, oldsize - 1]], lowers the cursor to the
    new size if it was beyond, and sets the size; under the invariants of
    the data model nothing is loaded from the new size on afterwards, and
    the invariants hold again.  A larger size only sets the size: no range
    is added, and under the invariants nothing is loaded in the new tail,
    which reads as zero.  The current size leaves the reader as it was. *)
Theorem sb_resize_contract :
  (forall rd al,
     sb_resize rd 0 al =
       Some (mkResult (-1) rd (msg "Cannot resize to zero size."), al)) /\
  (forall rd n al,
     gapped 0 (ranges rd) -> rsize rd < 2 ^ w -> 0 < n < rsize rd ->
     never_fails al ->
     exists al',
       sb_resize rd n al =
         Some (mkResult 0
                 (mkReader (Z.min (rpos rd) n) n
                    (flat_map (cut_range n (rsize rd - 1)) (ranges rd)))
                 None, al') /\
       (forall o,
          loaded (flat_map (cut_range n (rsize rd - 1)) (ranges rd)) o =
            if (n <=? o) && (o <=? rsize rd - 1) then None
            else loaded (ranges rd) o) /\
       (sb_inv rd ->
        sb_inv (mkReader (Z.min (rpos rd) n) n
                  (flat_map (cut_range n (rsize rd - 1)) (ranges rd))) /\
        forall o, n <= o ->
          loaded (flat_map (cut_range n (rsize rd - 1)) (ranges rd)) o
            = None)) /\
  (forall rd n al,
     0 < n -> rsize rd < n ->
     sb_resize rd n al =
       Some (mkResult 0 (mkReader (rpos rd) n (ranges rd)) None, al) /\
     (sb_inv rd -> n < 2 ^ w ->
      (forall o, rsize rd <= o -> byte_at (ranges rd) o = zero) /\
      forall c k buf,
        rsize rd <= c -> 0 < k -> c + k <= n -> k <= zlen buf ->
        exists b,
          sb_read (mkReader c n (ranges rd)) buf k =
            Some (mkResult (k, b) (mkReader c n (ranges rd)) None) /\
          forall i, 0 <= i < k -> zth b i = zero)) /\
  (forall rd al,
     0 < rsize rd ->
     sb_resize rd (rsize rd) al = Some (mkResult 0 rd None, al)).
Proof.
  splits.
  - intros rd al. reflexivity.
  - intros rd n al Hg Hsize Hn Hal.
    unfold sb_resize.
    destruct (Z.eqb_spec n 0) as [| _]; [lia |].
    destruct (Z.ltb_spec n (rsize rd)) as [_ |]; [| lia].
    rewrite (sub_small (rsize rd) 1) by lia.
    destruct (sb_remove_range_run rd n (rsize rd - 1) al Hg Hsize)
      as (al' & E & _); try assumption; try lia.
    rewrite E. cbn [bind ret reader error].
    assert (Hcut : forall o,
              loaded (flat_map (cut_range n (rsize rd - 1)) (ranges rd)) o =
                if (n <=? o) && (o <=? rsize rd - 1) then None
                else loaded (ranges rd) o).
    { intros o. apply cut_loaded with (lo := 0); [lia | exact Hg]. }
    exists al'. splits.
    + change (0 <? 0) with false. cbv iota. f_equal. f_equal.
      unfold set_rsize, set_rpos, set_ranges. rewrite Z.gtb_ltb.
      cbn [rpos rsize ranges].
      destruct (Z.ltb_spec n (rpos rd)); cbn [rpos rsize ranges];
        repeat f_equal; lia.
    + exact Hcut.
    + intros (Hpos & _ & _ & Hw). split.
      * unfold sb_inv. cbn [rpos rsize ranges]. splits; try lia.
        -- apply cut_gapped; [lia | assumption].
        -- apply cut_within_start with (lo := 0);
             [lia | assumption | assumption].
      * intros o Ho. rewrite Hcut.
        destruct (Z.leb_spec n o); destruct (Z.leb_spec o (rsize rd - 1));
          cbn [andb]; try lia; try reflexivity.
        apply loaded_outside with (hi := rsize rd); [assumption | lia].
  - intros rd n al Hn Hgrow. split.
    + unfold sb_resize.
      destruct (Z.eqb_spec n 0) as [| _]; [lia |].
      destruct (Z.ltb_spec n (rsize rd)) as [| _]; [lia |]. reflexivity.
    + intros (Hpos & Hsize & Hg & Hw) Hn2.
      assert (Hzero : forall o, rsize rd <= o -> byte_at (ranges rd) o = zero).
      { intros o Ho. unfold byte_at.
        now rewrite (loaded_outside (ranges rd) (rsize rd) o Hw Ho). }
      split; [exact Hzero |].
      intros c k buf Hc Hk Hck Hbuf.
      assert (Hinv : sb_inv (mkReader c n (ranges rd))).
      { unfold sb_inv. cbn [rpos rsize ranges]. splits; try assumption; try lia.
        apply within_mono with (hi := rsize rd); [assumption | lia]. }
      destruct (sb_read_inv _ buf k Hinv ltac:(lia) Hbuf) as (b & H1 & _).
      destruct (H1 ltac:(cbn [rpos rsize]; lia)) as (E & Hb).
      exists b. split; [exact E |].
      intros i Hi. rewrite (Hb i Hi). cbn [rpos ranges]. apply Hzero. lia.
  - intros rd al Hsize. unfold sb_resize.
    destruct (Z.eqb_spec (rsize rd) 0) as [| _]; [lia |].
    rewrite Z.ltb_irrefl. now destruct rd.
Qed.


(** C10.  In the mode [SB_CUR] the target is [(offset + cursor) mod 2^w]:
    when the exact sum is at least [2^w] and the reduced value is at most
    the size, [sb_seek] succeeds and sets the cursor to the reduced
    value. *)
Theorem sb_seek_cur_wraps (rd : SBReader) (offset : Z) :
  2 ^ w <= offset + rpos rd ->
  (offset + rpos rd) mod 2 ^ w <= rsize rd ->
  sb_seek rd offset SB_CUR =
    mkResult (0, Some ((offset + rpos rd) mod 2 ^ w))
      (set_rpos rd ((offset + rpos rd) mod 2 ^ w)) None /\
  rpos (reader (sb_seek rd offset SB_CUR)) = (offset + rpos rd) mod 2 ^ w.
Proof.
  intros Hover Hfit.
  assert (E : sb_seek rd offset SB_CUR =
              mkResult (0, Some ((offset + rpos rd) mod 2 ^ w))
                (set_rpos rd ((offset + rpos rd) mod 2 ^ w)) None).
  { unfold sb_seek, SB_SET, SB_CUR, add, wrap. cbn [Z.eqb Pos.eqb].
    rewrite Z.gtb_ltb.
    destruct (Z.ltb_spec (rsize rd) ((offset + rpos rd) mod 2 ^ w));
      [lia | reflexivity]. }
  split; [exact E |]. rewrite E. reflexivity.
Qed.

(** ** Loads whose range runs over the end of [size_t] *)

Lemma add_wrapped (a b : Z) :
  2 ^ w <= a + b < 2 * 2 ^ w -> a +! b = a + b - 2 ^ w.
Proof.
  intros H. unfold add, wrap. symmetry.
  apply Z.mod_unique with (q := 1); lia.
Qed.

(** The sum [pos + size] of such a range wraps: it can only merge with a
    range that contains it in the machine's eyes, and the merge is that
    range. *)
Lemma merge_wrapping (r e : Range) (al al' : allocator) :
  0 <= pos r < 2 ^ w -> 0 < size r < 2 ^ w -> 2 ^ w <= pos r + size r ->
  range_ok e -> alloc_next al = (true, al') ->
  (intersects r e = false /\ merge r e al = Some (NotMerged, al)) \/
  merge r e al = Some (Merged e, al').
Proof.
  intros Hp Hs Hwrap (He0 & He1 & He2 & He3) Hal.
  unfold merge, intersects, contains, malloc.
  rewrite (add_wrapped (pos r) (size r)) by lia.
  rewrite (add_small (pos e) (size e)) by lia.
  rewrite !Z.geb_leb.
  destruct (Z.ltb_spec (pos r + size r - 2 ^ w) (pos e));
    destruct (Z.ltb_spec (pos e + size e) (pos r)); cbn [orb negb];
    try (left; split; reflexivity).
  right.
  destruct (Z.leb_spec (pos r) (pos e)); [lia |]. cbn [andb].
  destruct (Z.leb_spec (pos e) (pos r)); [| lia].
  destruct (Z.leb_spec (pos r + size r - 2 ^ w) (pos e + size e)); [| lia].
  cbn [andb]. rewrite Hal. rewrite memcpy_whole by assumption. cbn [bind].
  destruct e; reflexivity.
Qed.

Lemma merge_scan_wrapping (r : Range) (es : list Range) :
  0 <= pos r < 2 ^ w -> 0 < size r < 2 ^ w -> 2 ^ w <= pos r + size r ->
  forall lo al, gapped lo es -> never_fails al ->
    merge_scan r es al = Some (ScanNone, al) \/
    exists pre e rest al',
      es = pre ++ e :: rest /\
      merge_scan r es al = Some (ScanMerged (length pre) es, al') /\
      never_fails al'.
Proof.
  intros Hp Hs Hwrap. induction es as [| e es IH]; intros lo al Hg Hal.
  - left. reflexivity.
  - destruct Hg as (Hlo & Hok & Hg).
    destruct (never_fails_next al Hal) as (al1 & Ea1 & Hal1).
    cbn [merge_scan].
    destruct (merge_wrapping r e al al1 Hp Hs Hwrap Hok Ea1)
      as [(_ & E) | E]; rewrite E; cbn [bind].
    + destruct (IH _ al Hg Hal)
        as [E' | (pre & e' & rest & al' & Ees & E' & Hal')];
        rewrite E'; cbn [bind].
      * left. reflexivity.
      * right. exists (e :: pre), e', rest, al'.
        rewrite Ees. splits; try reflexivity. exact Hal'.
    + right. exists [], e, es, al1. splits; try reflexivity. exact Hal1.
Qed.

Lemma find_pos_in (l : list Range) (e : Range) :
  In e l -> exists j, find_pos l (pos e) = Some j.
Proof.
  induction l as [| x l IH]; intros H; [contradiction |].
  cbn [find_pos]. destruct (Z.eqb_spec (pos x) (pos e)); [now exists O |].
  destruct H as [-> | H]; [contradiction |].
  destruct (IH H) as (j & ->). now exists (S j).
Qed.

(** With ranges in order and an allocator that does not fail, every load
    that passes the two checks returns [0], whatever the offset. *)
Lemma sb_load_range_accepts (rd : SBReader) (p : Z) (buf : list byte)
  (al : allocator) :
  gapped 0 (ranges rd) -> 0 <= p < 2 ^ w -> 0 < zlen buf < 2 ^ w ->
  rpos rd +! zlen buf <= rsize rd -> never_fails al ->
  exists rs' al',
    sb_load_range rd p buf (zlen buf) al =
      Some (mkResult 0 (set_ranges rd rs') None, al').
Proof.
  intros Hg Hp Hlen Hfit Hal.
  destruct (Z_lt_le_dec (p + zlen buf) (2 ^ w)) as [Hin | Hwrap].
  { destruct (sb_load_range_ok rd p buf al (2 ^ w - 1))
      as (rs' & al' & E & _); try assumption; try lia.
    - apply within_ok with (lo := 0). exact Hg.
    - exists rs', al'. exact E. }
  set (r := mkRange p (zlen buf) buf).
  destruct (never_fails_next al Hal) as (al1 & Ea1 & Hal1).
  destruct (never_fails_next al1 Hal1) as (al2 & Ea2 & Hal2).
  unfold sb_load_range, malloc_node, malloc.
  destruct (Z.eqb_spec (zlen buf) 0) as [| _]; [lia |].
  rewrite Z.gtb_ltb.
  destruct (Z.ltb_spec (rsize rd) (rpos rd +! zlen buf)) as [| _]; [lia |].
  rewrite Ea1. cbn [negb]. rewrite Ea2.
  rewrite memcpy_whole by reflexivity. cbn [bind]. fold r.
  destruct (ranges rd) as [| e0 es0] eqn:Ers.
  { exists [r], al2. reflexivity. }
  destruct (merge_scan_wrapping r (e0 :: es0)) with (lo := 0) (al := al2)
    as [E | (pre & e & rest & al3 & Ees & E & Hal3)];
    try assumption; try (cbn [r pos size]; lia); rewrite E; cbn [bind].
  - destruct (find (fun e => pos r <? pos e) (e0 :: es0)) as [e |] eqn:Ef.
    + apply find_some in Ef. destruct Ef as (Hin & _).
      destruct (find_pos_in _ _ Hin) as (j & Ej).
      unfold range_insert_before. rewrite Ej. cbn [bind].
      eexists. exists al2. reflexivity.
    + cbn [range_insert_end bind]. eexists. exists al2. reflexivity.
  - rewrite Ees in *.
    apply gapped_mid in Hg. destruct Hg as (Hg1 & Hlt & _ & Hok & Hg2).
    assert (Hok1 : Forall range_ok pre) by (apply gapped_ok in Hg1; exact Hg1).
    destruct (merge_chain_spec (2 ^ w - 1) rest pre e (pos e + size e + 1)
                (length (pre ++ e :: rest)) al3)
      as (m' & rest' & al4 & E' & _); try assumption.
    { destruct Hok as (? & ? & ? & ?). lia. }
    { rewrite Forall_forall in *. intros x Hx.
      specialize (Hlt x Hx). specialize (Hok1 x Hx).
      destruct Hok1 as (? & ? & ? & ?). lia. }
    { apply within_ok with (lo := pos e + size e + 1). exact Hg2. }
    { destruct Hok as (? & ? & ? & ?). lia. }
    { rewrite length_app. cbn [length]. lia. }
    rewrite E'. cbn [bind]. eexists. exists al4. reflexivity.
Qed.

(** C8 (as the code has it).  [sb_load_range] rejects with an error and
    without any change the loads of zero bytes and the loads with
    [(cursor + length) mod 2^w > size]; the check reads the cursor, not
    the offset.  With ranges in order and an allocator that does not fail
    every other load is accepted, whatever its offset. *)
Theorem sb_load_range_validation :
  (forall rd p buf n al,
     n = 0 \/ rsize rd < (rpos rd + n) mod 2 ^ w ->
     exists m,
       sb_load_range rd p buf n al = Some (mkResult (-1) rd (Some m), al)) /\
  (forall rd p buf al,
     gapped 0 (ranges rd) -> 0 <= p < 2 ^ w -> 0 < zlen buf < 2 ^ w ->
     (rpos rd + zlen buf) mod 2 ^ w <= rsize rd -> never_fails al ->
     exists rs' al',
       sb_load_range rd p buf (zlen buf) al =
         Some (mkResult 0 (set_ranges rd rs') None, al')).
Proof.
  split.
  - intros rd p buf n al H. unfold sb_load_range, add, wrap.
    destruct (Z.eqb_spec n 0) as [| Hn].
    + eexists. reflexivity.
    + rewrite Z.gtb_ltb.
      destruct (Z.ltb_spec (rsize rd) ((rpos rd + n) mod 2 ^ w)); [| lia].
      eexists. reflexivity.
  - intros rd p buf al Hg Hp Hlen Hfit Hal.
    now apply sb_load_range_accepts.
Qed.

(** C9.  In [sb_remove_range] the failure of the allocation for a range
    that sticks out at the right of the interval returns [1] (the range
    has its new start and size, and its old payload), while the failure of
    any other allocation - the reallocation for a range that sticks out at
    the left, the three allocations of a split - returns [-1]; this holds
    at every turn of the loop.  [sb_resize] takes only negative values for
    errors: after the failure at the right it returns [0] and sets the
    size. *)
Theorem remove_range_failure_codes :
  (forall fuel rs i e start end_ al,
     nth_error rs i = Some e ->
     0 <= pos e -> 0 < size e -> pos e + size e < 2 ^ w ->
     0 <= start <= end_ -> end_ + 1 < 2 ^ w ->
     (start <= pos e <= end_ -> end_ < pos e + size e - 1 ->
      exists rs',
        remove_loop (S fuel) rs i start end_ (false :: al) =
          Some (1, msg "Could not allocate new range data.", rs', al)) /\
     (pos e < start <= pos e + size e - 1 -> pos e + size e - 1 <= end_ ->
      exists rs',
        remove_loop (S fuel) rs i start end_ (false :: al) =
          Some (-1, msg "Could not realloc reduced range data.", rs', al)) /\
     (pos e < start -> end_ < pos e + size e - 1 ->
      zlen (data e) = size e ->
      exists rs',
        remove_loop (S fuel) rs i start end_ (false :: al) =
          Some (-1, msg "Could not allocate new range buffer.", rs, al) /\
        remove_loop (S fuel) rs i start end_ (true :: false :: al) =
          Some (-1, msg "Could not allocate new range data.", rs, al) /\
        (forall j, find_pos rs (pos e) = Some j ->
         remove_loop (S fuel) rs i start end_ (true :: true :: false :: al) =
           Some (-1, msg "Could not realloc split range data.", rs' j, al)))) /\
  (forall rd start end_ mid e rest al,
     reaches rd start end_ mid e rest ->
     start <= pos e <= end_ -> end_ < pos e + size e - 1 ->
     sb_remove_range rd start end_ (false :: al) =
       Some (mkResult 1
               (set_ranges rd
                  (mid ++ mkRange (end_ + 1) (size e - (end_ + 1 - pos e))
                            (data e) :: rest))
               (msg "Could not allocate new range data."), al) /\
     (0 < start -> end_ = rsize rd - 1 ->
      sb_resize rd start (false :: al) =
        Some (mkResult 0
                (mkReader (Z.min (rpos rd) start) start
                   (mid ++ mkRange (end_ + 1) (size e - (end_ + 1 - pos e))
                             (data e) :: rest))
                (msg "Could not allocate new range data."), al))).
Proof.
  split.
  - intros fuel rs i e start end_ al Hnth He0 He1 He3 Hse Hend. splits.
    + intros H1 H2. eexists.
      apply (remove_loop_right_failure fuel rs i e); assumption || lia.
    + intros H1 H2. eexists.
      apply (remove_loop_left_failure fuel rs i e); assumption || lia.
    + intros H1 H2 He2.
      exists (fun j =>
                list_set (if (j <? i)%nat then S i else i)
                  (mkRange (pos e) (start - pos e) (data e))
                  (list_ins (S j)
                     (mkRange (end_ + 1) (pos e + size e - 1 - end_)
                        (skipn (Z.to_nat (end_ + 1 - pos e)) (data e)))
                     rs)).
      cbn beta.
      assert (H12 :
        remove_loop (S fuel) rs i start end_ (false :: al) =
          Some (-1, msg "Could not allocate new range buffer.", rs, al) /\
        remove_loop (S fuel) rs i start end_ (true :: false :: al) =
          Some (-1, msg "Could not allocate new range data.", rs, al)).
      { split.
        all: rewrite (remove_loop_at fuel rs i e) by (assumption || lia).
        all: rewrite (Z.geb_leb (pos e) start),
               (Z.gtb_ltb (pos e + size e - 1) end_).
        all: destruct (Z.leb_spec start (pos e)) as [| _]; [lia |].
        all: destruct (Z.ltb_spec end_ (pos e + size e - 1)) as [_ |]; [| lia].
        all: destruct (Z.ltb_spec (pos e) start) as [_ |]; [| lia]; cbn [andb].
        all: unfold malloc_node, malloc; cbn [alloc_next negb]; reflexivity. }
      destruct H12 as (E1 & E2). splits; [exact E1 | exact E2 |].
      intros j Hj.
      apply (remove_loop_split_failure fuel rs i j e start end_ al);
        assumption || lia.
  - intros rd start end_ mid e rest al Hreach H1 H2.
    pose proof (remove_right_failure rd start end_ mid e rest al Hreach H1 H2)
      as E.
    split; [exact E |]. intros Hs Hend.
    destruct Hreach as (_ & _ & Hse & He & Hsize & _).
    unfold sb_resize.
    destruct (Z.eqb_spec start 0) as [| _]; [lia |].
    destruct (Z.ltb_spec start (rsize rd)) as [_ |]; [| lia].
    rewrite (sub_small (rsize rd) 1) by lia. rewrite <- Hend, E.
    cbn [bind ret reader error]. change (1 <? 0) with false. cbv iota.
    unfold set_rsize, set_rpos, set_ranges. rewrite Z.gtb_ltb.
    cbn [rpos rsize ranges].
    destruct (Z.ltb_spec start (rpos rd)); cbn [rpos rsize ranges];
      repeat f_equal; lia.
Qed.

(** * Further properties of the code *)

(** ** Construction, [sb_clear] and the accessors *)

Lemma bytes_left_exact (rd : SBReader) :
  0 <= rpos rd <= rsize rd -> rsize rd < 2 ^ w ->
  sb_bytes_left rd = rsize rd - rpos rd.
Proof. intros Hpos Hsize. unfold sb_bytes_left. apply sub_small. lia. Qed.

(** A read of [n > 0] bytes returns [n] exactly when it ends inside the
    size. *)
Lemma read_succeeds_iff (rd : SBReader) (buf : list byte) (n : Z) :
  sb_inv rd -> 0 < n < 2 ^ w -> n <= zlen buf ->
  exists r,
    sb_read rd buf n = Some r /\
    (fst (ret r) = n <-> rpos rd + n <= rsize rd).
Proof.
  intros Hinv Hn Hbuf.
  destruct (sb_read_inv rd buf n Hinv Hn Hbuf) as (b & Hok & Heof).
  destruct (Z_le_gt_dec (rpos rd + n) (rsize rd)) as [Hle | Hgt].
  - destruct (Hok Hle) as (E & _). rewrite E.
    eexists. split; [reflexivity |]. cbn [ret fst]. split; intros _; lia.
  - rewrite (Heof ltac:(lia)).
    eexists. split; [reflexivity |]. cbn [ret fst]. split; intros ?; lia.
Qed.

(** X1.  [sb_new_reader_custom_alloc] (and [sb_new_reader]) gives a reader
    exactly when the size is not zero and the allocation succeeds; the size
    zero is refused before any allocation.  The reader has its cursor at
    zero, the size asked for and nothing loaded: it satisfies the
    invariants of the data model, [sb_size] gives the size, and
    [sb_bytes_left] gives the size too. *)
Theorem sb_new_reader_contract (s : Z) (al : allocator) :
  0 <= s < 2 ^ w ->
  sb_new_reader s al = sb_new_reader_custom_alloc s al /\
  match sb_new_reader_custom_alloc s al with
  | (Some rd, e, al') =>
      s <> 0 /\ alloc_next al = (true, al') /\ e = None /\
      rpos rd = 0 /\ ranges rd = [] /\ sb_size rd = s /\
      sb_bytes_left rd = s /\ sb_inv rd /\
      forall o, byte_at (ranges rd) o = zero
  | (None, e, al') =>
      (s = 0 /\ e = msg "Invalid reader size." /\ al' = al) \/
      (s <> 0 /\ e = msg "Could not allocate SBReader." /\
       alloc_next al = (false, al'))
  end.
Proof.
  intros Hs. split; [reflexivity |].
  unfold sb_new_reader_custom_alloc, malloc_node.
  destruct (Z.eqb_spec s 0) as [E | E].
  - left. splits; [exact E | reflexivity | reflexivity].
  - destruct (alloc_next al) as [[|] al'] eqn:Eal.
    + unfold sb_size, sb_bytes_left, sb_inv, within.
      cbn [rpos rsize ranges gapped].
      rewrite sub_small by lia.
      splits; try reflexivity; try lia; try exact I. apply Forall_nil.
    + right. splits; [exact E | reflexivity | reflexivity].
Qed.

(** X2.  [sb_clear] unloads everything and touches nothing else: whatever
    the reader was, no range is left, no byte is loaded, the cursor, the
    size and [sb_bytes_left] are what they were, and clearing twice is
    clearing once.  When the cursor is within the size (and the size a
    [size_t] value), the cleared reader satisfies the invariants whatever
    the ranges were, and every read inside the size gives zeros. *)
Theorem sb_clear_reads_zero (rd : SBReader) :
  ranges (sb_clear rd) = [] /\
  (forall o, loaded (ranges (sb_clear rd)) o = None) /\
  rpos (sb_clear rd) = rpos rd /\ sb_size (sb_clear rd) = sb_size rd /\
  sb_bytes_left (sb_clear rd) = sb_bytes_left rd /\
  sb_clear (sb_clear rd) = sb_clear rd /\
  (0 <= rpos rd <= rsize rd -> rsize rd < 2 ^ w ->
   sb_inv (sb_clear rd) /\
   forall buf n,
     0 < n -> rpos rd + n <= rsize rd -> n <= zlen buf ->
     exists b,
       sb_read (sb_clear rd) buf n =
         Some (mkResult (n, b) (sb_clear rd) None) /\
       forall i, 0 <= i < n -> zth b i = zero).
Proof.
  splits; try reflexivity.
  intros Hpos Hsize.
  assert (Hinv : sb_inv (sb_clear rd)).
  { unfold sb_inv, sb_clear, set_ranges, within.
    cbn [rpos rsize ranges gapped].
    splits; try lia; try exact I. apply Forall_nil. }
  split; [exact Hinv |].
  intros buf n Hn Hfit Hbuf.
  destruct (sb_read_inv (sb_clear rd) buf n Hinv) as (b & H1 & _);
    [lia | exact Hbuf |].
  destruct (H1 Hfit) as (E & Hb).
  exists b. split; [exact E |].
  intros i Hi. rewrite (Hb i Hi). reflexivity.
Qed.

(** X3.  Under the invariants [sb_bytes_left] is the exact difference of
    the size and the cursor, and it is the length of the longest read that
    succeeds: a read of [n > 0] bytes returns [n] exactly when
    [n <= sb_bytes_left]. *)
Theorem sb_bytes_left_read (rd : SBReader) (buf : list byte) (n : Z) :
  sb_inv rd -> 0 < n < 2 ^ w -> n <= zlen buf ->
  sb_bytes_left rd = rsize rd - rpos rd /\
  0 <= sb_bytes_left rd <= sb_size rd /\
  exists r,
    sb_read rd buf n = Some r /\
    (fst (ret r) = n <-> n <= sb_bytes_left rd).
Proof.
  intros Hinv Hn Hbuf.
  pose proof Hinv as (Hpos & Hsize & _).
  pose proof (bytes_left_exact rd Hpos Hsize) as Hl.
  split; [exact Hl |].
  split; [unfold sb_size; lia |].
  destruct (read_succeeds_iff rd buf n Hinv Hn Hbuf) as (r & E & Hiff).
  exists r. split; [exact E |]. rewrite Hiff, Hl. lia.
Qed.

(** ** [sb_seek] *)

Lemma sb_seek_set (rd : SBReader) (p : Z) :
  p <= rsize rd ->
  sb_seek rd p SB_SET = mkResult (0, Some p) (set_rpos rd p) None.
Proof.
  intros Hp. unfold sb_seek. change (SB_SET =? SB_SET) with true. cbv iota.
  rewrite (Z.gtb_ltb p (rsize rd)).
  destruct (Z.ltb_spec (rsize rd) p) as [| _]; [lia | reflexivity].
Qed.

Lemma sb_seek_end (rd : SBReader) (k : Z) :
  0 <= k <= rsize rd -> rsize rd < 2 ^ w ->
  sb_seek rd k SB_END =
    mkResult (0, Some (rsize rd - k)) (set_rpos rd (rsize rd - k)) None.
Proof.
  intros Hk Hsize. unfold sb_seek.
  change (SB_END =? SB_SET) with false. change (SB_END =? SB_CUR) with false.
  change (SB_END =? SB_END) with true. cbv iota.
  rewrite (Z.gtb_ltb k (rsize rd)).
  destruct (Z.ltb_spec (rsize rd) k) as [| _]; [lia |].
  rewrite sub_small by lia.
  rewrite (Z.gtb_ltb (rsize rd - k) (rsize rd)).
  destruct (Z.ltb_spec (rsize rd) (rsize rd - k)) as [| _]; [lia | reflexivity].
Qed.

(** X4.  [sb_seek(k, SB_END)] with [k <= size] puts the cursor [k] bytes
    before the end: it returns [0], stores [size - k], leaves the size and
    the ranges as they were, and afterwards [sb_bytes_left] is [k].  When
    the reader satisfies the invariants of the data model, a read of
    [n > 0] bytes after the seek succeeds exactly when [n <= k]. *)
Theorem sb_seek_end_leaves (rd : SBReader) (k : Z) :
  0 <= k <= rsize rd -> rsize rd < 2 ^ w ->
  exists rd',
    sb_seek rd k SB_END = mkResult (0, Some (rsize rd - k)) rd' None /\
    rpos rd' = rsize rd - k /\ rsize rd' = rsize rd /\
    ranges rd' = ranges rd /\ sb_bytes_left rd' = k /\
    (sb_inv rd ->
     forall buf n,
       0 < n < 2 ^ w -> n <= zlen buf ->
       exists r,
         sb_read rd' buf n = Some r /\ (fst (ret r) = n <-> n <= k)).
Proof.
  intros Hk Hsize.
  exists (set_rpos rd (rsize rd - k)).
  split; [apply sb_seek_end; assumption |].
  do 3 (split; [reflexivity |]).
  split; [rewrite bytes_left_exact; cbn [set_rpos rpos rsize]; lia |].
  intros Hinv buf n Hn Hbuf.
  pose proof Hinv as (Hpos & _ & Hg & Hw).
  assert (Hinv' : sb_inv (set_rpos rd (rsize rd - k))).
  { unfold sb_inv, set_rpos. cbn [rpos rsize ranges]. splits; try lia;
      assumption. }
  destruct (read_succeeds_iff (set_rpos rd (rsize rd - k)) buf n
              Hinv' Hn Hbuf) as (r & Er & Hiff).
  cbn [set_rpos rpos rsize] in Hiff.
  exists r. split; [exact Er |]. rewrite Hiff. lia.
Qed.

(** X5.  [sb_seek] keeps the invariants of the data model for every
    offset and every value of [whence], also one outside the enumeration:
    the size and the ranges are never changed, a call that returns [0]
    reports no error and stores the new cursor in [*pos], and every other
    call returns [-1], reports an error and leaves the reader as it was.
    [sb_seek(0, SB_CUR)] reports the cursor and changes nothing. *)
Theorem sb_seek_keeps_inv (rd : SBReader) (offset whence : Z) :
  sb_inv rd -> 0 <= offset < 2 ^ w ->
  let r := sb_seek rd offset whence in
  sb_inv (reader r) /\
  rsize (reader r) = rsize rd /\ ranges (reader r) = ranges rd /\
  ((fst (ret r) = 0 /\ error r = None /\
    snd (ret r) = Some (rpos (reader r))) \/
   (fst (ret r) = -1 /\ error r <> None /\ snd (ret r) = None /\
    reader r = rd)) /\
  sb_seek rd 0 SB_CUR = mkResult (0, Some (rpos rd)) rd None.
Proof.
  intros Hinv Hoff.
  pose proof Hinv as (Hpos & Hsize & Hg & Hw).
  pose proof modulus_pos as Hm.
  assert (Hany : forall t,
            let r := if t >? rsize rd
                     then mkResult (-1, None) rd
                            (msg "Cannot seek past end of file.")
                     else mkResult (0, Some t) (set_rpos rd t) None in
            0 <= t ->
            sb_inv (reader r) /\
            rsize (reader r) = rsize rd /\ ranges (reader r) = ranges rd /\
            ((fst (ret r) = 0 /\ error r = None /\
              snd (ret r) = Some (rpos (reader r))) \/
             (fst (ret r) = -1 /\ error r <> None /\ snd (ret r) = None /\
              reader r = rd))).
  { intros t r Ht. subst r. rewrite (Z.gtb_ltb t (rsize rd)).
    destruct (Z.ltb_spec (rsize rd) t) as [Hlt | Hle].
    - splits; try reflexivity; [exact Hinv |].
      right. splits; try reflexivity. discriminate.
    - splits; try reflexivity.
      + unfold sb_inv, set_rpos. cbn [reader rpos rsize ranges].
        splits; try lia; assumption.
      + left. splits; reflexivity. }
  assert (Hfail : forall m,
            let r := mkResult (-1, @None Z) rd (msg m) in
            sb_inv (reader r) /\
            rsize (reader r) = rsize rd /\ ranges (reader r) = ranges rd /\
            ((fst (ret r) = 0 /\ error r = None /\
              snd (ret r) = Some (rpos (reader r))) \/
             (fst (ret r) = -1 /\ error r <> None /\ snd (ret r) = None /\
              reader r = rd))).
  { intros m r. subst r. splits; try reflexivity; [exact Hinv |].
    right. splits; try reflexivity. discriminate. }
  split; [| split; [| split; [| split]]].
  5: { unfold sb_seek.
       change (SB_CUR =? SB_SET) with false. change (SB_CUR =? SB_CUR) with true.
       cbv iota. rewrite add_small by lia. cbn [Z.add].
       rewrite (Z.gtb_ltb (rpos rd) (rsize rd)).
       destruct (Z.ltb_spec (rsize rd) (rpos rd)) as [| _]; [lia |].
       destruct rd; reflexivity. }
  all: cbv zeta; unfold sb_seek.
  all: destruct (whence =? SB_SET);
    [apply (Hany offset); lia |];
    destruct (whence =? SB_CUR);
    [apply (Hany (offset +! rpos rd)); apply wrap_range |];
    destruct (whence =? SB_END);
    [| apply Hfail];
    rewrite (Z.gtb_ltb offset (rsize rd));
    destruct (Z.ltb_spec (rsize rd) offset);
    [apply Hfail | apply (Hany (rsize rd -! offset)); apply wrap_range].
Qed.

(** ** The list of ranges *)

Lemma find_pos_none (rs : list Range) (p : Z) :
  Forall (fun r => pos r <> p) rs -> find_pos rs p = None.
Proof.
  induction 1 as [| r rs Hr _ IH]; cbn [find_pos]; [reflexivity |].
  destruct (Z.eqb_spec (pos r) p); [contradiction |].
  now rewrite IH.
Qed.

(** The ranges before a node of a list in order start elsewhere. *)
Lemma gapped_before (l1 l2 : list Range) (x : Range) (lo : Z) :
  gapped lo (l1 ++ x :: l2) ->
  Forall (fun p => pos p <> pos x) l1 /\ within (pos x) l1.
Proof.
  intros H. apply gapped_mid in H. destruct H as (H1 & Hf & _).
  apply gapped_ok in H1. unfold within.
  split; rewrite Forall_forall in *; intros p Hp;
    specialize (H1 p Hp); specialize (Hf p Hp);
    destruct H1 as (_ & ? & _); lia.
Qed.

Lemma gapped_without (l1 l2 : list Range) (x : Range) (lo : Z) :
  gapped lo (l1 ++ x :: l2) -> gapped lo (l1 ++ l2).
Proof.
  intros H. apply gapped_mid in H. destruct H as (H1 & Hf & Hlo & Hx & H2).
  destruct l2 as [| y l2]; [now rewrite app_nil_r |].
  destruct H2 as (Hy & Hyok & H2). destruct Hx as (_ & Hx & _).
  apply gapped_mid. splits; try assumption; try lia.
  eapply Forall_impl; [| exact Hf]. cbv beta. intros p Hp. lia.
Qed.

(** X6.  [range_remove] on a list in order unlinks the range that starts
    at the given offset and nothing else: the other ranges keep their
    order, the bytes of that range become unloaded and every other byte
    stays as it was.  When no range starts at the offset the [assert] of
    [range_remove] fails. *)
Theorem range_remove_unlinks (rs : list Range) (lo : Z) (e : Range) :
  gapped lo rs -> In e rs ->
  (exists pre rest,
     rs = pre ++ e :: rest /\
     range_remove rs (pos e) = Some (length pre, pre ++ rest) /\
     gapped lo (pre ++ rest) /\
     forall o,
       loaded (pre ++ rest) o =
         if (pos e <=? o) && (o <? pos e + size e) then None
         else loaded rs o) /\
  (forall p, Forall (fun r => pos r <> p) rs -> range_remove rs p = None).
Proof.
  intros Hg Hin. split.
  - destruct (in_split _ _ Hin) as (pre & rest & E). subst rs.
    exists pre, rest.
    destruct (gapped_before _ _ _ _ Hg) as (Hne & Hw).
    pose proof (gapped_without _ _ _ _ Hg) as Hg'.
    apply gapped_mid in Hg. destruct Hg as (_ & _ & _ & Hx & H2).
    splits; [reflexivity | | exact Hg' |].
    + unfold range_remove. rewrite (find_pos_mid pre rest e Hne).
      cbn [bind]. now rewrite list_del_mid.
    + intros o. rewrite !loaded_app.
      destruct (Z_lt_ge_dec o (pos e)) as [Hlt | Hge].
      * rewrite (loaded_tail e rest o) by lia. zcases; try lia; reflexivity.
      * rewrite (loaded_outside pre (pos e) o Hw) by lia.
        zcases; try lia;
          first [ now rewrite (loaded_tail e rest o) by lia
                | apply (loaded_below rest (pos e + size e + 1) o H2); lia ].
  - intros p Hp. unfold range_remove. now rewrite find_pos_none.
Qed.

(** X7.  The three insertions link the new range before the first range
    that starts at the given offset, after it, or at the end of the list,
    and leave the other ranges in place; [range_remove] at the start of the
    new range undoes each of them.  When no range starts at the offset the
    search of [range_insert_before] and [range_insert_after] runs off the
    list, and [range_insert_end] needs a list that is not empty. *)
Theorem range_insert_remove (pre rest : list Range) (x e : Range) :
  Forall (fun r => pos r <> pos x) pre ->
  Forall (fun r => pos r <> pos e) (pre ++ x :: rest) ->
  let rs := pre ++ x :: rest in
  (range_insert_before rs e (pos x) = Some (pre ++ e :: x :: rest) /\
   range_remove (pre ++ e :: x :: rest) (pos e) = Some (length pre, rs)) /\
  (range_insert_after rs e (pos x) = Some (length pre, pre ++ x :: e :: rest) /\
   range_remove (pre ++ x :: e :: rest) (pos e) = Some (S (length pre), rs)) /\
  (range_insert_end rs e = Some (rs ++ [e]) /\
   range_remove (rs ++ [e]) (pos e) = Some (length rs, rs)) /\
  (forall l p, Forall (fun r => pos r <> p) l ->
     range_insert_before l e p = None /\ range_insert_after l e p = None) /\
  range_insert_end [] e = None.
Proof.
  intros Hx He rs.
  assert (Hpre : Forall (fun r => pos r <> pos e) pre).
  { apply Forall_app in He. tauto. }
  assert (Hxe : pos x <> pos e).
  { apply Forall_app in He. destruct He as (_ & He).
    now inversion He. }
  splits.
  - unfold range_insert_before. subst rs.
    rewrite (find_pos_mid pre rest x Hx). cbn [bind].
    now rewrite list_ins_mid.
  - unfold range_remove.
    rewrite (find_pos_mid pre (x :: rest) e Hpre). cbn [bind].
    now rewrite list_del_mid.
  - unfold range_insert_after. subst rs.
    rewrite (find_pos_mid pre rest x Hx). cbn [bind].
    now rewrite list_ins_after.
  - unfold range_remove.
    rewrite (app_cons_assoc pre (e :: rest) x).
    rewrite (find_pos_mid (pre ++ [x]) rest e)
      by (apply Forall_snoc; assumption).
    cbn [bind]. rewrite list_del_mid, length_snoc.
    subst rs. now rewrite <- app_cons_assoc.
  - subst rs. unfold range_insert_end.
    destruct pre; reflexivity.
  - unfold range_remove.
    rewrite (find_pos_mid rs [] e He). cbn [bind].
    now rewrite list_del_mid, app_nil_r.
  - intros l p Hp. unfold range_insert_before, range_insert_after.
    now rewrite find_pos_none.
  - reflexivity.
Qed.

(** ** [intersects], [contains] and [merge] *)

(** X8.  For two well-formed ranges [intersects] holds exactly when the
    ranges overlap or touch, and it is symmetric; [contains a b] holds
    exactly when the extent of [b] lies inside the extent of [a]; a range
    that contains another one intersects it, and two ranges contain each
    other exactly when they have the same extent. *)
Theorem intersects_contains_facts (a b : Range) :
  range_ok a -> range_ok b ->
  (intersects a b = true <->
   pos b <= pos a + size a /\ pos a <= pos b + size b) /\
  (pos a + size a = pos b -> intersects a b = true) /\
  intersects a b = intersects b a /\
  (contains a b = true <->
   pos a <= pos b /\ pos b + size b <= pos a + size a) /\
  (contains a b = true -> intersects a b = true) /\
  (contains a b = true /\ contains b a = true <->
   pos a = pos b /\ size a = size b).
Proof.
  intros Ha Hb.
  pose proof (intersects_iff a b Ha Hb) as Hi.
  pose proof (contains_iff a b Ha Hb) as Hc.
  pose proof (contains_iff b a Hb Ha) as Hc'.
  pose proof Ha as (? & ? & _). pose proof Hb as (? & ? & _).
  splits.
  - exact Hi.
  - intros E. apply Hi. lia.
  - unfold intersects. now rewrite orb_comm.
  - exact Hc.
  - intros H3. apply Hi. apply Hc in H3. lia.
  - rewrite Hc, Hc'. lia.
Qed.

Lemma merge_apart (a b : Range) (al : allocator) :
  intersects a b = false -> merge a b al = Some (NotMerged, al).
Proof. intros H. unfold merge. now rewrite H. Qed.

Lemma merge_no_memory (a b : Range) (al al' : allocator) :
  intersects a b = true -> alloc_next al = (false, al') ->
  merge a b al = Some (MergeFail, al').
Proof.
  intros H Hal. unfold merge, malloc. rewrite H, Hal. cbn [negb].
  destruct (contains a b); [reflexivity |].
  destruct (contains b a); reflexivity.
Qed.

(** X9.  [merge] calls the allocator once when the two ranges intersect
    and not at all when they do not.  Ranges that do not intersect are
    reported as not merged; for ranges that intersect the call returns
    [-1] exactly when the allocation fails, and otherwise gives a
    well-formed range that runs from the lower start to the higher end. *)
Theorem merge_allocation (a b : Range) (al : allocator) :
  range_ok a -> range_ok b ->
  (intersects a b = false -> merge a b al = Some (NotMerged, al)) /\
  (intersects a b = true -> fst (alloc_next al) = false ->
   merge a b al = Some (MergeFail, snd (alloc_next al))) /\
  (intersects a b = true -> fst (alloc_next al) = true ->
   exists m,
     merge a b al = Some (Merged m, snd (alloc_next al)) /\
     range_ok m /\ zlen (data m) = size m /\
     pos m = Z.min (pos a) (pos b) /\
     pos m + size m = Z.max (pos a + size a) (pos b + size b)).
Proof.
  intros Ha Hb. splits.
  - apply merge_apart.
  - intros Hi Hal. apply merge_no_memory; [exact Hi |].
    destruct (alloc_next al); cbn [fst snd] in *. now subst.
  - intros Hi Hal.
    destruct (merge_ok a b al (snd (alloc_next al)) Ha Hb)
      as [(Hf & _) | (_ & m & E & Hm & Hp & Hs)].
    + destruct (alloc_next al); cbn [fst snd] in *. now subst.
    + congruence.
    + exists m. splits; try assumption. now destruct Hm as (_ & _ & ? & _).
Qed.

(** ** [sb_load_range] *)

(** The first loop of [sb_load_range] passes over the ranges that do not
    intersect the new one without a call of the allocator. *)
Lemma merge_scan_at (r : Range) (pre : list Range) (e : Range)
  (rest : list Range) (al : allocator) :
  Forall (fun q => intersects r q = false) pre ->
  merge_scan r (pre ++ e :: rest) al =
    match merge r e al with
    | Some (MergeFail, al') => Some (ScanFail, al')
    | Some (Merged m, al') =>
        Some (ScanMerged (length pre) (pre ++ m :: rest), al')
    | Some (NotMerged, al') =>
        '(s, al'') <- merge_scan r rest al' ;;
        match s with
        | ScanMerged i rs =>
            Some (ScanMerged (length pre + S i) (pre ++ e :: rs), al'')
        | _ => Some (s, al'')
        end
    | None => None
    end.
Proof.
  induction 1 as [| q pre Hq _ IH]; cbn [app merge_scan length].
  - destruct (merge r e al) as [[[| |m] al'] |]; cbn [bind]; try reflexivity;
      destruct (merge_scan r rest al') as [[[| |i rs] al''] |]; reflexivity.
  - rewrite (merge_apart r q al Hq). cbn [bind]. rewrite IH.
    destruct (merge r e al) as [[[| |m] al'] |]; cbn [bind]; try reflexivity;
      destruct (merge_scan r rest al') as [[[| |i rs] al''] |]; reflexivity.
Qed.

(** What [merge] gives does not depend on the answers of the allocator
    after the first one. *)
Lemma merge_with (a b m : Range) (al : allocator) :
  merge a b [] = Some (Merged m, []) ->
  merge a b (true :: al) = Some (Merged m, al).
Proof.
  unfold merge, malloc, alloc_next.
  destruct (negb (intersects a b)); [discriminate |].
  destruct (contains a b).
  { destruct (memcpy _ 0 (data a) 0 (size a)); cbn [bind]; congruence. }
  destruct (contains b a).
  { destruct (memcpy _ 0 (data b) 0 (size b)); cbn [bind]; congruence. }
  cbv zeta.
  match goal with
  | |- bind ?x _ = _ -> _ => destruct x; cbn [bind]; congruence
  end.
Qed.

(** The start of [sb_load_range] when the two checks pass and the two
    first allocations succeed: the new range is built. *)
Lemma sb_load_range_start (rd : SBReader) (p : Z) (buf : list byte)
  (al1 al2 al : allocator) :
  0 < zlen buf -> rpos rd +! zlen buf <= rsize rd ->
  alloc_next al = (true, al1) -> alloc_next al1 = (true, al2) ->
  sb_load_range rd p buf (zlen buf) al =
    let r := mkRange p (zlen buf) buf in
    match ranges rd with
    | [] => Some (mkResult 0 (set_ranges rd [r]) None, al2)
    | _ :: _ =>
        '(s, al3) <- merge_scan r (ranges rd) al2 ;;
        match s with
        | ScanFail =>
            Some (mkResult (-1) rd
                    (msg "Could not allocate merged buffer."), al3)
        | ScanMerged i rs =>
            '(ok, rs', al4) <- merge_chain (length rs) rs i al3 ;;
            if ok then Some (mkResult 0 (set_ranges rd rs') None, al4)
            else
              Some (mkResult (-1) (set_ranges rd rs')
                      (msg "Could not allocate merged buffer."), al4)
        | ScanNone =>
            rs' <- match find (fun e => pos r <? pos e) (ranges rd) with
                   | None => range_insert_end (ranges rd) r
                   | Some e => range_insert_before (ranges rd) r (pos e)
                   end ;;
            Some (mkResult 0 (set_ranges rd rs') None, al3)
        end
    end.
Proof.
  intros Hlen Hfit E1 E2.
  unfold sb_load_range, malloc_node, malloc.
  destruct (Z.eqb_spec (zlen buf) 0) as [| _]; [lia |].
  rewrite Z.gtb_ltb.
  destruct (Z.ltb_spec (rsize rd) (rpos rd +! zlen buf)) as [| _]; [lia |].
  rewrite E1. cbn [negb]. rewrite E2.
  rewrite memcpy_whole by reflexivity. cbn [bind]. reflexivity.
Qed.

(** X10.  A load that passes the two checks and then finds no memory for
    the node of the new range, for its payload, or for the first merged
    payload returns [-1] with the message of that allocation and leaves
    the reader exactly as it was. *)
Theorem sb_load_range_alloc_failures (rd : SBReader) (p : Z)
  (buf : list byte) (al : allocator) :
  0 < zlen buf -> rpos rd +! zlen buf <= rsize rd ->
  sb_load_range rd p buf (zlen buf) (false :: al) =
    Some (mkResult (-1) rd (msg "Could not allocate new range."), al) /\
  sb_load_range rd p buf (zlen buf) (true :: false :: al) =
    Some (mkResult (-1) rd
            (msg "Could not allocate buffer for spares list entry."), al) /\
  (forall pre e rest,
     ranges rd = pre ++ e :: rest ->
     Forall (fun q => intersects (mkRange p (zlen buf) buf) q = false) pre ->
     intersects (mkRange p (zlen buf) buf) e = true ->
     sb_load_range rd p buf (zlen buf) (true :: true :: false :: al) =
       Some (mkResult (-1) rd (msg "Could not allocate merged buffer."), al)).
Proof.
  intros Hlen Hfit.
  assert (Hchecks : forall al0,
    sb_load_range rd p buf (zlen buf) al0 =
      let (ok, al1) := malloc_node al0 in
      if negb ok then
        Some (mkResult (-1) rd (msg "Could not allocate new range."), al1)
      else
        let (d, al2) := malloc (zlen buf) al1 in
        match d with
        | None =>
            Some (mkResult (-1) rd
                    (msg "Could not allocate buffer for spares list entry."),
                  al2)
        | Some d0 => sb_load_range rd p buf (zlen buf) al0
        end).
  { intros al0. unfold sb_load_range at 1.
    destruct (Z.eqb_spec (zlen buf) 0) as [| _]; [lia |].
    rewrite Z.gtb_ltb.
    destruct (Z.ltb_spec (rsize rd) (rpos rd +! zlen buf)) as [| _]; [lia |].
    destruct (malloc_node al0) as [[|] al1] eqn:E1; cbn [negb];
      [| reflexivity].
    destruct (malloc (zlen buf) al1) as [[d0 |] al2] eqn:E2; [| reflexivity].
    unfold sb_load_range.
    destruct (Z.eqb_spec (zlen buf) 0) as [| _]; [lia |].
    rewrite Z.gtb_ltb.
    destruct (Z.ltb_spec (rsize rd) (rpos rd +! zlen buf)) as [| _]; [lia |].
    rewrite E1. cbn [negb]. rewrite E2. reflexivity. }
  splits.
  - rewrite Hchecks. reflexivity.
  - rewrite Hchecks. reflexivity.
  - intros pre e rest Ers Hpre Hi.
    rewrite (sb_load_range_start rd p buf (true :: false :: al) (false :: al))
      by (assumption || reflexivity).
    cbv zeta. rewrite Ers.
    destruct (pre ++ e :: rest) as [| e0 es0] eqn:El;
      [destruct pre; discriminate |].
    rewrite <- El. rewrite (merge_scan_at _ pre e rest _ Hpre).
    rewrite (merge_no_memory _ e (false :: al) al Hi eq_refl).
    reflexivity.
Qed.

(** X11.  A load is not undone when a later allocation fails.  When the
    new range has been merged into a stored range [e] and the merged range
    reaches the next stored range, the failure of the allocation for that
    second merge makes the call return [-1], but [e] has already been
    replaced by the merged range [m]: unless [e] contains the new range
    strictly, the buffer now reads as the new bytes laid over [e]. *)
Theorem sb_load_range_failed_keeps_merge (rd : SBReader) (p : Z)
  (buf : list byte) (al : allocator) (pre : list Range) (e e2 : Range)
  (rest : list Range) (m : Range) :
  0 < zlen buf -> rpos rd +! zlen buf <= rsize rd ->
  ranges rd = pre ++ e :: e2 :: rest ->
  Forall (fun q => intersects (mkRange p (zlen buf) buf) q = false) pre ->
  merge (mkRange p (zlen buf) buf) e [] = Some (Merged m, []) ->
  intersects m e2 = true ->
  sb_load_range rd p buf (zlen buf) (true :: true :: true :: false :: al) =
    Some (mkResult (-1) (set_ranges rd (pre ++ m :: e2 :: rest))
            (msg "Could not allocate merged buffer."), al) /\
  (range_ok (mkRange p (zlen buf) buf) -> range_ok e ->
   contains (mkRange p (zlen buf) buf) e = true \/
   contains e (mkRange p (zlen buf) buf) = false ->
   forall o, loaded [m] o = loaded [mkRange p (zlen buf) buf; e] o).
Proof.
  intros Hlen Hfit Ers Hpre Hm Hi. split.
  - rewrite (sb_load_range_start rd p buf
               (true :: true :: false :: al) (true :: false :: al))
      by (assumption || reflexivity).
    cbv zeta. rewrite Ers.
    destruct (pre ++ e :: e2 :: rest) as [| e0 es0] eqn:El;
      [destruct pre; discriminate |].
    rewrite <- El. rewrite (merge_scan_at _ pre e (e2 :: rest) _ Hpre).
    rewrite (merge_with _ e m (false :: al) Hm). cbn [bind].
    rewrite length_app. cbn [length].
    replace (length pre + S (S (length rest)))%nat
      with (S (length pre + S (length rest))) by lia.
    cbn [merge_chain].
    rewrite nth_error_mid. cbn [bind].
    rewrite (app_cons_assoc pre (e2 :: rest) m).
    replace (S (length pre)) with (length (pre ++ [m]))
      by apply length_snoc.
    rewrite nth_error_mid.
    rewrite (merge_no_memory m e2 (false :: al) al Hi eq_refl). cbn [bind].
    now rewrite <- app_cons_assoc.
  - intros Hr He Hc o.
    destruct (merge_loaded (mkRange p (zlen buf) buf) e [] [] Hr He eq_refl)
      as (m' & E & Hl).
    + destruct (intersects (mkRange p (zlen buf) buf) e) eqn:Ei;
        [reflexivity |].
      rewrite merge_apart in Hm by exact Ei. discriminate.
    + exact Hc.
    + rewrite E in Hm. injection Hm as ->. apply Hl.
Qed.

(** An offset inside a range of the list is loaded. *)
Lemma loaded_in (es : list Range) (e : Range) (o : Z) :
  In e es -> pos e <= o < pos e + size e -> loaded es o <> None.
Proof.
  intros Hin Ho. induction es as [| x es IH]; [contradiction |].
  cbn [loaded].
  destruct ((pos x <=? o) && (o <? pos x + size x)) eqn:Ex; [discriminate |].
  destruct Hin as [-> | Hin]; [| exact (IH Hin)].
  apply andb_false_iff in Ex.
  destruct Ex as [Ex | Ex]; [apply Z.leb_gt in Ex | apply Z.ltb_ge in Ex]; lia.
Qed.

(** [dropped] in plain words. *)
Lemma dropped_iff (r : Range) (es : list Range) :
  range_ok r -> Forall range_ok es ->
  dropped r es = true <-> Exists (covers_strictly (pos r) (size r)) es.
Proof.
  intros Hr Hes. unfold dropped, covers_strictly.
  rewrite existsb_exists, Exists_exists.
  split; intros (e & Hin & H); exists e; (split; [exact Hin |]);
    rewrite Forall_forall in Hes; specialize (Hes e Hin).
  - apply andb_prop in H. destruct H as (H1 & H2).
    apply negb_true_iff in H2.
    apply (contains_iff e r Hes Hr) in H1.
    apply (contains_false_iff r e Hr Hes) in H2. lia.
  - apply andb_true_intro. split.
    + apply (contains_iff e r Hes Hr). lia.
    + apply negb_true_iff. apply (contains_false_iff r e Hr Hes). lia.
Qed.

(** X12.  A load whose range lies inside the size, with an allocator that
    does not fail, returns [0] and keeps the invariants of the data model.
    It changes no byte outside the new range.  Inside the new range the
    last write wins, with one exception: when a stored range covers the
    new range and is larger, the load changes nothing.  Either way the
    whole new range is loaded afterwards, and no byte that was loaded is
    unloaded. *)
Theorem sb_load_range_effect (rd : SBReader) (p : Z) (buf : list byte)
  (al : allocator) :
  sb_inv rd -> 0 <= p -> 0 < zlen buf -> p + zlen buf <= rsize rd ->
  rpos rd + zlen buf <= rsize rd -> never_fails al ->
  exists rs' al',
    sb_load_range rd p buf (zlen buf) al =
      Some (mkResult 0 (set_ranges rd rs') None, al') /\
    sb_inv (set_ranges rd rs') /\ never_fails al' /\
    (forall o, o < p \/ p + zlen buf <= o ->
       loaded rs' o = loaded (ranges rd) o) /\
    (Exists (covers_strictly p (zlen buf)) (ranges rd) ->
     forall o, loaded rs' o = loaded (ranges rd) o) /\
    (~ Exists (covers_strictly p (zlen buf)) (ranges rd) ->
     forall o, p <= o < p + zlen buf ->
       loaded rs' o = Some (zth buf (o - p))) /\
    (forall o, p <= o < p + zlen buf \/ loaded (ranges rd) o <> None ->
       loaded rs' o <> None).
Proof.
  intros Hinv Hp Hlen Hend Hfit Hal.
  pose proof Hinv as (Hpos & Hsize & Hg & Hw).
  assert (Hfit' : rpos rd +! zlen buf <= rsize rd)
    by (rewrite add_small; lia).
  destruct (sb_load_range_ok rd p buf al (rsize rd) Hg Hw Hp Hlen)
    as (rs' & al' & E & Hg' & Hw' & Hal'); try assumption; try lia.
  destruct (sb_load_range_content rd p buf al Hg Hp Hlen)
    as (rs2 & al2 & E2 & Hl); try assumption; try lia.
  rewrite E in E2. injection E2 as <- <-.
  pose proof (dropped_iff (mkRange p (zlen buf) buf) (ranges rd)) as Hd.
  cbn [pos size] in Hd.
  assert (Hr : range_ok (mkRange p (zlen buf) buf))
    by (unfold range_ok; cbn [pos size data]; splits; lia).
  specialize (Hd Hr (gapped_ok _ _ Hg)).
  exists rs', al'. splits; try assumption.
  - exact (conj Hpos (conj Hsize (conj Hg' Hw'))).
  - intros o Ho. rewrite Hl.
    destruct (dropped _ _); [reflexivity |].
    zcases; try lia; reflexivity.
  - intros Hex o. rewrite Hl. apply Hd in Hex. now rewrite Hex.
  - intros Hex o Ho. rewrite Hl.
    destruct (dropped _ _) eqn:Ed; [exfalso; apply Hex, Hd; reflexivity |].
    zcases; try lia; reflexivity.
  - intros o Ho. rewrite Hl.
    destruct (dropped _ _) eqn:Ed.
    + destruct Ho as [Ho | Ho]; [| exact Ho].
      pose proof (proj1 Hd eq_refl) as Hex. apply Exists_exists in Hex.
      destruct Hex as (e & Hin & He1 & He2 & _).
      apply (loaded_in (ranges rd) e o Hin). lia.
    + zcases; try discriminate;
        (destruct Ho as [Ho | Ho]; [lia | exact Ho]).
Qed.

(** X13.  Load, seek, read: after a load of [buf] at [p] (inside the size,
    and not covered by a larger stored range), [sb_seek(p, SB_SET)]
    followed by a read of the length of [buf] gives the bytes of [buf]
    back. *)
Theorem load_seek_read (rd : SBReader) (p : Z) (buf out : list byte)
  (al : allocator) :
  sb_inv rd -> 0 <= p -> 0 < zlen buf -> p + zlen buf <= rsize rd ->
  rpos rd + zlen buf <= rsize rd -> never_fails al ->
  zlen buf <= zlen out ->
  ~ Exists (covers_strictly p (zlen buf)) (ranges rd) ->
  exists rd1 al1 rd2 b,
    sb_load_range rd p buf (zlen buf) al = Some (mkResult 0 rd1 None, al1) /\
    sb_seek rd1 p SB_SET = mkResult (0, Some p) rd2 None /\
    sb_read rd2 out (zlen buf) = Some (mkResult (zlen buf, b) rd2 None) /\
    forall i, 0 <= i < zlen buf -> zth b i = zth buf i.
Proof.
  intros Hinv Hp Hlen Hend Hfit Hal Hout Hex.
  pose proof Hinv as (Hpos & Hsize & Hg & Hw).
  assert (Hfit' : rpos rd +! zlen buf <= rsize rd)
    by (rewrite add_small; lia).
  destruct (sb_load_range_ok rd p buf al (rsize rd) Hg Hw Hp Hlen)
    as (rs' & al' & E & Hg' & Hw' & Hal'); try assumption; try lia.
  destruct (sb_load_range_content rd p buf al Hg Hp Hlen)
    as (rs2 & al2 & E2 & Hl); try assumption; try lia.
  rewrite E in E2. injection E2 as <- <-.
  assert (Hr : range_ok (mkRange p (zlen buf) buf))
    by (unfold range_ok; cbn [pos size data]; splits; lia).
  assert (Hd : dropped (mkRange p (zlen buf) buf) (ranges rd) = false).
  { destruct (dropped _ _) eqn:Ed; [| reflexivity].
    exfalso. apply Hex.
    apply (dropped_iff (mkRange p (zlen buf) buf) (ranges rd) Hr
             (gapped_ok _ _ Hg)). exact Ed. }
  rewrite Hd in Hl.
  set (rd2 := set_rpos (set_ranges rd rs') p).
  assert (Hinv2 : sb_inv rd2).
  { unfold sb_inv, rd2, set_rpos, set_ranges. cbn [rpos rsize ranges].
    splits; try assumption; lia. }
  destruct (sb_read_inv rd2 out (zlen buf) Hinv2) as (b & Hok & _);
    [lia | exact Hout |].
  destruct (Hok ltac:(cbn [rd2 set_rpos set_ranges rpos rsize]; lia))
    as (Er & Hb).
  exists (set_ranges rd rs'), al', rd2, b. splits.
  - exact E.
  - apply sb_seek_set. cbn [set_ranges rsize]. lia.
  - exact Er.
  - intros i Hi. rewrite (Hb i Hi).
    cbn [rd2 set_rpos set_ranges rpos ranges]. unfold byte_at.
    rewrite Hl. zcases; try lia. f_equal. lia.
Qed.

(** ** [sb_remove_range] and [sb_resize] *)

(** A range outside of the interval is left alone. *)
Lemma cut_range_id (start end_ : Z) (r : Range) :
  start <= end_ -> 0 < size r ->
  pos r + size r - 1 < start \/ end_ < pos r ->
  cut_range start end_ r = [r].
Proof.
  intros Hse Hr H.
  pose proof (cut_range_cases start end_ r Hse Hr) as C. cbv zeta in C.
  now apply C.
Qed.

(** What is left of a range is not cut again by the same interval. *)
Lemma cut_range_twice (start end_ : Z) (e : Range) :
  start <= end_ -> 0 < size e ->
  flat_map (cut_range start end_) (cut_range start end_ e)
    = cut_range start end_ e.
Proof.
  intros Hse He.
  pose proof (cut_range_cases start end_ e Hse He) as C. cbv zeta in C.
  destruct C as (C1 & C2 & C3 & C4 & C5).
  destruct (Z_lt_ge_dec (pos e + size e - 1) start) as [H1 | H1].
  { rewrite C1 by lia. cbn [flat_map]. rewrite C1 by lia. reflexivity. }
  destruct (Z_lt_ge_dec end_ (pos e)) as [H2 | H2].
  { rewrite C1 by lia. cbn [flat_map]. rewrite C1 by lia. reflexivity. }
  destruct (Z_lt_ge_dec (pos e) start) as [Hl | Hl];
    destruct (Z_lt_ge_dec end_ (pos e + size e - 1)) as [Hr | Hr].
  - rewrite C3 by lia. cbn [flat_map].
    rewrite !cut_range_id by (cbn [pos size]; lia). reflexivity.
  - rewrite C4 by lia. cbn [flat_map].
    rewrite !cut_range_id by (cbn [pos size]; lia). reflexivity.
  - rewrite C5 by lia. cbn [flat_map].
    rewrite !cut_range_id by (cbn [pos size]; lia). reflexivity.
  - rewrite C2 by lia. reflexivity.
Qed.

Lemma cut_twice (start end_ : Z) (es : list Range) :
  start <= end_ -> Forall range_ok es ->
  flat_map (cut_range start end_) (flat_map (cut_range start end_) es)
    = flat_map (cut_range start end_) es.
Proof.
  intros Hse. induction 1 as [| e es He _ IH]; [reflexivity |].
  cbn [flat_map]. rewrite flat_map_app, IH.
  rewrite cut_range_twice; [reflexivity | exact Hse |].
  now destruct He as (_ & ? & _).
Qed.

(** Ranges that end before the interval are left alone. *)
Lemma cut_before (start end_ : Z) (es : list Range) :
  start <= end_ -> within start es -> Forall range_ok es ->
  flat_map (cut_range start end_) es = es.
Proof.
  unfold within. intros Hse Hw Hok.
  induction es as [| e es IH]; [reflexivity |].
  inversion Hw as [| ? ? Hwe Hw']; subst.
  inversion Hok as [| ? ? Hoke Hok']; subst.
  cbn [flat_map]. rewrite (IH Hw' Hok').
  destruct Hoke as (_ & ? & _).
  rewrite cut_range_id by lia. reflexivity.
Qed.

(** A removal splits at most one range. *)
Lemma cut_length (start end_ : Z) (es : list Range) :
  start <= end_ ->
  forall lo, gapped lo es ->
    (length (flat_map (cut_range start end_) es) <= S (length es))%nat.
Proof.
  intros Hse. induction es as [| e es IH]; intros lo Hg; [cbn; lia |].
  destruct Hg as (Hlo & He & Hg).
  cbn [flat_map length]. rewrite length_app.
  assert (H2 : (length (cut_range start end_ e) <= 2)%nat).
  { unfold cut_range. cbv zeta.
    repeat match goal with |- context [if ?c then _ else _] => destruct c end;
      cbn [length]; lia. }
  destruct (Z_lt_ge_dec end_ (pos e + size e - 1)) as [Hin | Hout].
  - rewrite (cut_after start end_ es (pos e + size e + 1) Hg) by lia. lia.
  - specialize (IH _ Hg).
    assert (length (cut_range start end_ e) <= 1)%nat; [| lia].
    destruct He as (_ & He & _).
    pose proof (cut_range_cases start end_ e Hse He) as C. cbv zeta in C.
    destruct C as (C1 & C2 & _ & C4 & _).
    destruct (Z_lt_ge_dec (pos e + size e - 1) start) as [H1 | H1].
    { rewrite C1 by lia. cbn [length]. lia. }
    destruct (Z_lt_ge_dec (pos e) start) as [Hl | Hl].
    + rewrite C4 by lia. cbn [length]. lia.
    + rewrite C2 by lia. cbn [length]. lia.
Qed.

(** X14.  A removal is idempotent: the same call made again returns [0]
    and leaves the reader as the first call left it; the interval reads as
    zero. *)
Theorem sb_remove_range_idempotent (rd : SBReader) (start end_ : Z)
  (al : allocator) :
  gapped 0 (ranges rd) -> rsize rd < 2 ^ w ->
  0 <= start <= end_ -> end_ < rsize rd -> never_fails al ->
  exists rd1 al1 al2,
    sb_remove_range rd start end_ al = Some (mkResult 0 rd1 None, al1) /\
    sb_remove_range rd1 start end_ al1 = Some (mkResult 0 rd1 None, al2) /\
    forall o, start <= o <= end_ -> byte_at (ranges rd1) o = zero.
Proof.
  intros Hg Hsize Hse Hend Hal.
  destruct (sb_remove_range_run rd start end_ al Hg Hsize Hse Hend Hal)
    as (al1 & E1 & Hal1).
  set (rd1 := set_ranges rd (flat_map (cut_range start end_) (ranges rd))) in *.
  assert (Hg1 : gapped 0 (ranges rd1))
    by (apply cut_gapped; assumption).
  destruct (sb_remove_range_run rd1 start end_ al1 Hg1 Hsize Hse Hend Hal1)
    as (al2 & E2 & _).
  exists rd1, al1, al2. splits; [exact E1 | |].
  - rewrite E2. cbn [rd1 set_ranges ranges rpos rsize].
    rewrite cut_twice; [reflexivity | lia | apply (gapped_ok _ _ Hg)].
  - intros o Ho. unfold byte_at. cbn [rd1 set_ranges ranges].
    rewrite (cut_loaded start end_ (ranges rd) 0 o) by (lia || assumption).
    zcases; try lia; reflexivity.
Qed.

(** X15.  Removing the interval that a load has just filled gives the
    content that the same removal gives without the load: the load leaves
    no trace outside its own range. *)
Theorem load_then_remove (rd : SBReader) (p : Z) (buf : list byte)
  (al : allocator) :
  sb_inv rd -> 0 <= p -> 0 < zlen buf -> p + zlen buf <= rsize rd ->
  rpos rd + zlen buf <= rsize rd -> never_fails al ->
  exists rd1 al1 rd2 al2 rd3 al3,
    sb_load_range rd p buf (zlen buf) al = Some (mkResult 0 rd1 None, al1) /\
    sb_remove_range rd1 p (p + zlen buf - 1) al1
      = Some (mkResult 0 rd2 None, al2) /\
    sb_remove_range rd p (p + zlen buf - 1) al
      = Some (mkResult 0 rd3 None, al3) /\
    forall o, loaded (ranges rd2) o = loaded (ranges rd3) o.
Proof.
  intros Hinv Hp Hlen Hend Hfit Hal.
  pose proof Hinv as (Hpos & Hsize & Hg & Hw).
  assert (Hfit' : rpos rd +! zlen buf <= rsize rd)
    by (rewrite add_small; lia).
  destruct (sb_load_range_ok rd p buf al (rsize rd) Hg Hw Hp Hlen)
    as (rs' & al1 & E & Hg' & Hw' & Hal1); try assumption; try lia.
  destruct (sb_load_range_content rd p buf al Hg Hp Hlen)
    as (rs2 & al2 & E2 & Hl); try assumption; try lia.
  rewrite E in E2. injection E2 as <- <-.
  destruct (sb_remove_range_run (set_ranges rd rs') p (p + zlen buf - 1) al1)
    as (al2 & Er1 & _); try assumption; try (cbn [set_ranges rsize]; lia).
  destruct (sb_remove_range_run rd p (p + zlen buf - 1) al)
    as (al3 & Er3 & _); try assumption; try lia.
  do 6 eexists. splits; [exact E | exact Er1 | exact Er3 |].
  intros o. cbn [set_ranges ranges].
  rewrite (cut_loaded _ _ rs' 0 o) by (lia || assumption).
  rewrite (cut_loaded _ _ (ranges rd) 0 o) by (lia || assumption).
  rewrite Hl.
  destruct (dropped _ _); [reflexivity |].
  zcases; try lia; reflexivity.
Qed.

(** X16.  A removal on a valid interval, with an allocator that does not
    fail, returns [0], keeps the invariants of the data model and adds at
    most one range to the list (the split). *)
Theorem sb_remove_range_keeps_invariants (rd : SBReader) (start end_ : Z)
  (al : allocator) :
  sb_inv rd -> 0 <= start <= end_ -> end_ < rsize rd -> never_fails al ->
  exists rs' al',
    sb_remove_range rd start end_ al =
      Some (mkResult 0 (set_ranges rd rs') None, al') /\
    sb_inv (set_ranges rd rs') /\ never_fails al' /\
    (length rs' <= S (length (ranges rd)))%nat.
Proof.
  intros Hinv Hse Hend Hal.
  pose proof Hinv as (Hpos & Hsize & Hg & Hw).
  destruct (sb_remove_range_run rd start end_ al Hg Hsize Hse Hend Hal)
    as (al' & E & Hal').
  exists (flat_map (cut_range start end_) (ranges rd)), al'.
  splits; [exact E | | exact Hal' |].
  - refine (conj Hpos (conj Hsize (conj _ _))); cbn [set_ranges ranges rsize].
    + apply cut_gapped; assumption.
    + apply cut_within; assumption.
  - apply cut_length with (lo := 0); [lia | exact Hg].
Qed.

(** [sb_resize] to a smaller size, with an allocator that does not fail. *)
Lemma sb_resize_shrink (rd : SBReader) (n : Z) (al : allocator) :
  gapped 0 (ranges rd) -> rsize rd < 2 ^ w -> 0 < n < rsize rd ->
  never_fails al ->
  exists al',
    sb_resize rd n al =
      Some (mkResult 0
              (mkReader (Z.min (rpos rd) n) n
                 (flat_map (cut_range n (rsize rd - 1)) (ranges rd)))
              None, al') /\
    never_fails al'.
Proof.
  intros Hg Hsize Hn Hal.
  unfold sb_resize.
  destruct (Z.eqb_spec n 0) as [| _]; [lia |].
  destruct (Z.ltb_spec n (rsize rd)) as [_ |]; [| lia].
  rewrite (sub_small (rsize rd) 1) by lia.
  destruct (sb_remove_range_run rd n (rsize rd - 1) al Hg Hsize)
    as (al' & E & Hal'); try assumption; try lia.
  rewrite E. cbn [bind ret reader error].
  exists al'. split; [| exact Hal'].
  change (0 <? 0) with false. cbv iota. f_equal. f_equal.
  unfold set_rsize, set_rpos, set_ranges. rewrite Z.gtb_ltb.
  cbn [rpos rsize ranges].
  destruct (Z.ltb_spec n (rpos rd)); cbn [rpos rsize ranges];
    repeat f_equal; lia.
Qed.

Lemma sb_resize_grow (rd : SBReader) (n : Z) (al : allocator) :
  0 < n -> rsize rd <= n ->
  sb_resize rd n al = Some (mkResult 0 (set_rsize rd n) None, al).
Proof.
  intros Hn Hgrow. unfold sb_resize.
  destruct (Z.eqb_spec n 0) as [| _]; [lia |].
  destruct (Z.ltb_spec n (rsize rd)) as [| _]; [lia |]. reflexivity.
Qed.

(** X17.  For a reader that satisfies the invariants of the data model
    (cursor within the size, ranges in order and within the size), with a
    size that is not zero, and an allocator that does not fail: growing to
    a larger [size_t] value returns [0] and gives a reader that satisfies
    the invariants again and has the new size, and shrinking that reader
    back to the old size returns [0] and gives the reader back as it was:
    cursor, size, ranges and payloads.  (Without the invariants the way
    back can cut a range that was stored beyond the size.) *)
Theorem sb_resize_grow_shrink (rd : SBReader) (n : Z) (al : allocator) :
  sb_inv rd -> 0 < rsize rd -> rsize rd < n < 2 ^ w -> never_fails al ->
  exists rd1 al',
    sb_resize rd n al = Some (mkResult 0 rd1 None, al) /\
    sb_inv rd1 /\ sb_size rd1 = n /\
    sb_resize rd1 (rsize rd) al = Some (mkResult 0 rd None, al').
Proof.
  intros Hinv Hs Hn Hal.
  pose proof Hinv as (Hpos & Hsize & Hg & Hw).
  destruct (sb_resize_shrink (set_rsize rd n) (rsize rd) al)
    as (al' & E & _); try assumption; cbn [set_rsize rsize ranges]; try lia.
  exists (set_rsize rd n), al'. splits.
  - apply sb_resize_grow; lia.
  - unfold sb_inv. cbn [set_rsize rsize rpos ranges].
    refine (conj _ (conj _ (conj Hg _))); try lia.
    apply within_mono with (hi := rsize rd); [assumption | lia].
  - reflexivity.
  - rewrite E. cbn [set_rsize rpos rsize ranges].
    rewrite (cut_before (rsize rd) (n - 1) (ranges rd)) by
      (lia || assumption || apply (gapped_ok _ _ Hg)).
    rewrite Z.min_l by lia. now destruct rd.
Qed.

(** X18.  For a reader that satisfies the invariants of the data model
    and an allocator that does not fail: shrinking to a smaller size that
    is not zero and then growing back to the old size does not bring the
    data back.  Both calls return [0]; the reader has its old size, the
    cursor is the old one or the smaller size, the invariants hold, and
    the content is the old content below the smaller size and nothing
    from there on. *)
Theorem sb_resize_shrink_grow (rd : SBReader) (n : Z) (al : allocator) :
  sb_inv rd -> 0 < n < rsize rd -> never_fails al ->
  exists rd1 al1 rd2,
    sb_resize rd n al = Some (mkResult 0 rd1 None, al1) /\
    sb_resize rd1 (rsize rd) al1 = Some (mkResult 0 rd2 None, al1) /\
    sb_inv rd2 /\ sb_size rd2 = sb_size rd /\
    rpos rd2 = Z.min (rpos rd) n /\
    forall o,
      loaded (ranges rd2) o = if o <? n then loaded (ranges rd) o else None.
Proof.
  intros Hinv Hn Hal.
  pose proof Hinv as (Hpos & Hsize & Hg & Hw).
  destruct (sb_resize_shrink rd n al Hg Hsize Hn Hal) as (al1 & E & _).
  set (rs' := flat_map (cut_range n (rsize rd - 1)) (ranges rd)) in *.
  exists (mkReader (Z.min (rpos rd) n) n rs'), al1,
         (mkReader (Z.min (rpos rd) n) (rsize rd) rs').
  splits; try reflexivity.
  - exact E.
  - rewrite sb_resize_grow by (cbn [rsize]; lia). reflexivity.
  - unfold sb_inv. cbn [rpos rsize ranges].
    refine (conj _ (conj Hsize (conj _ _))); [lia | |].
    + apply cut_gapped; [lia | assumption].
    + apply cut_within; [lia | assumption].
  - intros o. cbn [ranges]. unfold rs'.
    rewrite (cut_loaded n (rsize rd - 1) (ranges rd) 0 o) by (lia || assumption).
    zcases; try lia; try reflexivity.
    apply loaded_outside with (hi := rsize rd); [assumption | lia].
Qed.

(** ** [sb_read] and its destination *)

(** What [sb_read] leaves in the destination: the content of the buffer
    from the cursor on, as far as the size or the last range go, in the
    first bytes; the other bytes are not written. *)
Lemma sb_read_filled (rd : SBReader) (buf : list byte) (n : Z) :
  0 <= rpos rd <= rsize rd -> rsize rd < 2 ^ w -> gapped 0 (ranges rd) ->
  0 < n < 2 ^ w -> n <= zlen buf ->
  exists b,
    sb_read rd buf n =
      Some (if n <=? Z.max (rsize rd) (reach (ranges rd) (rpos rd)) - rpos rd
            then mkResult (n, b) rd None
            else mkResult (0, b) rd (msg "Cannot read past EOF.")) /\
    filled (ranges rd) (rpos rd) 0
      (Z.min n (Z.max (rsize rd) (reach (ranges rd) (rpos rd)) - rpos rd))
      buf b.
Proof.
  intros Hpos Hsize Hg Hn Hbuf. unfold sb_read.
  destruct (Z.eqb_spec n 0) as [| _]; [lia |].
  destruct (read_loop_spec (ranges rd) 0 (rpos rd) 0 n buf)
    as (b1 & E1 & F1); try assumption; try lia.
  rewrite E1. cbn [bind].
  pose proof (reach_ge (ranges rd) (rpos rd)) as Hreach.
  set (R := reach (ranges rd) (rpos rd)) in *.
  set (k := Z.min n (R - rpos rd)) in *.
  rewrite (Z.gtb_ltb (n - k) 0).
  destruct (Z.ltb_spec 0 (n - k)) as [Hrem | Hrem];
    [destruct (Z.ltb_spec (rpos rd + k) (rsize rd)) as [Hoff | Hoff] |];
    cbn [andb].
  - (* the ranges are exhausted before the size: zeros up to the size *)
    rewrite (sub_small (rsize rd) (rpos rd + k)) by lia.
    set (z := if rsize rd - (rpos rd + k) >? n - k then n - k
              else rsize rd - (rpos rd + k)).
    assert (Hz : z = Z.min (n - k) (rsize rd - (rpos rd + k))).
    { subst z. rewrite Z.gtb_ltb.
      destruct (Z.ltb_spec (n - k) (rsize rd - (rpos rd + k))); lia. }
    clearbody z.
    pose proof F1 as (L1 & S1).
    destruct (memset0_spec b1 (0 + k) z) as (b2 & E2 & L2 & S2); try lia.
    rewrite E2. cbn [bind].
    rewrite (sub_small (n - k) z) by lia.
    exists b2. split.
    + destruct (Z.eqb_spec (n - k - z) 0);
        destruct (Z.leb_spec n (Z.max (rsize rd) R - rpos rd));
        cbn [negb]; try lia; reflexivity.
    + replace (Z.min n (Z.max (rsize rd) R - rpos rd)) with (k + z) by lia.
      apply filled_trans with (buf1 := b1); try lia; [exact F1 |].
      split; [lia |].
      intros j Hj. rewrite S2 by lia. zcases; try lia; try reflexivity.
      unfold byte_at.
      rewrite (loaded_beyond (ranges rd) 0 (rpos rd)) by (assumption || lia).
      reflexivity.
  - (* the ranges are exhausted at or after the size *)
    cbn [bind]. exists b1. split.
    + destruct (Z.eqb_spec (n - k) 0);
        destruct (Z.leb_spec n (Z.max (rsize rd) R - rpos rd));
        cbn [negb]; try lia; reflexivity.
    + replace (Z.min n (Z.max (rsize rd) R - rpos rd)) with k by lia.
      exact F1.
  - (* the ranges gave all the bytes *)
    cbn [bind]. exists b1. split.
    + destruct (Z.eqb_spec (n - k) 0);
        destruct (Z.leb_spec n (Z.max (rsize rd) R - rpos rd));
        cbn [negb]; try lia; reflexivity.
    + replace (Z.min n (Z.max (rsize rd) R - rpos rd)) with k by lia.
      exact F1.
Qed.

(** X19.  [sb_read] and its destination.  With the ranges in order, a read
    of [n > 0] bytes can go as far as the size or the end of the last
    range, whichever is further: it returns [n] when that many bytes are
    there, and [0] with an error otherwise.  In both cases the destination
    keeps its length, its first bytes, as many as were there, hold the
    content from the cursor on (so a read that fails has written them),
    and no other byte of the destination is written. *)
Theorem sb_read_destination (rd : SBReader) (buf : list byte) (n : Z) :
  0 <= rpos rd <= rsize rd -> rsize rd < 2 ^ w -> gapped 0 (ranges rd) ->
  0 < n < 2 ^ w -> n <= zlen buf ->
  let avail := Z.max (rsize rd) (reach (ranges rd) (rpos rd)) - rpos rd in
  exists b,
    sb_read rd buf n =
      Some (if n <=? avail then mkResult (n, b) rd None
            else mkResult (0, b) rd (msg "Cannot read past EOF.")) /\
    zlen b = zlen buf /\
    (forall i, 0 <= i < Z.min n avail ->
       zth b i = byte_at (ranges rd) (rpos rd + i)) /\
    (forall i, Z.min n avail <= i < zlen buf -> zth b i = zth buf i) /\
    (within (rsize rd) (ranges rd) -> avail = rsize rd - rpos rd).
Proof.
  intros Hpos Hsize Hg Hn Hbuf avail.
  destruct (sb_read_filled rd buf n Hpos Hsize Hg Hn Hbuf)
    as (b & E & L & S).
  fold avail in E, S.
  exists b. splits; [exact E | exact L | | |].
  - intros i Hi. rewrite S by lia. zcases; try lia. f_equal. lia.
  - intros i Hi. rewrite S by lia. zcases; try lia; reflexivity.
  - intros Hw. unfold avail.
    pose proof (reach_within (ranges rd) (rpos rd) (rsize rd) Hw) as H.
    lia.
Qed.

(** ** What the calls never touch *)

(** The return codes of the loop of [sb_remove_range]. *)
Lemma remove_loop_codes (start end_ : Z) (fuel : nat) :
  forall rs i al c m rs' al',
    remove_loop fuel rs i start end_ al = Some (c, m, rs', al') ->
    (c = 0 /\ m = None) \/ ((c = -1 \/ c = 1) /\ m <> None).
Proof.
  induction fuel as [| fuel IH]; intros rs i al c m rs' al' H;
    [discriminate |].
  cbn [remove_loop] in H. unfold bind, msg in H.
  repeat match goal with
    | H : remove_loop fuel _ _ _ _ _ = Some _ |- _ => exact (IH _ _ _ _ _ _ _ H)
    | H : None = Some _ |- _ => discriminate H
    | H : Some (0, _, _, _) = Some _ |- _ =>
        injection H as <- <- <- <-; left; split; reflexivity
    | H : Some (-1, _, _, _) = Some _ |- _ =>
        injection H as <- <- <- <-; right; split; [left; reflexivity | discriminate]
    | H : Some (1, _, _, _) = Some _ |- _ =>
        injection H as <- <- <- <-; right; split; [right; reflexivity | discriminate]
    | H : context [match ?x with _ => _ end] |- _ => destruct x
    end.
Qed.

(** X20.  [sb_load_range] never moves the cursor and never changes the
    size, whatever the reader, the position, the buffer, its length and
    the answers of the allocator; it returns [0] or [-1], and a call that
    returns [0] has passed no message to [err]. *)
Theorem sb_load_range_frame (rd : SBReader) (p : Z) (buf : list byte)
  (n : Z) (al al' : allocator) (r : result Z) :
  sb_load_range rd p buf n al = Some (r, al') ->
  rpos (reader r) = rpos rd /\ rsize (reader r) = rsize rd /\
  (ret r = 0 \/ ret r = -1) /\ (ret r = 0 -> error r = None).
Proof.
  intros H. unfold sb_load_range, bind, msg, set_ranges in H.
  repeat match goal with
    | H : None = Some _ |- _ => discriminate H
    | H : Some (mkResult 0 _ _, _) = Some _ |- _ =>
        injection H as <- <-; cbn [reader ret error rpos rsize];
        splits;
        first [reflexivity | left; reflexivity | intros _; reflexivity]
    | H : Some (mkResult (-1) _ _, _) = Some _ |- _ =>
        injection H as <- <-; cbn [reader ret error rpos rsize];
        splits;
        first [reflexivity | right; reflexivity | intros Hc; discriminate Hc]
    | H : context [match ?x with _ => _ end] |- _ => destruct x
    end.
Qed.

(** X21.  [sb_remove_range] never moves the cursor and never changes the
    size, whatever the reader, the interval and the answers of the
    allocator; it returns [0], [-1] or [1], and a call that returns [0]
    has passed no message to [err]. *)
Theorem sb_remove_range_frame (rd : SBReader) (start end_ : Z)
  (al al' : allocator) (r : result Z) :
  sb_remove_range rd start end_ al = Some (r, al') ->
  rpos (reader r) = rpos rd /\ rsize (reader r) = rsize rd /\
  (ret r = 0 \/ ret r = -1 \/ ret r = 1) /\ (ret r = 0 -> error r = None).
Proof.
  intros H. unfold sb_remove_range in H.
  destruct ((end_ >=? rsize rd) || (end_ <? start)).
  - injection H as <- <-. cbn [reader ret error].
    splits;
      first [reflexivity | right; left; reflexivity
            | intros Hc; discriminate Hc].
  - destruct (remove_loop _ _ _ _ _ _) as [[[[c m] rs] al1] |] eqn:E;
      cbn [bind] in H; [| discriminate].
    injection H as <- <-. cbn [reader ret error set_ranges rpos rsize].
    splits; try reflexivity.
    + destruct (remove_loop_codes _ _ _ _ _ _ _ _ _ _ E)
        as [[-> _] | [[-> | ->] _]]; auto.
    + intros ->.
      destruct (remove_loop_codes _ _ _ _ _ _ _ _ _ _ E)
        as [[_ Hm] | [[Hc | Hc] _]]; [exact Hm | discriminate | discriminate].
Qed.

(** ** The allocator of the test program *)

(** X22.  The allocator of [test.c] gives the library what [malloc] and
    [realloc] give: the area that the caller sees is the area of the plain
    call, behind the four bytes of the marker, and NULL comes back as
    NULL.  Every block handed out carries the marker, so the [assert] of
    [test_realloc] and [test_free] passes on it; the [assert] fails on a
    block without the marker.  The sum [size + 4] is not checked: for a
    size in the last four values of [size_t] the block is shorter than
    the marker and [test_alloc] writes outside of it. *)
Theorem test_allocator_refines (size n : Z) (u : list byte) (al : allocator) :
  0 <= size -> size + 4 < 2 ^ w -> 0 <= n -> n + 4 < 2 ^ w ->
  test_alloc size al =
    Some (match malloc size al with
          | (Some a, al') => (Some (marker ++ a), al')
          | (None, al') => (None, al')
          end) /\
  test_realloc (marker ++ u) n al =
    Some (match realloc u n al with
          | (Some a, al') => (Some (marker ++ a), al')
          | (None, al') => (None, al')
          end) /\
  test_free (marker ++ u) = Some tt /\
  user_area (marker ++ u) = u /\
  (forall blk, marked blk = false ->
     test_realloc blk n al = None /\ test_free blk = None) /\
  (forall big, 2 ^ w - 4 <= big < 2 ^ w -> 0 <= big ->
     fst (alloc_next al) = true -> test_alloc big al = None).
Proof.
  intros Hs Hs4 Hn Hn4. splits.
  - unfold test_alloc, malloc. rewrite add_small by lia.
    destruct (alloc_next al) as [[|] al']; [| reflexivity].
    rewrite memcpy_some; try lia.
    2:{ rewrite zlen_repeat. lia. }
    2:{ cbn. lia. }
    cbn [bind]. do 3 f_equal.
    replace (Z.to_nat (size + 4)) with (4 + Z.to_nat size)%nat by lia.
    reflexivity.
  - unfold test_realloc, realloc. rewrite add_small by lia.
    change (marked (marker ++ u)) with true. cbv iota.
    destruct (alloc_next al) as [[|] al']; [| reflexivity].
    do 3 f_equal.
    replace (Z.to_nat (n + 4)) with (4 + Z.to_nat n)%nat by lia.
    reflexivity.
  - reflexivity.
  - reflexivity.
  - intros blk Hb. unfold test_realloc, test_free. now rewrite Hb.
  - intros big Hbig Hbig0 Hal.
    unfold test_alloc, malloc.
    destruct (alloc_next al) as [[|] al']; [| discriminate].
    assert (Hshort : 0 <= big +! 4 < 4).
    { pose proof (wrap_range (big + 4)) as Hr. unfold add.
      destruct (Z_le_gt_dec (2 ^ w) 4) as [Hle | Hgt]; [lia |].
      fold (add big 4). rewrite add_wrapped by lia. lia. }
    unfold memcpy. rewrite zlen_repeat, Z2Nat.id by lia.
    destruct (Z.leb_spec (0 + 4) (big +! 4)) as [| _]; [lia |].
    rewrite !andb_false_r. reflexivity.
Qed.

(** ** More on [sb_remove_range] and [sb_resize] *)

(** Ranges inside the interval are all unlinked. *)
Lemma cut_all (hi : Z) (es : list Range) :
  within hi es -> forall lo, 0 <= lo -> gapped lo es ->
  flat_map (cut_range 0 (hi - 1)) es = [].
Proof.
  unfold within. induction 1 as [| e es He _ IH]; intros lo Hlo Hg;
    [reflexivity |].
  destruct Hg as (Hle & Hok & Hg). cbn [flat_map].
  rewrite (IH (pos e + size e + 1)); [| destruct Hok; lia | exact Hg].
  destruct Hok as (? & Hs & _).
  pose proof (cut_range_cases 0 (hi - 1) e ltac:(lia) Hs) as C.
  cbv zeta in C. destruct C as (_ & C2 & _).
  rewrite C2 by lia. reflexivity.
Qed.

(** X23.  Removing the whole extent [[0, size - 1]] is clearing: under the
    invariants, with an allocator that does not fail, the call returns [0]
    and leaves the reader that [sb_clear] gives. *)
Theorem sb_remove_range_all (rd : SBReader) (al : allocator) :
  sb_inv rd -> 0 < rsize rd -> never_fails al ->
  exists al',
    sb_remove_range rd 0 (rsize rd - 1) al
      = Some (mkResult 0 (sb_clear rd) None, al').
Proof.
  intros Hinv Hs Hal.
  pose proof Hinv as (Hpos & Hsize & Hg & Hw).
  destruct (sb_remove_range_run rd 0 (rsize rd - 1) al Hg Hsize)
    as (al' & E & _); try assumption; try lia.
  exists al'. rewrite E.
  rewrite (cut_all (rsize rd) (ranges rd) Hw 0) by (lia || assumption).
  reflexivity.
Qed.

(** X24.  [sb_resize] returns [0] or [-1], never the [1] that
    [sb_remove_range] can return.  It changes the size exactly when it
    returns [0]: then the size is the new size and the cursor has moved
    only if it was beyond the new size.  When it returns [-1] an error is
    reported and the size and the cursor are as before. *)
Theorem sb_resize_frame (rd : SBReader) (n : Z) (al al' : allocator)
  (r : result Z) :
  sb_resize rd n al = Some (r, al') ->
  (ret r = 0 /\ n <> 0 /\ rsize (reader r) = n /\
   rpos (reader r) =
     if (n <? rsize rd) && (rpos rd >? n) then n else rpos rd) \/
  (ret r = -1 /\ error r <> None /\
   rsize (reader r) = rsize rd /\ rpos (reader r) = rpos rd).
Proof.
  intros H. unfold sb_resize in H.
  destruct (Z.eqb_spec n 0) as [E0 | E0].
  { injection H as <- <-. right. cbn [ret reader error].
    splits; try reflexivity. discriminate. }
  destruct (n <? rsize rd).
  2:{ injection H as <- <-. left. cbn [ret reader error set_rsize rsize rpos].
      splits; try reflexivity. exact E0. }
  unfold sb_remove_range in H.
  destruct ((rsize rd -! 1 >=? rsize rd) || (rsize rd -! 1 <? n)).
  { cbn [bind ret] in H. change (-1 <? 0) with true in H. cbv iota in H.
    injection H as <- <-. right. cbn [ret reader error].
    splits; try reflexivity. discriminate. }
  destruct (remove_loop _ _ _ _ _ _) as [[[[c m] rs] al1] |] eqn:E;
    cbn [bind] in H; [| discriminate].
  cbn [ret reader error] in H.
  destruct (remove_loop_codes _ _ _ _ _ _ _ _ _ _ E)
    as [(-> & ->) | ([-> | ->] & Hm)].
  - change (0 <? 0) with false in H. cbv iota in H.
    injection H as <- <-. left. cbn [ret reader andb].
    splits; try reflexivity; [exact E0 |].
    cbn [set_ranges rpos rsize].
    destruct (rpos rd >? n); reflexivity.
  - change (-1 <? 0) with true in H. cbv iota in H.
    injection H as <- <-. right. cbn [ret reader error set_ranges rpos rsize].
    splits; try reflexivity. exact Hm.
  - change (1 <? 0) with false in H. cbv iota in H.
    injection H as <- <-. left. cbn [ret reader andb].
    splits; try reflexivity; [exact E0 |].
    cbn [set_ranges rpos rsize].
    destruct (rpos rd >? n); reflexivity.
Qed.

(** ** [sb_remove_range] with any allocator *)

(** The loop of [sb_remove_range] on ranges in order, whatever the
    allocator answers: it comes to an end, and when it returns [0] it has
    cut the interval out of every range from node [length pre] on. *)
Lemma remove_loop_any (start end_ : Z) (suf : list Range) :
  0 <= start <= end_ -> end_ + 1 < 2 ^ w ->
  forall pre lo fuel al,
    gapped lo suf -> 0 <= lo ->
    Forall (fun p => pos p < lo) pre ->
    (length suf < fuel)%nat ->
    exists c m rs' al',
      remove_loop fuel (pre ++ suf) (length pre) start end_ al =
        Some (c, m, rs', al') /\
      (c = 0 ->
       m = None /\ rs' = pre ++ flat_map (cut_range start end_) suf).
Proof.
  intros Hse Hend.
  induction suf as [| e rest IH]; intros pre lo fuel al Hg Hlo0 Hpre Hfuel.
  - destruct fuel as [| fuel]; [cbn in Hfuel; lia |].
    cbn [remove_loop flat_map]. rewrite nth_error_end.
    do 4 eexists. split; [reflexivity |]. intros _. split; reflexivity.
  - destruct fuel as [| fuel]; [cbn in Hfuel; lia |].
    cbn [length] in Hfuel.
    pose proof Hg as Hg0.
    destruct Hg as (Hlo & (He0 & He1 & He2 & He3) & Hg).
    assert (Hpre' : forall x, pos x < pos e + size e + 1 ->
              Forall (fun p => pos p < pos e + size e + 1) (pre ++ [x])).
    { intros x Hx. apply Forall_snoc; [| exact Hx].
      apply Forall_below_mono with (lo := lo); [assumption | lia]. }
    destruct (cut_range_cases start end_ e (proj2 Hse) He1)
      as (Cout & Cin & Csplit & Cleft & Cright).
    cbn [remove_loop]. rewrite nth_error_mid. cbv zeta.
    rewrite (add_small (pos e) (size e)) by lia.
    rewrite (sub_small (pos e + size e) 1) by lia.
    rewrite (Z.gtb_ltb (pos e) end_).
    destruct (Z.ltb_spec end_ (pos e)) as [Hafter | Hafter].
    { (* the range starts after the interval *)
      do 4 eexists. split; [reflexivity |]. intros _. split; [reflexivity |].
      assert (Hg1 : gapped (pos e) (e :: rest)).
      { split; [lia | exact (proj2 Hg0)]. }
      rewrite (cut_after start end_ (e :: rest) (pos e)) by (assumption || lia).
      reflexivity. }
    cbn [flat_map].
    destruct (Z.ltb_spec (pos e + size e - 1) start) as [Hbefore | Hbefore].
    { (* the range ends before the interval *)
      rewrite Cout by lia. cbn [app].
      rewrite (app_cons_assoc pre rest e),
        (app_cons_assoc pre (flat_map (cut_range start end_) rest) e),
        <- (length_snoc pre e).
      apply (IH (pre ++ [e]) (pos e + size e + 1) fuel al);
        try assumption; try lia.
      apply Hpre'. lia. }
    rewrite (Z.geb_leb (pos e) start).
    destruct (Z.leb_spec start (pos e)) as [Hs | Hs];
      destruct (Z.leb_spec (pos e + size e - 1) end_) as [He | He];
      cbn [andb].
    + (* the range lies inside the interval *)
      rewrite Cin by lia. cbn [app].
      unfold range_remove. rewrite find_pos_mid
        by (apply Forall_below_neq with (lo := lo); assumption).
      cbn [bind]. rewrite list_del_mid.
      apply (IH pre (pos e + size e + 1) fuel al); try assumption; try lia.
      apply Forall_below_mono with (lo := lo); [assumption | lia].
    + (* the range sticks out at the right of the interval *)
      rewrite Cright by lia. cbn [app].
      rewrite (Z.gtb_ltb (pos e + size e - 1) end_).
      destruct (Z.ltb_spec end_ (pos e + size e - 1)) as [_ |]; [| lia].
      destruct (Z.ltb_spec (pos e) start) as [| _]; [lia |]. cbn [andb].
      rewrite (add_small end_ 1) by lia.
      rewrite (sub_small (end_ + 1) (pos e)) by lia.
      rewrite (sub_small (size e) (end_ + 1 - pos e)) by lia.
      rewrite (sub_small (size e) (size e - (end_ + 1 - pos e))) by lia.
      unfold malloc.
      destruct (alloc_next al) as [[|] al1] eqn:Ea1.
      2:{ do 4 eexists. split; [reflexivity |]. intros Hc. discriminate Hc. }
      replace (size e - (size e - (end_ + 1 - pos e)))
        with (end_ + 1 - pos e) by lia.
      rewrite memcpy_tail by lia. cbn [bind].
      rewrite list_set_mid.
      set (right := mkRange (end_ + 1) (size e - (end_ + 1 - pos e))
                      (skipn (Z.to_nat (end_ + 1 - pos e)) (data e))).
      rewrite (app_cons_assoc pre rest right),
        (app_cons_assoc pre (flat_map (cut_range start end_) rest) right),
        <- (length_snoc pre right).
      apply (IH (pre ++ [right]) (pos e + size e + 1) fuel al1);
        try assumption; try lia.
      apply Hpre'. cbn [pos right]. lia.
    + (* the range sticks out at the left of the interval *)
      rewrite Cleft by lia. cbn [app].
      rewrite (Z.gtb_ltb (pos e + size e - 1) end_).
      destruct (Z.ltb_spec end_ (pos e + size e - 1)) as [| _]; [lia |].
      cbn [andb].
      destruct (Z.ltb_spec (pos e) start) as [_ |]; [| lia].
      rewrite (sub_small start (pos e)) by lia.
      destruct (alloc_next al) as [[|] al1] eqn:Ea1.
      2:{ unfold realloc. rewrite Ea1.
          do 4 eexists. split; [reflexivity |]. intros Hc. discriminate Hc. }
      rewrite (realloc_shrink (data e) (start - pos e) al al1)
        by (assumption || lia).
      rewrite list_set_mid.
      set (left := mkRange (pos e) (start - pos e)
                     (firstn (Z.to_nat (start - pos e)) (data e))).
      rewrite (app_cons_assoc pre rest left),
        (app_cons_assoc pre (flat_map (cut_range start end_) rest) left),
        <- (length_snoc pre left).
      apply (IH (pre ++ [left]) (pos e + size e + 1) fuel al1);
        try assumption; try lia.
      apply Hpre'. cbn [pos left]. lia.
    + (* the interval lies inside the range: split *)
      rewrite Csplit by lia. cbn [app].
      rewrite (Z.gtb_ltb (pos e + size e - 1) end_).
      destruct (Z.ltb_spec end_ (pos e + size e - 1)) as [_ |]; [| lia].
      destruct (Z.ltb_spec (pos e) start) as [_ |]; [| lia]. cbn [andb].
      unfold malloc_node, malloc.
      destruct (alloc_next al) as [[|] al1] eqn:Ea1; cbn [negb].
      2:{ do 4 eexists. split; [reflexivity |]. intros Hc. discriminate Hc. }
      destruct (alloc_next al1) as [[|] al2] eqn:Ea2.
      2:{ do 4 eexists. split; [reflexivity |]. intros Hc. discriminate Hc. }
      rewrite (add_small end_ 1) by lia.
      rewrite (add_small (pos e + size e - 1) 1) by lia.
      rewrite (sub_small (pos e + size e - 1 + 1) (end_ + 1)) by lia.
      rewrite (sub_small (end_ + 1) (pos e)) by lia.
      rewrite (sub_small start (pos e)) by lia.
      rewrite memcpy_tail by lia. cbn [bind].
      unfold range_insert_after. rewrite find_pos_mid
        by (apply Forall_below_neq with (lo := lo); assumption).
      cbn [bind]. rewrite Nat.ltb_irrefl. rewrite list_ins_after.
      destruct (alloc_next al2) as [[|] al3] eqn:Ea3.
      2:{ unfold realloc. rewrite Ea3.
          do 4 eexists. split; [reflexivity |]. intros Hc. discriminate Hc. }
      rewrite (realloc_shrink (data e) (start - pos e) al2 al3)
        by (assumption || lia).
      rewrite list_set_mid.
      set (left := mkRange (pos e) (start - pos e)
                     (firstn (Z.to_nat (start - pos e)) (data e))).
      set (right := mkRange (end_ + 1) (pos e + size e - 1 + 1 - (end_ + 1))
                      (skipn (Z.to_nat (end_ + 1 - pos e)) (data e))).
      replace (pre ++ left :: right :: rest)
        with ((pre ++ [left; right]) ++ rest) by (now rewrite <- app_assoc).
      replace (pre ++ left :: right :: flat_map (cut_range start end_) rest)
        with ((pre ++ [left; right]) ++ flat_map (cut_range start end_) rest)
        by (now rewrite <- app_assoc).
      replace (S (S (length pre))) with (length (pre ++ [left; right]))
        by (rewrite length_app; cbn; lia).
      apply (IH (pre ++ [left; right]) (pos e + size e + 1) fuel al3);
        try assumption; try lia.
      apply Forall_app. split.
      * apply Forall_below_mono with (lo := lo); [assumption | lia].
      * repeat constructor; cbn [pos left right]; lia.
Qed.

(** X25.  With the ranges in order [sb_remove_range] has defined behaviour
    whatever the allocator answers and whatever the interval is: every
    call returns.  A call that returns [0] reports no error and has cut
    the interval out of every range, also when later answers of the
    allocator would have been failures. *)
Theorem sb_remove_range_any_allocator (rd : SBReader) (start end_ : Z)
  (al : allocator) :
  gapped 0 (ranges rd) -> rsize rd < 2 ^ w -> 0 <= start ->
  exists r al',
    sb_remove_range rd start end_ al = Some (r, al') /\
    (ret r = 0 ->
     error r = None /\ start <= end_ < rsize rd /\
     reader r =
       set_ranges rd (flat_map (cut_range start end_) (ranges rd)) /\
     forall o,
       loaded (ranges (reader r)) o =
         if (start <=? o) && (o <=? end_) then None
         else loaded (ranges rd) o).
Proof.
  intros Hg Hsize Hstart. unfold sb_remove_range.
  rewrite (Z.geb_leb end_ (rsize rd)).
  destruct (Z.leb_spec (rsize rd) end_) as [Hbig | Hbig]; cbn [orb].
  { do 2 eexists. split; [reflexivity |]. intros Hc. discriminate Hc. }
  destruct (Z.ltb_spec end_ start) as [Hrev | Hrev].
  { do 2 eexists. split; [reflexivity |]. intros Hc. discriminate Hc. }
  destruct (remove_loop_any start end_ (ranges rd) ltac:(lia) ltac:(lia)
              [] 0 (remove_fuel (ranges rd)) al Hg ltac:(lia)
              (Forall_nil _))
    as (c & m & rs' & al' & E & Hc).
  { unfold remove_fuel. lia. }
  cbn [app length] in E. rewrite E. cbn [bind].
  do 2 eexists. split; [reflexivity |].
  cbn [ret error reader]. intros Hc0.
  destruct (Hc Hc0) as (-> & ->). cbn [app].
  splits; try reflexivity; try lia.
  intros o. cbn [set_ranges ranges].
  apply cut_loaded with (lo := 0); [lia | exact Hg].
Qed.

(** ** [sb_load_range] with any allocator *)

(** What [merge] gives with an allocator that does not fail decides what
    it gives with any allocator. *)
Lemma merge_transfer (a b : Range) (al a0 : allocator) (x : merge_result) :
  merge a b [] = Some (x, a0) ->
  a0 = [] /\
  merge a b al =
    Some (match x with
          | NotMerged => (NotMerged, al)
          | _ => if fst (alloc_next al) then (x, snd (alloc_next al))
                 else (MergeFail, snd (alloc_next al))
          end).
Proof.
  unfold merge, malloc. cbn [alloc_next].
  destruct (alloc_next al) as [ok al']. cbn [fst snd].
  destruct (negb (intersects a b));
    [intros [= <- <-]; split; reflexivity |].
  destruct ok.
  - destruct (contains a b).
    { destruct (memcpy _ 0 (data a) 0 (size a)); cbn [bind]; [| discriminate].
      intros [= <- <-]. split; reflexivity. }
    destruct (contains b a).
    { destruct (memcpy _ 0 (data b) 0 (size b)); cbn [bind]; [| discriminate].
      intros [= <- <-]. split; reflexivity. }
    cbv zeta.
    match goal with
    | |- bind ?m _ = _ -> _ => destruct m; cbn [bind]; [| discriminate]
    end.
    intros [= <- <-]. split; reflexivity.
  - destruct (contains a b).
    { destruct (memcpy _ 0 (data a) 0 (size a)); cbn [bind]; [| discriminate].
      intros [= <- <-]. split; reflexivity. }
    destruct (contains b a).
    { destruct (memcpy _ 0 (data b) 0 (size b)); cbn [bind]; [| discriminate].
      intros [= <- <-]. split; reflexivity. }
    cbv zeta.
    match goal with
    | |- bind ?m _ = _ -> _ => destruct m; cbn [bind]; [| discriminate]
    end.
    intros [= <- <-]. split; reflexivity.
Qed.

Lemma merge_scan_transfer (r : Range) (es : list Range) :
  forall al s a0,
    merge_scan r es [] = Some (s, a0) ->
    a0 = [] /\
    exists s' al',
      merge_scan r es al = Some (s', al') /\ (s' = s \/ s' = ScanFail).
Proof.
  induction es as [| e es IH]; intros al s a0; cbn [merge_scan].
  - intros [= <- <-]. split; [reflexivity |].
    exists ScanNone, al. split; [reflexivity | now left].
  - destruct (merge r e []) as [[x a1] |] eqn:Em; cbn [bind]; [| discriminate].
    destruct (merge_transfer r e al a1 x Em) as (-> & ->). cbn [bind].
    destruct x as [| | m].
    + intros [= <- <-]. split; [reflexivity |].
      destruct (fst (alloc_next al)); do 2 eexists;
        (split; [reflexivity | now left]).
    + destruct (merge_scan r es []) as [[s0 a2] |] eqn:Es; cbn [bind];
        [| discriminate].
      destruct (IH al s0 a2 eq_refl) as (-> & s' & al' & E' & Hs').
      rewrite E'. cbn [bind]. intros H.
      assert (Ha0 : a0 = []) by (destruct s0; congruence).
      split; [exact Ha0 |].
      destruct Hs' as [-> | ->].
      * destruct s0; injection H as <- <-; do 2 eexists;
          (split; [reflexivity | now left]).
      * do 2 eexists. split; [reflexivity | now right].
    + intros [= <- <-]. split; [reflexivity |].
      destruct (fst (alloc_next al)); do 2 eexists;
        (split; [reflexivity | auto]).
Qed.

Lemma merge_chain_transfer (fuel : nat) :
  forall rs i al ok rs' a0,
    merge_chain fuel rs i [] = Some (ok, rs', a0) ->
    exists ok2 rs2 al2,
      merge_chain fuel rs i al = Some (ok2, rs2, al2) /\
      (ok2 = true -> ok = true /\ rs2 = rs').
Proof.
  induction fuel as [| fuel IH]; intros rs i al ok rs' a0.
  all: cbn [merge_chain].
  all: destruct (nth_error rs i) as [mrange |]; cbn [bind]; [| discriminate].
  all: destruct (nth_error rs (S i)) as [e |];
    [| intros [= <- <- <-]; do 3 eexists; split; [reflexivity | auto]].
  all: destruct (merge mrange e []) as [[x a1] |] eqn:Em; cbn [bind];
    [| discriminate].
  all: destruct (merge_transfer mrange e al a1 x Em) as (-> & ->); cbn [bind].
  all: destruct x as [| | m];
    [ intros [= <- <- <-]; destruct (fst (alloc_next al)); do 3 eexists;
        (split; [reflexivity | intros [=]])
    | intros [= <- <- <-]; do 3 eexists; split; [reflexivity | auto]
    | ].
  all: destruct (fst (alloc_next al));
    [| intros _; do 3 eexists; split; [reflexivity | intros [=]]].
  all: destruct (range_remove (list_set i m rs) (pos e)) as [[j rs1] |];
    cbn [bind]; [| discriminate].
  all: destruct (j =? i)%nat; [discriminate |].
  - discriminate.
  - intros H. exact (IH _ _ _ _ _ _ H).
Qed.

(** A load with any allocator returns, and when it returns [0] it has
    done what it does with an allocator that does not fail. *)
Lemma sb_load_range_transfer (rd : SBReader) (p : Z) (buf : list byte)
  (n : Z) (al a0 : allocator) (r0 : result Z) :
  sb_load_range rd p buf n [] = Some (r0, a0) ->
  exists r al',
    sb_load_range rd p buf n al = Some (r, al') /\
    (ret r = 0 -> r = r0).
Proof.
  unfold sb_load_range, malloc_node, malloc. cbn [alloc_next negb].
  destruct (n =? 0);
    [intros [= <- <-]; do 2 eexists; split; [reflexivity | auto] |].
  destruct (rpos rd +! n >? rsize rd);
    [intros [= <- <-]; do 2 eexists; split; [reflexivity | auto] |].
  destruct (alloc_next al) as [[|] al1]; cbn [negb];
    [| intros _; do 2 eexists; split; [reflexivity | intros [=]]].
  destruct (alloc_next al1) as [[|] al2];
    [| intros _; do 2 eexists; split; [reflexivity | intros [=]]].
  destruct (memcpy _ 0 buf 0 n) as [d1 |]; cbn [bind]; [| discriminate].
  destruct (ranges rd) as [| e0 es0];
    [intros [= <- <-]; do 2 eexists; split; [reflexivity | auto] |].
  destruct (merge_scan _ (e0 :: es0) []) as [[s a1] |] eqn:Es; cbn [bind];
    [| discriminate].
  destruct (merge_scan_transfer _ _ al2 s a1 Es) as (-> & s' & al3 & E' & Hs').
  rewrite E'. cbn [bind].
  destruct Hs' as [-> | ->];
    [| intros _; do 2 eexists; split; [reflexivity | intros [=]]].
  destruct s as [| | i rs].
  - intros _. do 2 eexists. split; [reflexivity | intros [=]].
  - match goal with
    | |- bind ?m _ = _ -> _ => destruct m; cbn [bind]; [| discriminate]
    end.
    intros [= <- <-]. do 2 eexists. split; [reflexivity | auto].
  - destruct (merge_chain (length rs) rs i []) as [[[ok rs'] a2] |] eqn:Ec;
      cbn [bind]; [| discriminate].
    destruct (merge_chain_transfer _ rs i al3 ok rs' a2 Ec)
      as (ok2 & rs2 & al4 & E2 & H2).
    rewrite E2. cbn [bind].
    destruct ok2.
    + destruct (H2 eq_refl) as (-> & ->).
      intros [= <- <-]. do 2 eexists. split; [reflexivity | auto].
    + intros _. do 2 eexists. split; [reflexivity | intros [=]].
Qed.

(** X26.  [sb_load_range] of a range inside the size has defined
    behaviour whatever the allocator answers: every call returns.  A call
    that returns [0] reports no error, keeps the invariants of the data
    model and has laid the new bytes over the old content (unless a larger
    stored range covers the new range: then nothing has changed). *)
Theorem sb_load_range_any_allocator (rd : SBReader) (p : Z)
  (buf : list byte) (al : allocator) :
  sb_inv rd -> 0 <= p -> 0 < zlen buf -> p + zlen buf <= rsize rd ->
  rpos rd + zlen buf <= rsize rd ->
  exists r al',
    sb_load_range rd p buf (zlen buf) al = Some (r, al') /\
    (ret r = 0 ->
     error r = None /\ sb_inv (reader r) /\
     forall o,
       loaded (ranges (reader r)) o =
         if (p <=? o) && (o <? p + zlen buf) then
           match loaded (ranges rd) o with
           | Some b =>
               if dropped (mkRange p (zlen buf) buf) (ranges rd)
               then Some b else Some (zth buf (o - p))
           | None => Some (zth buf (o - p))
           end
         else loaded (ranges rd) o).
Proof.
  intros Hinv Hp Hlen Hend Hfit.
  pose proof Hinv as (Hpos & Hsize & Hg & Hw).
  assert (Hfit' : rpos rd +! zlen buf <= rsize rd)
    by (rewrite add_small; lia).
  assert (Hal : never_fails []) by constructor.
  destruct (sb_load_range_ok rd p buf [] (rsize rd) Hg Hw Hp Hlen)
    as (rs' & a0 & E & Hg' & Hw' & _); try assumption; try lia.
  destruct (sb_load_range_content rd p buf [] Hg Hp Hlen)
    as (rs2 & a2 & E2 & Hl); try assumption; try lia.
  rewrite E in E2. injection E2 as <- <-.
  destruct (sb_load_range_transfer rd p buf (zlen buf) al a0 _ E)
    as (r & al' & Er & Hr).
  exists r, al'. split; [exact Er |].
  intros H0. rewrite (Hr H0). cbn [error reader set_ranges ranges].
  splits; [reflexivity | exact (conj Hpos (conj Hsize (conj Hg' Hw'))) |].
  intros o. rewrite Hl.
  assert (Hrok : range_ok (mkRange p (zlen buf) buf))
    by (unfold range_ok; cbn [pos size data]; splits; lia).
  destruct (dropped _ _) eqn:Ed.
  - zcases; try lia; try reflexivity.
    apply (dropped_iff _ _ Hrok (gapped_ok _ _ Hg)) in Ed.
    apply Exists_exists in Ed. destruct Ed as (e & Hin & He1 & He2 & _).
    cbn [pos size] in He1, He2.
    pose proof (loaded_in (ranges rd) e o Hin ltac:(lia)) as Hne.
    destruct (loaded (ranges rd) o); [reflexivity | contradiction].
  - zcases; try lia; try reflexivity.
    destruct (loaded (ranges rd) o); reflexivity.
Qed.

(** ** [sb_resize] with any allocator, and the bytes after a failure *)

(** X27.  With the ranges in order [sb_resize] has defined behaviour
    whatever the allocator answers: every call returns.  A call that
    returns [0] without an error message has set the size, lowered the
    cursor to the new size if it was beyond, and cut off the ranges at the
    new size. *)
Theorem sb_resize_any_allocator (rd : SBReader) (n : Z) (al : allocator) :
  gapped 0 (ranges rd) -> rsize rd < 2 ^ w -> 0 <= n ->
  exists r al',
    sb_resize rd n al = Some (r, al') /\
    (ret r = 0 -> error r = None ->
     reader r =
       if n <? rsize rd
       then mkReader (Z.min (rpos rd) n) n
              (flat_map (cut_range n (rsize rd - 1)) (ranges rd))
       else set_rsize rd n).
Proof.
  intros Hg Hsize Hn. unfold sb_resize.
  destruct (Z.eqb_spec n 0) as [| Hn0].
  { do 2 eexists. split; [reflexivity |]. intros [=]. }
  destruct (Z.ltb_spec n (rsize rd)) as [Hlt | Hge].
  2:{ do 2 eexists. split; [reflexivity |]. intros _ _. reflexivity. }
  rewrite (sub_small (rsize rd) 1) by lia.
  unfold sb_remove_range.
  rewrite (Z.geb_leb (rsize rd - 1) (rsize rd)).
  destruct (Z.leb_spec (rsize rd) (rsize rd - 1)) as [| _]; [lia |].
  destruct (Z.ltb_spec (rsize rd - 1) n) as [| _]; [lia |]. cbn [orb].
  destruct (remove_loop_any n (rsize rd - 1) (ranges rd) ltac:(lia) ltac:(lia)
              [] 0 (remove_fuel (ranges rd)) al Hg ltac:(lia)
              (Forall_nil _))
    as (c & m & rs' & al' & E & Hc).
  { unfold remove_fuel. lia. }
  cbn [app length] in E. rewrite E. cbn [bind ret reader error].
  destruct (remove_loop_codes _ _ _ _ _ _ _ _ _ _ E)
    as [(-> & ->) | ([-> | ->] & Hm)].
  - change (0 <? 0) with false. cbv iota.
    do 2 eexists. split; [reflexivity |]. intros _ _. cbn [reader].
    destruct (Hc eq_refl) as (_ & ->). cbn [app].
    unfold set_rsize, set_rpos, set_ranges. rewrite Z.gtb_ltb.
    cbn [rpos rsize ranges].
    destruct (Z.ltb_spec n (rpos rd)); cbn [rpos rsize ranges];
      f_equal; lia.
  - change (-1 <? 0) with true. cbv iota.
    do 2 eexists. split; [reflexivity |]. intros [=].
  - change (1 <? 0) with false. cbv iota.
    do 2 eexists. split; [reflexivity |]. cbn [error].
    intros _ Hnone. contradiction.
Qed.

(** The ranges that a removal passes over hold no byte of the interval. *)
Lemma ends_before_outside (start o : Z) (mid : list Range) :
  Forall (ends_before start) mid -> start <= o -> loaded mid o = None.
Proof.
  intros H Ho. apply loaded_outside with (hi := start); [| exact Ho].
  unfold within. eapply Forall_impl; [| exact H].
  intros p (_ & _ & _ & Hp). lia.
Qed.

(** X28.  The failure of the allocation for a range that sticks out at the
    right of the interval leaves wrong bytes behind.  The range has its
    new start and its new size but still its old payload, so the bytes
    that survive after the interval read as the first bytes of the old
    payload, not as the bytes that were loaded at their offsets. *)
Theorem remove_failure_stale_bytes (rd : SBReader) (start end_ : Z)
  (mid : list Range) (e : Range) (rest : list Range) (al : allocator) :
  reaches rd start end_ mid e rest ->
  start <= pos e <= end_ -> end_ < pos e + size e - 1 ->
  exists rd',
    sb_remove_range rd start end_ (false :: al) =
      Some (mkResult 1 rd' (msg "Could not allocate new range data."), al) /\
    forall o, end_ < o < pos e + size e ->
      byte_at (ranges rd) o = zth (data e) (o - pos e) /\
      byte_at (ranges rd') o = zth (data e) (o - (end_ + 1)).
Proof.
  intros Hreach Hin Hout.
  rewrite (remove_right_failure rd start end_ mid e rest al Hreach Hin Hout).
  destruct Hreach as (Ers & Hmid & Hse & _).
  eexists. split; [reflexivity |].
  intros o Ho. unfold byte_at. cbn [set_ranges ranges]. rewrite Ers.
  rewrite !loaded_app, (ends_before_outside start o mid Hmid) by lia.
  split.
  - rewrite loaded_head by lia. reflexivity.
  - rewrite loaded_head by (cbn [pos size]; lia). reflexivity.
Qed.

End SparseBuffer.

(** * Instances at a 64-bit [size_t] *)

(** Decides closed statements: takes the predicates of the data model
    apart, then computes the comparisons that are left. *)
Ltac closed :=
  repeat first
    [ split
    | apply Forall_nil
    | apply Forall_cons
    | exact I
    | progress unfold sb_inv, reaches, ends_before, range_ok, within,
        never_fails
    | progress cbn [gapped ranges rpos rsize pos size data reader50
                    reader_two_ranges range_49_59 new_0_10 stored_5_15] ];
  try (vm_compute;
       first [reflexivity | let H := fresh in intro H; discriminate H]).

Lemma width64 : 0 < 64.
Proof. reflexivity. Qed.

(** ** The test program *)

(** The second read of [test.c]: after the loads of ten [1] at [0], ten [2]
    at [4], seven [3] at [40] and forty [4] at [5], the buffer reads as
    [expected2]: the range at [40] starts higher than the merged range
    [[0, 45)] and gives only its last two bytes. *)
Example test_c_second_read :
  exists rd1 rd2 rd3 rd4 b,
    sb_load_range 64 Byte.xff reader50 0 (fill Byte.x01 10) 10 []
      = Some (mkResult 0 rd1 None, []) /\
    sb_load_range 64 Byte.xff rd1 4 (fill Byte.x02 10) 10 []
      = Some (mkResult 0 rd2 None, []) /\
    sb_load_range 64 Byte.xff rd2 40 (fill Byte.x03 7) 7 []
      = Some (mkResult 0 rd3 None, []) /\
    sb_load_range 64 Byte.xff rd3 5 (fill Byte.x04 40) 40 []
      = Some (mkResult 0 rd4 None, []) /\
    sb_read 64 rd4 (fill Byte.xff 50) 50 = Some (mkResult (50, b) rd4 None) /\
    b = fill Byte.x01 4 ++ fill Byte.x02 1 ++ fill Byte.x04 40
        ++ fill Byte.x03 2 ++ fill Byte.x00 3.
Proof.
  do 5 eexists.
  repeat (split; [vm_compute; reflexivity |]).
  vm_compute. reflexivity.
Qed.

(** ** C1 *)

(** C1 fails as stated: the new range [[0, 10)] of bytes [2] is loaded
    over the stored range [[5, 15)] of bytes [1]; neither contains the
    other; the merged range has the bytes of the new range on the overlap
    [[5, 10)], not those of the stored range, which starts higher. *)
Lemma merge_higher_start_counterexample :
  sb_load_range 64 Byte.xff (mkReader 0 50 [stored_5_15]) 0
    (fill Byte.x02 10) 10 []
    = Some (mkResult 0 (mkReader 0 50 [merged_0_15]) None, []) /\
  merge 64 Byte.xff new_0_10 stored_5_15 [] = Some (Merged merged_0_15, []) /\
  intersects 64 new_0_10 stored_5_15 = true /\
  contains 64 new_0_10 stored_5_15 = false /\
  contains 64 stored_5_15 new_0_10 = false /\
  ~ higher_start_wins new_0_10 stored_5_15 merged_0_15.
Proof.
  splits; try (vm_compute; reflexivity).
  intros (_ & _ & H). specialize (H 5). vm_compute in H.
  assert (E : Byte.x02 = Byte.x01); [| discriminate E].
  apply H; split; [intro; discriminate | reflexivity].
Qed.

Lemma merge_first_argument_wins_witness :
  range_ok 64 new_0_10 /\ range_ok 64 stored_5_15 /\
  intersects 64 new_0_10 stored_5_15 = true /\
  fst (alloc_next []) = true /\
  exists m,
    merge 64 Byte.xff new_0_10 stored_5_15 [] = Some (Merged m, []) /\
    first_argument_wins new_0_10 stored_5_15 m.
Proof.
  assert (Ha : range_ok 64 new_0_10) by closed.
  assert (Hb : range_ok 64 stored_5_15) by closed.
  splits; try assumption; try reflexivity.
  destruct (merge_first_argument_wins 64 Byte.xff width64 new_0_10 stored_5_15 []
              Ha Hb eq_refl eq_refl) as (m & E & _ & _ & H).
  exists m. split; [exact E |]. apply H; reflexivity.
Defined.

(** ** C2 *)

(** C2: the check of [sb_load_range] reads the cursor where its message
    speaks of the range.  A load of ten bytes at [100] into an empty
    buffer of [50] bytes with the cursor at [0] succeeds, and leaves a
    range that ends at [110], beyond the size. *)
Theorem load_range_past_size :
  sb_load_range 64 Byte.xff reader50 100 (fill Byte.x01 10) 10 []
    = Some (mkResult 0
              (mkReader 0 50 [mkRange 100 10 (fill Byte.x01 10)]) None, []) /\
  sb_inv 64 reader50 /\
  ~ within (rsize reader50) [mkRange 100 10 (fill Byte.x01 10)] /\
  ~ sb_inv 64 (mkReader 0 50 [mkRange 100 10 (fill Byte.x01 10)]).
Proof.
  assert (H : ~ within 50 [mkRange 100 10 (fill Byte.x01 10)]).
  { intros H. inversion H as [| ? ? Hle _]; subst. cbn in Hle. lia. }
  splits; try exact H.
  - vm_compute. reflexivity.
  - closed.
  - intros (_ & _ & _ & Hw). exact (H Hw).
Qed.

(** ** C3 *)

Lemma sb_read_contract_witness :
  sb_inv 64 reader_two_ranges /\ 0 <= 50 < 2 ^ 64 /\
  50 <= zlen (fill Byte.xff 50) /\
  (exists r,
     sb_read 64 reader_two_ranges (fill Byte.xff 50) 50 = Some r /\
     fst (ret r) = 50 /\ error r = None /\
     forall i, 0 <= i < 50 ->
       zth (snd (ret r)) i = byte_at (ranges reader_two_ranges) (0 + i)) /\
  (exists b,
     sb_read 64 reader50 (fill Byte.xff 50) 50
       = Some (mkResult (50, b) reader50 None) /\
     forall i, 0 <= i < 50 -> zth b i = zero) /\
  (exists b,
     sb_read 64 (mkReader 0 50 [mkRange 30 10 (fill Byte.x02 10)])
       (fill Byte.xff 50) 50
       = Some (mkResult (50, b)
                 (mkReader 0 50 [mkRange 30 10 (fill Byte.x02 10)]) None) /\
     forall i, 0 <= i < 50 ->
       zth b i = if (30 <=? i) && (i <? 30 + zlen (fill Byte.x02 10))
                 then zth (fill Byte.x02 10) (i - 30) else zero).
Proof.
  destruct (sb_read_contract 64 Byte.xff width64) as (Hgen & Hnew & Hload).
  assert (Hinv : sb_inv 64 reader_two_ranges) by closed.
  assert (Hn : 0 <= 50 < 2 ^ 64) by closed.
  assert (Hbuf : 50 <= zlen (fill Byte.xff 50)) by closed.
  repeat (split; [assumption |]). split; [| split].
  - destruct (Hgen reader_two_ranges (fill Byte.xff 50) 50 Hinv Hn Hbuf)
      as (r & E & Hiff & Hbytes & _).
    assert (Hok : 0 < 50 /\ rpos reader_two_ranges + 50 <= rsize reader_two_ranges)
      by closed.
    exists r. split; [exact E |].
    destruct (proj2 Hiff Hok) as (Hret & Herr).
    split; [exact Hret |]. split; [exact Herr |]. exact (Hbytes Hok).
  - apply (Hnew 50 [] reader50 []); [closed | closed | reflexivity].
  - apply (Hload 50 [] reader50 [] 30 (fill Byte.x02 10) []
             (mkResult 0 (mkReader 0 50 [mkRange 30 10 (fill Byte.x02 10)]) None)
             []);
      try reflexivity; closed.
Defined.

(** ** C4 *)

Lemma sb_remove_range_contract_witness :
  gapped 64 0 (ranges reader_two_ranges) /\ rsize reader_two_ranges < 2 ^ 64 /\
  0 <= 5 <= 34 /\ 34 < rsize reader_two_ranges /\ never_fails [] /\
  exists r al',
    sb_remove_range 64 Byte.xff reader_two_ranges 5 34 [] = Some (r, al') /\
    ret r = 0 /\ error r = None /\
    rpos (reader r) = rpos reader_two_ranges /\
    rsize (reader r) = rsize reader_two_ranges /\
    ranges (reader r) =
      [mkRange 0 5 (fill Byte.x01 5); mkRange 35 5 (fill Byte.x02 5)] /\
    (forall o,
       loaded (ranges (reader r)) o =
         if (5 <=? o) && (o <=? 34) then None
         else loaded (ranges reader_two_ranges) o) /\
    (forall o, 5 <= o <= 34 -> byte_at (ranges (reader r)) o = zero).
Proof.
  assert (Hg : gapped 64 0 (ranges reader_two_ranges)) by closed.
  assert (Hs : rsize reader_two_ranges < 2 ^ 64) by closed.
  assert (Hse : 0 <= 5 <= 34) by closed.
  assert (He : 34 < rsize reader_two_ranges) by closed.
  assert (Hal : never_fails []) by constructor.
  repeat (split; [assumption |]).
  destruct (proj1 (proj2 (sb_remove_range_contract 64 Byte.xff width64))
              reader_two_ranges 5 34 [] Hg Hs Hse He Hal)
    as (r & al' & E & H0 & Herr & Hp & Hsz & Hr & Hl & Hz).
  exists r, al'.
  repeat (split; [assumption |]). exact Hz.
Defined.

(** ** C5 *)

Lemma sb_read_frame_witness :
  sb_read 64 reader50 (fill Byte.xff 50) 60
    = Some (mkResult (0, fill Byte.x00 50) reader50
              (msg "Cannot read past EOF.")) /\
  reader (mkResult (0, fill Byte.x00 50) reader50
            (msg "Cannot read past EOF.")) = reader50.
Proof.
  assert (E : sb_read 64 reader50 (fill Byte.xff 50) 60
              = Some (mkResult (0, fill Byte.x00 50) reader50
                        (msg "Cannot read past EOF.")))
    by (vm_compute; reflexivity).
  split; [exact E |].
  exact (proj1 (sb_read_frame 64 reader50 (fill Byte.xff 50) 60 _ E)).
Defined.

(** ** C6 *)



(** ** C7 *)

(** C7: the new tail does not always read as zero after growing.  The
    bound check of [sb_load_range] reads the cursor where its message
    speaks of the range (the defect of C2), so a buffer of [50] bytes with
    its cursor at [0] accepts ten bytes of [01] at [100].  [sb_resize] to
    [200] then returns [0], sets the size and leaves the ranges as they
    were, as the claim says; but the tail [[50, 200)] that became
    addressable holds the range [[100, 110)]: after a seek to [100] a read
    of ten bytes returns ten bytes of [01]. *)
Theorem resize_grow_tail_not_zero :
  sb_load_range 64 Byte.xff reader50 100 (fill Byte.x01 10) 10 []
    = Some (mkResult 0
              (mkReader 0 50 [mkRange 100 10 (fill Byte.x01 10)]) None, []) /\
  sb_resize 64 Byte.xff
      (mkReader 0 50 [mkRange 100 10 (fill Byte.x01 10)]) 200 []
    = Some (mkResult 0
              (mkReader 0 200 [mkRange 100 10 (fill Byte.x01 10)]) None, []) /\
  sb_seek 64 (mkReader 0 200 [mkRange 100 10 (fill Byte.x01 10)]) 100 SB_SET
    = mkResult (0, Some 100)
        (mkReader 100 200 [mkRange 100 10 (fill Byte.x01 10)]) None /\
  sb_read 64 (mkReader 100 200 [mkRange 100 10 (fill Byte.x01 10)])
      (fill Byte.xff 10) 10
    = Some (mkResult (10, fill Byte.x01 10)
              (mkReader 100 200 [mkRange 100 10 (fill Byte.x01 10)]) None) /\
  rsize reader50 <= 100 < 200 /\
  byte_at [mkRange 100 10 (fill Byte.x01 10)] 100 = Byte.x01 /\
  Byte.x01 <> zero.
Proof.
  splits;
    first [ vm_compute; reflexivity
          | cbn [rsize reader50]; lia
          | intros H; discriminate H ].
Qed.

Lemma sb_resize_contract_witness :
  gapped 64 0 (ranges reader_two_ranges) /\ rsize reader_two_ranges < 2 ^ 64 /\
  0 < 35 < rsize reader_two_ranges /\ never_fails [] /\
  (exists al',
     sb_resize 64 Byte.xff reader_two_ranges 35 []
       = Some (mkResult 0
                 (mkReader 0 35
                    [mkRange 0 10 (fill Byte.x01 10);
                     mkRange 30 5 (fill Byte.x02 5)]) None, al')) /\
  sb_resize 64 Byte.xff reader_two_ranges 80 []
    = Some (mkResult 0 (mkReader 0 80 (ranges reader_two_ranges)) None, []) /\
  sb_resize 64 Byte.xff reader_two_ranges 50 []
    = Some (mkResult 0 reader_two_ranges None, []).
Proof.
  destruct (sb_resize_contract 64 Byte.xff width64)
    as (_ & Hshrink & Hgrow & Hsame).
  assert (Hg : gapped 64 0 (ranges reader_two_ranges)) by closed.
  assert (Hs : rsize reader_two_ranges < 2 ^ 64) by closed.
  assert (Hn : 0 < 35 < rsize reader_two_ranges) by closed.
  assert (Hal : never_fails []) by constructor.
  repeat (split; [assumption |]). split; [| split].
  - destruct (Hshrink reader_two_ranges 35 [] Hg Hs Hn Hal) as (al' & E & _).
    exists al'. exact E.
  - exact (proj1 (Hgrow reader_two_ranges 80 [] ltac:(closed) ltac:(closed))).
  - apply (Hsame reader_two_ranges []). closed.
Defined.

(** ** C8 *)

(** C8 fails as stated: with the cursor at the end of a buffer of
    [2^64 - 1] bytes a load of one byte has [cursor + length = 2^64],
    greater than the size, and is accepted: the sum wraps to [0]. *)
Lemma load_check_wraps_counterexample :
  rsize (mkReader (2 ^ 64 - 1) (2 ^ 64 - 1) [])
    < rpos (mkReader (2 ^ 64 - 1) (2 ^ 64 - 1) []) + zlen [Byte.x01] /\
  sb_load_range 64 Byte.xff (mkReader (2 ^ 64 - 1) (2 ^ 64 - 1) []) 0
    [Byte.x01] (zlen [Byte.x01]) []
    = Some (mkResult 0
              (mkReader (2 ^ 64 - 1) (2 ^ 64 - 1) [mkRange 0 1 [Byte.x01]])
              None, []).
Proof.
  split; vm_compute; reflexivity.
Qed.

Lemma sb_load_range_validation_witness :
  (10 = 0 \/ rsize (mkReader 45 50 []) < (rpos (mkReader 45 50 []) + 10) mod 2 ^ 64) /\
  (exists m,
     sb_load_range 64 Byte.xff (mkReader 45 50 []) 0 (fill Byte.x01 10) 10 []
       = Some (mkResult (-1) (mkReader 45 50 []) (Some m), [])) /\
  gapped 64 0 (ranges reader_two_ranges) /\ 0 <= 100 < 2 ^ 64 /\
  0 < zlen (fill Byte.x03 10) < 2 ^ 64 /\
  (rpos reader_two_ranges + zlen (fill Byte.x03 10)) mod 2 ^ 64
    <= rsize reader_two_ranges /\
  never_fails [] /\
  (exists rs' al',
     sb_load_range 64 Byte.xff reader_two_ranges 100 (fill Byte.x03 10)
       (zlen (fill Byte.x03 10)) []
       = Some (mkResult 0 (set_ranges reader_two_ranges rs') None, al')).
Proof.
  destruct (sb_load_range_validation 64 Byte.xff width64) as (Hrej & Hacc).
  assert (H1 : 10 = 0 \/ rsize (mkReader 45 50 [])
                           < (rpos (mkReader 45 50 []) + 10) mod 2 ^ 64)
    by (right; closed).
  assert (H2 : gapped 64 0 (ranges reader_two_ranges)) by closed.
  assert (H3 : 0 <= 100 < 2 ^ 64) by closed.
  assert (H4 : 0 < zlen (fill Byte.x03 10) < 2 ^ 64) by closed.
  assert (H5 : (rpos reader_two_ranges + zlen (fill Byte.x03 10)) mod 2 ^ 64
               <= rsize reader_two_ranges) by closed.
  assert (H6 : never_fails []) by constructor.
  split; [assumption |].
  split; [exact (Hrej (mkReader 45 50 []) 0 (fill Byte.x01 10) 10 [] H1) |].
  repeat (split; [assumption |]).
  exact (Hacc reader_two_ranges 100 (fill Byte.x03 10) [] H2 H3 H4 H5 H6).
Defined.

(** ** C9 *)

(** The scenario from the public operations: a load at [49] of ten bytes
    passes the check (the cursor is at [0]); the resize to [48] then has to
    cut the range at the right of [[48, 49]]; the allocation fails;
    [sb_remove_range] returns [1] and [sb_resize] returns [0] with the new
    size. *)
Example resize_succeeds_after_failed_cut :
  sb_load_range 64 Byte.xff reader50 49 (fill Byte.x03 10) 10 []
    = Some (mkResult 0 (mkReader 0 50 [range_49_59]) None, []) /\
  sb_remove_range 64 Byte.xff (mkReader 0 50 [range_49_59]) 48 49 [false]
    = Some (mkResult 1 (mkReader 0 50 [mkRange 50 9 (fill Byte.x03 10)])
              (msg "Could not allocate new range data."), []) /\
  sb_resize 64 Byte.xff (mkReader 0 50 [range_49_59]) 48 [false]
    = Some (mkResult 0 (mkReader 0 48 [mkRange 50 9 (fill Byte.x03 10)])
              (msg "Could not allocate new range data."), []).
Proof.
  split; [| split]; vm_compute; reflexivity.
Qed.

Lemma remove_range_failure_codes_witness :
  reaches 64 (mkReader 0 50 [range_49_59]) 48 49 [] range_49_59 [] /\
  sb_remove_range 64 Byte.xff (mkReader 0 50 [range_49_59]) 48 49 [false]
    = Some (mkResult 1 (mkReader 0 50 [mkRange 50 9 (fill Byte.x03 10)])
              (msg "Could not allocate new range data."), []) /\
  sb_resize 64 Byte.xff (mkReader 0 50 [range_49_59]) 48 [false]
    = Some (mkResult 0 (mkReader 0 48 [mkRange 50 9 (fill Byte.x03 10)])
              (msg "Could not allocate new range data."), []) /\
  exists rs',
    remove_loop 64 Byte.xff 1 [range_49_59] 0 48 49 [false]
      = Some (1, msg "Could not allocate new range data.", rs', []).
Proof.
  assert (Hr : reaches 64 (mkReader 0 50 [range_49_59]) 48 49 [] range_49_59 [])
    by closed.
  destruct (remove_range_failure_codes 64 Byte.xff width64) as (Hloop & Hcall).
  destruct (Hcall (mkReader 0 50 [range_49_59]) 48 49 [] range_49_59 [] [] Hr)
    as (Hright & Hresize); [closed | closed |].
  split; [exact Hr |]. split; [exact Hright |]. split.
  - apply Hresize; closed.
  - destruct (Hloop 0%nat [range_49_59] 0%nat range_49_59 48 49 [])
      as (H1 & _); [reflexivity | closed | closed | closed | closed | closed |].
    apply H1; closed.
Defined.

(** ** C10 *)

Lemma sb_seek_cur_wraps_witness :
  2 ^ 64 <= (2 ^ 64 - 3) + rpos (mkReader 5 50 []) /\
  ((2 ^ 64 - 3) + rpos (mkReader 5 50 [])) mod 2 ^ 64
    <= rsize (mkReader 5 50 []) /\
  rpos (reader (sb_seek 64 (mkReader 5 50 []) (2 ^ 64 - 3) SB_CUR)) = 2.
Proof.
  assert (H1 : 2 ^ 64 <= (2 ^ 64 - 3) + rpos (mkReader 5 50 [])) by closed.
  assert (H2 : ((2 ^ 64 - 3) + rpos (mkReader 5 50 [])) mod 2 ^ 64
               <= rsize (mkReader 5 50 [])) by closed.
  repeat (split; [assumption |]).
  exact (proj2 (sb_seek_cur_wraps 64 (mkReader 5 50 []) (2 ^ 64 - 3) H1 H2)).
Defined.

(** * Instances of the further properties *)

(** ** Construction, [sb_clear] and the accessors *)

Lemma sb_new_reader_contract_witness :
  0 <= 50 < 2 ^ 64 /\
  sb_new_reader 50 [] = (Some reader50, None, []) /\
  sb_inv 64 reader50 /\ sb_bytes_left 64 reader50 = 50.
Proof.
  assert (H : 0 <= 50 < 2 ^ 64) by closed.
  split; [exact H |]. split; [reflexivity |].
  pose proof (proj2 (sb_new_reader_contract 64 50 [] H)) as T.
  change (sb_new_reader_custom_alloc 50 [])
    with (Some reader50, @None String.string, @nil bool) in T.
  cbv beta iota in T.
  destruct T as (_ & _ & _ & _ & _ & _ & Hl & Hinv & _).
  split; [exact Hinv | exact Hl].
Defined.

Lemma sb_clear_reads_zero_witness :
  0 <= rpos reader_two_ranges <= rsize reader_two_ranges /\
  rsize reader_two_ranges < 2 ^ 64 /\
  ranges (sb_clear reader_two_ranges) = [] /\
  sb_inv 64 (sb_clear reader_two_ranges) /\
  exists b,
    sb_read 64 (sb_clear reader_two_ranges) (fill Byte.xff 50) 50
      = Some (mkResult (50, b) (sb_clear reader_two_ranges) None) /\
    forall i, 0 <= i < 50 -> zth b i = zero.
Proof.
  assert (H1 : 0 <= rpos reader_two_ranges <= rsize reader_two_ranges)
    by closed.
  assert (H2 : rsize reader_two_ranges < 2 ^ 64) by closed.
  assert (H3 : 0 < 50) by closed.
  assert (H4 : rpos reader_two_ranges + 50 <= rsize reader_two_ranges)
    by closed.
  assert (H5 : 50 <= zlen (fill Byte.xff 50)) by closed.
  repeat (split; [assumption |]).
  destruct (sb_clear_reads_zero 64 width64 reader_two_ranges)
    as (Hr & _ & _ & _ & _ & _ & Hread).
  split; [exact Hr |].
  destruct (Hread H1 H2) as (Hinv & Hz).
  split; [exact Hinv |].
  exact (Hz (fill Byte.xff 50) 50 H3 H4 H5).
Defined.

Lemma sb_bytes_left_read_witness :
  sb_inv 64 reader_two_ranges /\ 0 < 50 < 2 ^ 64 /\
  50 <= zlen (fill Byte.xff 50) /\
  sb_bytes_left 64 reader_two_ranges
    = rsize reader_two_ranges - rpos reader_two_ranges /\
  exists r,
    sb_read 64 reader_two_ranges (fill Byte.xff 50) 50 = Some r /\
    (fst (ret r) = 50 <-> 50 <= sb_bytes_left 64 reader_two_ranges).
Proof.
  assert (H1 : sb_inv 64 reader_two_ranges) by closed.
  assert (H2 : 0 < 50 < 2 ^ 64) by closed.
  assert (H3 : 50 <= zlen (fill Byte.xff 50)) by closed.
  repeat (split; [assumption |]).
  destruct (sb_bytes_left_read 64 width64 reader_two_ranges
              (fill Byte.xff 50) 50 H1 H2 H3) as (Hl & _ & Hr).
  split; [exact Hl | exact Hr].
Defined.

(** ** [sb_seek] *)

Lemma sb_seek_end_leaves_witness :
  0 <= 20 <= rsize reader_two_ranges /\ rsize reader_two_ranges < 2 ^ 64 /\
  exists rd',
    sb_seek 64 reader_two_ranges 20 SB_END
      = mkResult (0, Some (rsize reader_two_ranges - 20)) rd' None /\
    rpos rd' = rsize reader_two_ranges - 20 /\
    rsize rd' = rsize reader_two_ranges /\
    ranges rd' = ranges reader_two_ranges /\
    sb_bytes_left 64 rd' = 20 /\
    (sb_inv 64 reader_two_ranges ->
     forall buf n,
       0 < n < 2 ^ 64 -> n <= zlen buf ->
       exists r,
         sb_read 64 rd' buf n = Some r /\ (fst (ret r) = n <-> n <= 20)).
Proof.
  assert (H1 : 0 <= 20 <= rsize reader_two_ranges) by closed.
  assert (H2 : rsize reader_two_ranges < 2 ^ 64) by closed.
  repeat (split; [assumption |]).
  exact (sb_seek_end_leaves 64 width64 reader_two_ranges 20 H1 H2).
Defined.

Lemma sb_seek_keeps_inv_witness :
  sb_inv 64 reader_two_ranges /\ 0 <= 10 < 2 ^ 64 /\
  sb_inv 64 (reader (sb_seek 64 reader_two_ranges 10 SB_CUR)) /\
  sb_seek 64 reader_two_ranges 0 SB_CUR
    = mkResult (0, Some (rpos reader_two_ranges)) reader_two_ranges None.
Proof.
  assert (H1 : sb_inv 64 reader_two_ranges) by closed.
  assert (H2 : 0 <= 10 < 2 ^ 64) by closed.
  repeat (split; [assumption |]).
  destruct (sb_seek_keeps_inv 64 width64 reader_two_ranges 10 SB_CUR H1 H2)
    as (Hinv & _ & _ & _ & Htell).
  split; [exact Hinv | exact Htell].
Defined.

(** ** The list of ranges *)

Lemma range_remove_unlinks_witness :
  gapped 64 0 (ranges reader_two_ranges) /\
  In (mkRange 30 10 (fill Byte.x02 10)) (ranges reader_two_ranges) /\
  exists pre rest,
    ranges reader_two_ranges = pre ++ mkRange 30 10 (fill Byte.x02 10) :: rest /\
    range_remove (ranges reader_two_ranges) 30
      = Some (length pre, pre ++ rest) /\
    gapped 64 0 (pre ++ rest).
Proof.
  assert (H1 : gapped 64 0 (ranges reader_two_ranges)) by closed.
  assert (H2 : In (mkRange 30 10 (fill Byte.x02 10))
                 (ranges reader_two_ranges))
    by (right; left; reflexivity).
  repeat (split; [assumption |]).
  destruct (proj1 (range_remove_unlinks 64 width64
                     (ranges reader_two_ranges) 0
                     (mkRange 30 10 (fill Byte.x02 10)) H1 H2))
    as (pre & rest & E & Hr & Hg & _).
  exists pre, rest. split; [exact E |]. split; [exact Hr | exact Hg].
Defined.

Lemma range_insert_remove_witness :
  Forall (fun r => pos r <> pos (mkRange 30 10 (fill Byte.x02 10)))
    [mkRange 0 10 (fill Byte.x01 10)] /\
  Forall (fun r => pos r <> pos (mkRange 20 5 (fill Byte.x03 5)))
    ([mkRange 0 10 (fill Byte.x01 10)]
     ++ mkRange 30 10 (fill Byte.x02 10) :: []) /\
  range_insert_before (ranges reader_two_ranges)
    (mkRange 20 5 (fill Byte.x03 5)) 30
    = Some [mkRange 0 10 (fill Byte.x01 10); mkRange 20 5 (fill Byte.x03 5);
            mkRange 30 10 (fill Byte.x02 10)] /\
  range_remove [mkRange 0 10 (fill Byte.x01 10);
                mkRange 20 5 (fill Byte.x03 5);
                mkRange 30 10 (fill Byte.x02 10)] 20
    = Some (1%nat, ranges reader_two_ranges).
Proof.
  assert (H1 : Forall (fun r => pos r <> pos (mkRange 30 10 (fill Byte.x02 10)))
                 [mkRange 0 10 (fill Byte.x01 10)])
    by (repeat constructor; cbn; lia).
  assert (H2 : Forall (fun r => pos r <> pos (mkRange 20 5 (fill Byte.x03 5)))
                 ([mkRange 0 10 (fill Byte.x01 10)]
                  ++ mkRange 30 10 (fill Byte.x02 10) :: []))
    by (repeat constructor; cbn; lia).
  repeat (split; [assumption |]).
  exact (proj1 (range_insert_remove [mkRange 0 10 (fill Byte.x01 10)] []
                  (mkRange 30 10 (fill Byte.x02 10))
                  (mkRange 20 5 (fill Byte.x03 5)) H1 H2)).
Defined.

(** ** [intersects], [contains] and [merge] *)

Lemma intersects_contains_facts_witness :
  range_ok 64 new_0_10 /\ range_ok 64 stored_5_15 /\
  (intersects 64 new_0_10 stored_5_15 = true <->
   pos stored_5_15 <= pos new_0_10 + size new_0_10 /\
   pos new_0_10 <= pos stored_5_15 + size stored_5_15) /\
  intersects 64 new_0_10 stored_5_15 = intersects 64 stored_5_15 new_0_10.
Proof.
  assert (Ha : range_ok 64 new_0_10) by closed.
  assert (Hb : range_ok 64 stored_5_15) by closed.
  repeat (split; [assumption |]).
  destruct (intersects_contains_facts 64 width64 new_0_10 stored_5_15 Ha Hb)
    as (Hi & _ & Hsym & _).
  split; [exact Hi | exact Hsym].
Defined.

Lemma merge_allocation_witness :
  range_ok 64 new_0_10 /\ range_ok 64 stored_5_15 /\
  intersects 64 new_0_10 stored_5_15 = true /\
  fst (alloc_next [false]) = false /\
  merge 64 Byte.xff new_0_10 stored_5_15 [false] = Some (MergeFail, []).
Proof.
  assert (Ha : range_ok 64 new_0_10) by closed.
  assert (Hb : range_ok 64 stored_5_15) by closed.
  assert (Hi : intersects 64 new_0_10 stored_5_15 = true) by reflexivity.
  assert (Hal : fst (alloc_next [false]) = false) by reflexivity.
  repeat (split; [assumption |]).
  exact (proj1 (proj2 (merge_allocation 64 Byte.xff width64 new_0_10
                         stored_5_15 [false] Ha Hb)) Hi Hal).
Defined.

(** ** [sb_load_range] *)

Lemma sb_load_range_alloc_failures_witness :
  0 < zlen (fill Byte.x03 10) /\
  add 64 (rpos reader_two_ranges) (zlen (fill Byte.x03 10))
    <= rsize reader_two_ranges /\
  sb_load_range 64 Byte.xff reader_two_ranges 5 (fill Byte.x03 10)
    (zlen (fill Byte.x03 10)) [false]
    = Some (mkResult (-1) reader_two_ranges
              (msg "Could not allocate new range."), []) /\
  sb_load_range 64 Byte.xff reader_two_ranges 5 (fill Byte.x03 10)
    (zlen (fill Byte.x03 10)) [true; true; false]
    = Some (mkResult (-1) reader_two_ranges
              (msg "Could not allocate merged buffer."), []).
Proof.
  assert (H1 : 0 < zlen (fill Byte.x03 10)) by closed.
  assert (H2 : add 64 (rpos reader_two_ranges) (zlen (fill Byte.x03 10))
               <= rsize reader_two_ranges) by closed.
  repeat (split; [assumption |]).
  destruct (sb_load_range_alloc_failures 64 Byte.xff reader_two_ranges 5
              (fill Byte.x03 10) [] H1 H2) as (Hnode & _ & Hmerge).
  split; [exact Hnode |].
  apply (Hmerge [] (mkRange 0 10 (fill Byte.x01 10))
           [mkRange 30 10 (fill Byte.x02 10)]).
  - reflexivity.
  - constructor.
  - reflexivity.
Defined.

(** The new range [[5, 12)] is merged into the stored range [[0, 10)];
    the merged range [[0, 12)] touches the stored range [[12, 20)], and
    the allocation for that second merge fails: the call returns [-1] and
    the buffer holds the new bytes. *)
Lemma sb_load_range_failed_keeps_merge_witness :
  0 < zlen (fill Byte.x03 7) /\
  add 64 (rpos (mkReader 0 50 [mkRange 0 10 (fill Byte.x01 10);
                               mkRange 12 8 (fill Byte.x02 8)]))
    (zlen (fill Byte.x03 7)) <= 50 /\
  merge 64 Byte.xff (mkRange 5 (zlen (fill Byte.x03 7)) (fill Byte.x03 7))
    (mkRange 0 10 (fill Byte.x01 10)) []
    = Some (Merged (mkRange 0 12 (fill Byte.x01 5 ++ fill Byte.x03 7)), []) /\
  intersects 64 (mkRange 0 12 (fill Byte.x01 5 ++ fill Byte.x03 7))
    (mkRange 12 8 (fill Byte.x02 8)) = true /\
  sb_load_range 64 Byte.xff
    (mkReader 0 50 [mkRange 0 10 (fill Byte.x01 10);
                    mkRange 12 8 (fill Byte.x02 8)])
    5 (fill Byte.x03 7) (zlen (fill Byte.x03 7)) [true; true; true; false]
    = Some (mkResult (-1)
              (mkReader 0 50 [mkRange 0 12 (fill Byte.x01 5 ++ fill Byte.x03 7);
                              mkRange 12 8 (fill Byte.x02 8)])
              (msg "Could not allocate merged buffer."), []).
Proof.
  assert (H1 : 0 < zlen (fill Byte.x03 7)) by closed.
  assert (H2 : add 64 (rpos (mkReader 0 50 [mkRange 0 10 (fill Byte.x01 10);
                                            mkRange 12 8 (fill Byte.x02 8)]))
                 (zlen (fill Byte.x03 7)) <= 50) by closed.
  assert (H3 : merge 64 Byte.xff
                 (mkRange 5 (zlen (fill Byte.x03 7)) (fill Byte.x03 7))
                 (mkRange 0 10 (fill Byte.x01 10)) []
               = Some (Merged (mkRange 0 12 (fill Byte.x01 5 ++ fill Byte.x03 7)),
                       []))
    by (vm_compute; reflexivity).
  assert (H4 : intersects 64 (mkRange 0 12 (fill Byte.x01 5 ++ fill Byte.x03 7))
                 (mkRange 12 8 (fill Byte.x02 8)) = true) by reflexivity.
  repeat (split; [assumption |]).
  exact (proj1 (sb_load_range_failed_keeps_merge 64 Byte.xff width64
                  (mkReader 0 50 [mkRange 0 10 (fill Byte.x01 10);
                                  mkRange 12 8 (fill Byte.x02 8)])
                  5 (fill Byte.x03 7) [] []
                  (mkRange 0 10 (fill Byte.x01 10))
                  (mkRange 12 8 (fill Byte.x02 8)) []
                  (mkRange 0 12 (fill Byte.x01 5 ++ fill Byte.x03 7))
                  H1 H2 eq_refl (Forall_nil _) H3 H4)).
Defined.

Lemma sb_load_range_effect_witness :
  sb_inv 64 reader_two_ranges /\ 0 <= 5 /\ 0 < zlen (fill Byte.x03 10) /\
  5 + zlen (fill Byte.x03 10) <= rsize reader_two_ranges /\
  rpos reader_two_ranges + zlen (fill Byte.x03 10)
    <= rsize reader_two_ranges /\
  never_fails [] /\
  exists rs' al',
    sb_load_range 64 Byte.xff reader_two_ranges 5 (fill Byte.x03 10)
      (zlen (fill Byte.x03 10)) []
      = Some (mkResult 0 (set_ranges reader_two_ranges rs') None, al') /\
    sb_inv 64 (set_ranges reader_two_ranges rs') /\
    forall o, o < 5 \/ 5 + zlen (fill Byte.x03 10) <= o ->
      loaded rs' o = loaded (ranges reader_two_ranges) o.
Proof.
  assert (H1 : sb_inv 64 reader_two_ranges) by closed.
  assert (H2 : 0 <= 5) by closed.
  assert (H3 : 0 < zlen (fill Byte.x03 10)) by closed.
  assert (H4 : 5 + zlen (fill Byte.x03 10) <= rsize reader_two_ranges)
    by closed.
  assert (H5 : rpos reader_two_ranges + zlen (fill Byte.x03 10)
               <= rsize reader_two_ranges) by closed.
  assert (H6 : never_fails []) by constructor.
  repeat (split; [assumption |]).
  destruct (sb_load_range_effect 64 Byte.xff width64 reader_two_ranges 5
              (fill Byte.x03 10) [] H1 H2 H3 H4 H5 H6)
    as (rs' & al' & E & Hinv & _ & Hout & _).
  exists rs', al'. split; [exact E |]. split; [exact Hinv | exact Hout].
Defined.

Lemma load_seek_read_witness :
  sb_inv 64 reader_two_ranges /\ 0 <= 5 /\ 0 < zlen (fill Byte.x03 10) /\
  5 + zlen (fill Byte.x03 10) <= rsize reader_two_ranges /\
  rpos reader_two_ranges + zlen (fill Byte.x03 10)
    <= rsize reader_two_ranges /\
  never_fails [] /\
  zlen (fill Byte.x03 10) <= zlen (fill Byte.xff 10) /\
  ~ Exists (covers_strictly 5 (zlen (fill Byte.x03 10)))
      (ranges reader_two_ranges) /\
  exists rd1 al1 rd2 b,
    sb_load_range 64 Byte.xff reader_two_ranges 5 (fill Byte.x03 10)
      (zlen (fill Byte.x03 10)) [] = Some (mkResult 0 rd1 None, al1) /\
    sb_seek 64 rd1 5 SB_SET = mkResult (0, Some 5) rd2 None /\
    sb_read 64 rd2 (fill Byte.xff 10) (zlen (fill Byte.x03 10))
      = Some (mkResult (zlen (fill Byte.x03 10), b) rd2 None) /\
    forall i, 0 <= i < zlen (fill Byte.x03 10) ->
      zth b i = zth (fill Byte.x03 10) i.
Proof.
  assert (H1 : sb_inv 64 reader_two_ranges) by closed.
  assert (H2 : 0 <= 5) by closed.
  assert (H3 : 0 < zlen (fill Byte.x03 10)) by closed.
  assert (H4 : 5 + zlen (fill Byte.x03 10) <= rsize reader_two_ranges)
    by closed.
  assert (H5 : rpos reader_two_ranges + zlen (fill Byte.x03 10)
               <= rsize reader_two_ranges) by closed.
  assert (H6 : never_fails []) by constructor.
  assert (H7 : zlen (fill Byte.x03 10) <= zlen (fill Byte.xff 10)) by closed.
  assert (H8 : ~ Exists (covers_strictly 5 (zlen (fill Byte.x03 10)))
                   (ranges reader_two_ranges)).
  { rewrite Exists_exists. intros (e & Hin & He1 & He2 & _).
    destruct Hin as [<- | [<- | []]]; cbn in He1, He2; lia. }
  repeat (split; [assumption |]).
  exact (load_seek_read 64 Byte.xff width64 reader_two_ranges 5
           (fill Byte.x03 10) (fill Byte.xff 10) [] H1 H2 H3 H4 H5 H6 H7 H8).
Defined.

(** ** [sb_remove_range] and [sb_resize] *)

Lemma sb_remove_range_idempotent_witness :
  gapped 64 0 (ranges reader_two_ranges) /\ rsize reader_two_ranges < 2 ^ 64 /\
  0 <= 5 <= 34 /\ 34 < rsize reader_two_ranges /\ never_fails [] /\
  exists rd1 al1 al2,
    sb_remove_range 64 Byte.xff reader_two_ranges 5 34 []
      = Some (mkResult 0 rd1 None, al1) /\
    sb_remove_range 64 Byte.xff rd1 5 34 al1
      = Some (mkResult 0 rd1 None, al2) /\
    forall o, 5 <= o <= 34 -> byte_at (ranges rd1) o = zero.
Proof.
  assert (Hg : gapped 64 0 (ranges reader_two_ranges)) by closed.
  assert (Hs : rsize reader_two_ranges < 2 ^ 64) by closed.
  assert (Hse : 0 <= 5 <= 34) by closed.
  assert (He : 34 < rsize reader_two_ranges) by closed.
  assert (Hal : never_fails []) by constructor.
  repeat (split; [assumption |]).
  exact (sb_remove_range_idempotent 64 Byte.xff width64 reader_two_ranges
           5 34 [] Hg Hs Hse He Hal).
Defined.

Lemma load_then_remove_witness :
  sb_inv 64 reader_two_ranges /\ 0 <= 5 /\ 0 < zlen (fill Byte.x03 10) /\
  5 + zlen (fill Byte.x03 10) <= rsize reader_two_ranges /\
  rpos reader_two_ranges + zlen (fill Byte.x03 10)
    <= rsize reader_two_ranges /\
  never_fails [] /\
  exists rd1 al1 rd2 al2 rd3 al3,
    sb_load_range 64 Byte.xff reader_two_ranges 5 (fill Byte.x03 10)
      (zlen (fill Byte.x03 10)) [] = Some (mkResult 0 rd1 None, al1) /\
    sb_remove_range 64 Byte.xff rd1 5 (5 + zlen (fill Byte.x03 10) - 1) al1
      = Some (mkResult 0 rd2 None, al2) /\
    sb_remove_range 64 Byte.xff reader_two_ranges 5
      (5 + zlen (fill Byte.x03 10) - 1) []
      = Some (mkResult 0 rd3 None, al3) /\
    forall o, loaded (ranges rd2) o = loaded (ranges rd3) o.
Proof.
  assert (H1 : sb_inv 64 reader_two_ranges) by closed.
  assert (H2 : 0 <= 5) by closed.
  assert (H3 : 0 < zlen (fill Byte.x03 10)) by closed.
  assert (H4 : 5 + zlen (fill Byte.x03 10) <= rsize reader_two_ranges)
    by closed.
  assert (H5 : rpos reader_two_ranges + zlen (fill Byte.x03 10)
               <= rsize reader_two_ranges) by closed.
  assert (H6 : never_fails []) by constructor.
  repeat (split; [assumption |]).
  exact (load_then_remove 64 Byte.xff width64 reader_two_ranges 5
           (fill Byte.x03 10) [] H1 H2 H3 H4 H5 H6).
Defined.

Lemma sb_remove_range_keeps_invariants_witness :
  sb_inv 64 reader_two_ranges /\ 0 <= 5 <= 34 /\
  34 < rsize reader_two_ranges /\ never_fails [] /\
  exists rs' al',
    sb_remove_range 64 Byte.xff reader_two_ranges 5 34 []
      = Some (mkResult 0 (set_ranges reader_two_ranges rs') None, al') /\
    sb_inv 64 (set_ranges reader_two_ranges rs') /\ never_fails al' /\
    (length rs' <= S (length (ranges reader_two_ranges)))%nat.
Proof.
  assert (H1 : sb_inv 64 reader_two_ranges) by closed.
  assert (Hse : 0 <= 5 <= 34) by closed.
  assert (He : 34 < rsize reader_two_ranges) by closed.
  assert (Hal : never_fails []) by constructor.
  repeat (split; [assumption |]).
  exact (sb_remove_range_keeps_invariants 64 Byte.xff width64
           reader_two_ranges 5 34 [] H1 Hse He Hal).
Defined.

Lemma sb_resize_grow_shrink_witness :
  sb_inv 64 reader_two_ranges /\ 0 < rsize reader_two_ranges /\
  rsize reader_two_ranges < 80 < 2 ^ 64 /\ never_fails [] /\
  exists rd1 al',
    sb_resize 64 Byte.xff reader_two_ranges 80 []
      = Some (mkResult 0 rd1 None, []) /\
    sb_inv 64 rd1 /\ sb_size rd1 = 80 /\
    sb_resize 64 Byte.xff rd1 (rsize reader_two_ranges) []
      = Some (mkResult 0 reader_two_ranges None, al').
Proof.
  assert (H1 : sb_inv 64 reader_two_ranges) by closed.
  assert (H2 : 0 < rsize reader_two_ranges) by closed.
  assert (H3 : rsize reader_two_ranges < 80 < 2 ^ 64) by closed.
  assert (Hal : never_fails []) by constructor.
  repeat (split; [assumption |]).
  exact (sb_resize_grow_shrink 64 Byte.xff width64 reader_two_ranges 80 []
           H1 H2 H3 Hal).
Defined.

Lemma sb_resize_shrink_grow_witness :
  sb_inv 64 reader_two_ranges /\ 0 < 35 < rsize reader_two_ranges /\
  never_fails [] /\
  exists rd1 al1 rd2,
    sb_resize 64 Byte.xff reader_two_ranges 35 []
      = Some (mkResult 0 rd1 None, al1) /\
    sb_resize 64 Byte.xff rd1 (rsize reader_two_ranges) al1
      = Some (mkResult 0 rd2 None, al1) /\
    sb_inv 64 rd2 /\ sb_size rd2 = sb_size reader_two_ranges /\
    rpos rd2 = Z.min (rpos reader_two_ranges) 35 /\
    forall o,
      loaded (ranges rd2) o
        = if o <? 35 then loaded (ranges reader_two_ranges) o else None.
Proof.
  assert (H1 : sb_inv 64 reader_two_ranges) by closed.
  assert (H2 : 0 < 35 < rsize reader_two_ranges) by closed.
  assert (Hal : never_fails []) by constructor.
  repeat (split; [assumption |]).
  exact (sb_resize_shrink_grow 64 Byte.xff width64 reader_two_ranges 35 []
           H1 H2 Hal).
Defined.

(** ** [sb_read] and its destination *)

(** A range that lies beyond the size: the read of [110] bytes from a
    buffer of [50] bytes succeeds. *)
Lemma sb_read_destination_witness :
  0 <= rpos (mkReader 0 50 [mkRange 100 10 (fill Byte.x01 10)])
    <= rsize (mkReader 0 50 [mkRange 100 10 (fill Byte.x01 10)]) /\
  rsize (mkReader 0 50 [mkRange 100 10 (fill Byte.x01 10)]) < 2 ^ 64 /\
  gapped 64 0 (ranges (mkReader 0 50 [mkRange 100 10 (fill Byte.x01 10)])) /\
  0 < 110 < 2 ^ 64 /\ 110 <= zlen (fill Byte.xff 120) /\
  exists b,
    sb_read 64 (mkReader 0 50 [mkRange 100 10 (fill Byte.x01 10)])
      (fill Byte.xff 120) 110
      = Some (mkResult (110, b)
                (mkReader 0 50 [mkRange 100 10 (fill Byte.x01 10)]) None) /\
    zlen b = zlen (fill Byte.xff 120).
Proof.
  assert (H1 : 0 <= rpos (mkReader 0 50 [mkRange 100 10 (fill Byte.x01 10)])
               <= rsize (mkReader 0 50 [mkRange 100 10 (fill Byte.x01 10)]))
    by closed.
  assert (H2 : rsize (mkReader 0 50 [mkRange 100 10 (fill Byte.x01 10)])
               < 2 ^ 64) by closed.
  assert (H3 : gapped 64 0
                 (ranges (mkReader 0 50 [mkRange 100 10 (fill Byte.x01 10)])))
    by closed.
  assert (H4 : 0 < 110 < 2 ^ 64) by closed.
  assert (H5 : 110 <= zlen (fill Byte.xff 120)) by closed.
  repeat (split; [assumption |]).
  destruct (sb_read_destination 64 width64
              (mkReader 0 50 [mkRange 100 10 (fill Byte.x01 10)])
              (fill Byte.xff 120) 110 H1 H2 H3 H4 H5) as (b & E & L & _).
  exists b. split; [exact E | exact L].
Defined.

(** ** What the calls never touch *)

Lemma sb_load_range_frame_witness :
  sb_load_range 64 Byte.xff reader50 100 (fill Byte.x01 10) 10 []
    = Some (mkResult 0 (mkReader 0 50 [mkRange 100 10 (fill Byte.x01 10)])
              None, []) /\
  rpos (mkReader 0 50 [mkRange 100 10 (fill Byte.x01 10)]) = rpos reader50 /\
  rsize (mkReader 0 50 [mkRange 100 10 (fill Byte.x01 10)]) = rsize reader50.
Proof.
  assert (E : sb_load_range 64 Byte.xff reader50 100 (fill Byte.x01 10) 10 []
              = Some (mkResult 0
                        (mkReader 0 50 [mkRange 100 10 (fill Byte.x01 10)])
                        None, []))
    by (vm_compute; reflexivity).
  split; [exact E |].
  destruct (sb_load_range_frame 64 Byte.xff reader50 100 (fill Byte.x01 10)
              10 [] [] _ E) as (Hp & Hs & _).
  split; [exact Hp | exact Hs].
Defined.

Lemma sb_remove_range_frame_witness :
  sb_remove_range 64 Byte.xff reader_two_ranges 60 70 []
    = Some (mkResult (-1) reader_two_ranges (msg "Invalid range."), []) /\
  rpos reader_two_ranges = rpos reader_two_ranges /\
  rsize reader_two_ranges = rsize reader_two_ranges /\
  (-1 = 0 \/ -1 = -1 \/ -1 = 1) /\
  (-1 = 0 -> msg "Invalid range." = None).
Proof.
  assert (E : sb_remove_range 64 Byte.xff reader_two_ranges 60 70 []
              = Some (mkResult (-1) reader_two_ranges (msg "Invalid range."),
                      []))
    by (vm_compute; reflexivity).
  split; [exact E |].
  exact (sb_remove_range_frame 64 Byte.xff reader_two_ranges
           60 70 [] [] _ E).
Defined.

Lemma sb_resize_frame_witness :
  sb_resize 64 Byte.xff (mkReader 40 50 []) 35 []
    = Some (mkResult 0 (mkReader 35 35 []) None, []) /\
  rsize (mkReader 35 35 []) = 35 /\ rpos (mkReader 35 35 []) = 35.
Proof.
  assert (E : sb_resize 64 Byte.xff (mkReader 40 50 []) 35 []
              = Some (mkResult 0 (mkReader 35 35 []) None, []))
    by (vm_compute; reflexivity).
  split; [exact E |].
  destruct (sb_resize_frame 64 Byte.xff (mkReader 40 50 []) 35 [] [] _ E)
    as [(_ & _ & Hs & Hp) | (Hr & _)]; [| discriminate Hr].
  split; [exact Hs | exact Hp].
Defined.

(** ** The allocator of the test program *)

Lemma test_allocator_refines_witness :
  0 <= 10 /\ 10 + 4 < 2 ^ 64 /\ 0 <= 20 /\ 20 + 4 < 2 ^ 64 /\
  test_alloc 64 Byte.xff 10 []
    = Some (Some (marker ++ fill Byte.xff 10), []) /\
  test_realloc 64 Byte.xff (marker ++ fill Byte.x01 10) 20 []
    = Some (Some (marker ++ fill Byte.x01 10 ++ fill Byte.xff 10), []) /\
  test_free (marker ++ fill Byte.x01 10) = Some tt.
Proof.
  assert (H1 : 0 <= 10) by closed.
  assert (H2 : 10 + 4 < 2 ^ 64) by closed.
  assert (H3 : 0 <= 20) by closed.
  assert (H4 : 20 + 4 < 2 ^ 64) by closed.
  repeat (split; [assumption |]).
  destruct (test_allocator_refines 64 Byte.xff width64 10 20
              (fill Byte.x01 10) [] H1 H2 H3 H4) as (Ha & Hr & Hf & _).
  split; [exact Ha |]. split; [exact Hr | exact Hf].
Defined.

(** ** Removing everything *)

Lemma sb_remove_range_all_witness :
  sb_inv 64 reader_two_ranges /\ 0 < rsize reader_two_ranges /\
  never_fails [] /\
  exists al',
    sb_remove_range 64 Byte.xff reader_two_ranges 0
      (rsize reader_two_ranges - 1) []
      = Some (mkResult 0 (sb_clear reader_two_ranges) None, al').
Proof.
  assert (H1 : sb_inv 64 reader_two_ranges) by closed.
  assert (H2 : 0 < rsize reader_two_ranges) by closed.
  assert (Hal : never_fails []) by constructor.
  repeat (split; [assumption |]).
  exact (sb_remove_range_all 64 Byte.xff width64 reader_two_ranges [] H1 H2 Hal).
Defined.

(** ** Any allocator *)

Lemma sb_remove_range_any_allocator_witness :
  gapped 64 0 (ranges reader_two_ranges) /\ rsize reader_two_ranges < 2 ^ 64 /\
  0 <= 5 /\
  exists r al',
    sb_remove_range 64 Byte.xff reader_two_ranges 5 34 [true; false]
      = Some (r, al').
Proof.
  assert (Hg : gapped 64 0 (ranges reader_two_ranges)) by closed.
  assert (Hs : rsize reader_two_ranges < 2 ^ 64) by closed.
  assert (H0 : 0 <= 5) by closed.
  repeat (split; [assumption |]).
  destruct (sb_remove_range_any_allocator 64 Byte.xff width64
              reader_two_ranges 5 34 [true; false] Hg Hs H0)
    as (r & al' & E & _).
  exists r, al'. exact E.
Defined.

Lemma sb_load_range_any_allocator_witness :
  sb_inv 64 reader_two_ranges /\ 0 <= 5 /\ 0 < zlen (fill Byte.x03 10) /\
  5 + zlen (fill Byte.x03 10) <= rsize reader_two_ranges /\
  rpos reader_two_ranges + zlen (fill Byte.x03 10)
    <= rsize reader_two_ranges /\
  exists r al',
    sb_load_range 64 Byte.xff reader_two_ranges 5 (fill Byte.x03 10)
      (zlen (fill Byte.x03 10)) [true; true; false] = Some (r, al').
Proof.
  assert (H1 : sb_inv 64 reader_two_ranges) by closed.
  assert (H2 : 0 <= 5) by closed.
  assert (H3 : 0 < zlen (fill Byte.x03 10)) by closed.
  assert (H4 : 5 + zlen (fill Byte.x03 10) <= rsize reader_two_ranges)
    by closed.
  assert (H5 : rpos reader_two_ranges + zlen (fill Byte.x03 10)
               <= rsize reader_two_ranges) by closed.
  repeat (split; [assumption |]).
  destruct (sb_load_range_any_allocator 64 Byte.xff width64
              reader_two_ranges 5 (fill Byte.x03 10) [true; true; false]
              H1 H2 H3 H4 H5) as (r & al' & E & _).
  exists r, al'. exact E.
Defined.

Lemma sb_resize_any_allocator_witness :
  gapped 64 0 (ranges reader_two_ranges) /\ rsize reader_two_ranges < 2 ^ 64 /\
  0 <= 35 /\
  exists r al',
    sb_resize 64 Byte.xff reader_two_ranges 35 [false] = Some (r, al').
Proof.
  assert (Hg : gapped 64 0 (ranges reader_two_ranges)) by closed.
  assert (Hs : rsize reader_two_ranges < 2 ^ 64) by closed.
  assert (H0 : 0 <= 35) by closed.
  repeat (split; [assumption |]).
  destruct (sb_resize_any_allocator 64 Byte.xff width64
              reader_two_ranges 35 [false] Hg Hs H0) as (r & al' & E & _).
  exists r, al'. exact E.
Defined.

(** The bytes [0] to [9] are loaded at [30]; the removal of [[25, 34]]
    fails; afterwards the offsets [35] to [39] read as the bytes [0] to
    [4], which were loaded at [30] to [34]. *)
Lemma remove_failure_stale_bytes_witness :
  reaches 64
    (mkReader 0 50
       [mkRange 30 10 [Byte.x00; Byte.x01; Byte.x02; Byte.x03; Byte.x04;
                       Byte.x05; Byte.x06; Byte.x07; Byte.x08; Byte.x09]])
    25 34 []
    (mkRange 30 10 [Byte.x00; Byte.x01; Byte.x02; Byte.x03; Byte.x04;
                    Byte.x05; Byte.x06; Byte.x07; Byte.x08; Byte.x09]) [] /\
  25 <= 30 <= 34 /\ 34 < 30 + 10 - 1 /\
  exists rd',
    sb_remove_range 64 Byte.xff
      (mkReader 0 50
         [mkRange 30 10 [Byte.x00; Byte.x01; Byte.x02; Byte.x03; Byte.x04;
                         Byte.x05; Byte.x06; Byte.x07; Byte.x08; Byte.x09]])
      25 34 [false]
      = Some (mkResult 1 rd' (msg "Could not allocate new range data."), []) /\
    byte_at (ranges rd') 35 = Byte.x00.
Proof.
  assert (H1 : reaches 64
    (mkReader 0 50
       [mkRange 30 10 [Byte.x00; Byte.x01; Byte.x02; Byte.x03; Byte.x04;
                       Byte.x05; Byte.x06; Byte.x07; Byte.x08; Byte.x09]])
    25 34 []
    (mkRange 30 10 [Byte.x00; Byte.x01; Byte.x02; Byte.x03; Byte.x04;
                    Byte.x05; Byte.x06; Byte.x07; Byte.x08; Byte.x09]) [])
    by closed.
  assert (H2 : 25 <= 30 <= 34) by closed.
  assert (H3 : 34 < 30 + 10 - 1) by closed.
  repeat (split; [assumption |]).
  destruct (remove_failure_stale_bytes 64 Byte.xff width64 _ 25 34 [] _ [] []
              H1 H2 H3) as (rd' & E & Hb).
  exists rd'. split; [exact E |].
  exact (proj2 (Hb 35 ltac:(closed))).
Defined.

